(** * MultiLevelCache: a two-tier, time-expiring cache

    A shallow embedding of the class [MultiLevelCache] of
    [docs/fastapi/examples/high-performance-patterns.py] and the
    properties of its [get], [set], [invalidate] and [get_stats]
    operations.

    Modelling conventions.
    - A Python [dict] keeps its keys in insertion order and the stable
      [sorted] call of the eviction code observes that order, so a dict is
      an association list: assignment to an existing key updates it in
      place, assignment to a new key appends.
    - [time.time()] is a reading of an injected clock [clock : nat -> Z];
      the state counts the readings taken so far, and every call of
      [time.time()] in the source is one reading.  Timestamps and TTLs are
      exact numbers of one common unit, and the true division of
      [get_stats] is exact division of rationals.
    - An operation is a state transformer that may raise: [None] stands
      for a propagating [KeyError] / [ZeroDivisionError].
    - The coroutines only await each other, so every public operation runs
      to completion without interleaving. *)

From Stdlib Require Import List String ZArith QArith Lia Bool Arith.
Import ListNotations.

Local Open Scope string_scope.
Local Open Scope list_scope.
Local Open Scope nat_scope.

(** ** Insertion-ordered dictionaries with string keys *)

Module PyDict.

Definition dict (A : Type) : Type := list (string * A).

Definition keys {A} (d : dict A) : list string := map fst d.

(** [d.get(k)] / [d[k]] *)
Fixpoint dict_get {A} (k : string) (d : dict A) : option A :=
  match d with
  | [] => None
  | (k', v) :: d' => if String.eqb k k' then Some v else dict_get k d'
  end.

(** [k in d] *)
Definition dict_mem {A} (k : string) (d : dict A) : bool :=
  match dict_get k d with Some _ => true | None => false end.

(** [d[k] = v]: an existing key keeps its position, a new key goes last. *)
Fixpoint dict_set {A} (k : string) (v : A) (d : dict A) : dict A :=
  match d with
  | [] => [(k, v)]
  | (k', v') :: d' =>
      if String.eqb k k' then (k', v) :: d' else (k', v') :: dict_set k v d'
  end.

(** [d.pop(k, None)] with the popped value dropped: never raises. *)
Fixpoint dict_remove {A} (k : string) (d : dict A) : dict A :=
  match d with
  | [] => []
  | (k', v') :: d' =>
      if String.eqb k k' then dict_remove k d' else (k', v') :: dict_remove k d'
  end.

(** [d.pop(k)]: raises [KeyError] when [k] is absent. *)
Definition dict_pop {A} (k : string) (d : dict A) : option (A * dict A) :=
  match dict_get k d with
  | Some v => Some (v, dict_remove k d)
  | None => None
  end.

(** [del d[k]]: raises [KeyError] when [k] is absent. *)
Definition dict_del {A} (k : string) (d : dict A) : option (dict A) :=
  match dict_get k d with
  | Some _ => Some (dict_remove k d)
  | None => None
  end.

End PyDict.
Import PyDict.

(** ** Python built-ins used by the cache *)

(** [x or y] on an optional integer: [None] and [0] are falsy. *)
Definition py_or (x : option Z) (y : Z) : Z :=
  match x with
  | Some n => if (n =? 0)%Z then y else n
  | None => y
  end.

(** [l[:n]]: the first [n] items, or all but the last [-n] for [n < 0]. *)
Definition py_slice_to {A} (n : Z) (l : list A) : list A :=
  if (0 <=? n)%Z then firstn (Z.to_nat n) l
  else firstn (List.length l - Z.to_nat (- n)) l.

(** [sorted(d.items(), key=lambda x: x[1])]: the sort is stable, so items
    of equal time stay in dictionary order. *)
Fixpoint insert_by_time (x : string * Z) (l : list (string * Z))
  : list (string * Z) :=
  match l with
  | [] => [x]
  | y :: l' =>
      if (snd x <=? snd y)%Z then x :: y :: l' else y :: insert_by_time x l'
  end.

Fixpoint sorted_by_time (l : list (string * Z)) : list (string * Z) :=
  match l with
  | [] => []
  | x :: l' => insert_by_time x (sorted_by_time l')
  end.

(** [pattern in key] on strings *)
Fixpoint str_contains (pattern key : string) : bool :=
  String.prefix pattern key
  || match key with
     | EmptyString => false
     | String _ key' => str_contains pattern key'
     end.

(** truth value of an optional list ([if keys:]) and of an optional string
    ([elif pattern:]) *)
Definition truthy_list {A} (l : option (list A)) : bool :=
  match l with Some (_ :: _) => true | _ => false end.

Definition truthy_str (s : option string) : bool :=
  match s with
  | Some EmptyString => false
  | Some _ => true
  | None => false
  end.

(** [a / b] on integers: true division, [ZeroDivisionError] on [b = 0]. *)
Definition py_truediv (a b : Z) : option Q :=
  if (b =? 0)%Z then None else Some (inject_Z a / inject_Z b)%Q.

(** ** State of the cache *)

Section CacheModel.

Context {V : Type}.

Record CacheEntry : Type := mkEntry {
  value : V;
  expires_at : Z;
  created_at : Z;
  access_count : nat
}.

Record Stats : Type := mkStats {
  l1_hits : nat;
  l1_misses : nat;
  l2_hits : nat;
  l2_misses : nat;
  evictions : nat;
  invalidations : nat
}.

Record MultiLevelCache : Type := mkCache {
  l1_size : Z;
  l2_size : Z;
  default_ttl : Z;
  l1_cache : dict CacheEntry;
  l1_access_times : dict Z;
  l2_cache : dict CacheEntry;
  l2_access_times : dict Z;
  stats : Stats;
  (** number of [time.time()] readings taken so far *)
  clock_reads : nat
}.

(** [MultiLevelCache.__init__] *)
Definition init (l1 l2 ttl : Z) : MultiLevelCache :=
  mkCache l1 l2 ttl [] [] [] [] (mkStats 0 0 0 0 0 0) 0.

Definition with_l1_cache (d : dict CacheEntry) (c : MultiLevelCache) :=
  mkCache (l1_size c) (l2_size c) (default_ttl c) d (l1_access_times c)
          (l2_cache c) (l2_access_times c) (stats c) (clock_reads c).

Definition with_l1_access_times (d : dict Z) (c : MultiLevelCache) :=
  mkCache (l1_size c) (l2_size c) (default_ttl c) (l1_cache c) d
          (l2_cache c) (l2_access_times c) (stats c) (clock_reads c).

Definition with_l2_cache (d : dict CacheEntry) (c : MultiLevelCache) :=
  mkCache (l1_size c) (l2_size c) (default_ttl c) (l1_cache c)
          (l1_access_times c) d (l2_access_times c) (stats c) (clock_reads c).

Definition with_l2_access_times (d : dict Z) (c : MultiLevelCache) :=
  mkCache (l1_size c) (l2_size c) (default_ttl c) (l1_cache c)
          (l1_access_times c) (l2_cache c) d (stats c) (clock_reads c).

Definition with_stats (st : Stats) (c : MultiLevelCache) :=
  mkCache (l1_size c) (l2_size c) (default_ttl c) (l1_cache c)
          (l1_access_times c) (l2_cache c) (l2_access_times c) st
          (clock_reads c).

Definition with_clock_reads (n : nat) (c : MultiLevelCache) :=
  mkCache (l1_size c) (l2_size c) (default_ttl c) (l1_cache c)
          (l1_access_times c) (l2_cache c) (l2_access_times c) (stats c) n.

Definition incr_l1_hits (st : Stats) :=
  mkStats (l1_hits st + 1) (l1_misses st) (l2_hits st) (l2_misses st)
          (evictions st) (invalidations st).
Definition incr_l1_misses (st : Stats) :=
  mkStats (l1_hits st) (l1_misses st + 1) (l2_hits st) (l2_misses st)
          (evictions st) (invalidations st).
Definition incr_l2_hits (st : Stats) :=
  mkStats (l1_hits st) (l1_misses st) (l2_hits st + 1) (l2_misses st)
          (evictions st) (invalidations st).
Definition incr_l2_misses (st : Stats) :=
  mkStats (l1_hits st) (l1_misses st) (l2_hits st) (l2_misses st + 1)
          (evictions st) (invalidations st).
Definition incr_evictions (st : Stats) :=
  mkStats (l1_hits st) (l1_misses st) (l2_hits st) (l2_misses st)
          (evictions st + 1) (invalidations st).
Definition add_invalidations (n : nat) (st : Stats) :=
  mkStats (l1_hits st) (l1_misses st) (l2_hits st) (l2_misses st)
          (evictions st) (invalidations st + n).

(** ** The monad of cache operations *)

Definition M (A : Type) : Type := MultiLevelCache -> option (A * MultiLevelCache).

Definition ret {A} (a : A) : M A := fun c => Some (a, c).

Definition bind {A B} (m : M A) (f : A -> M B) : M B :=
  fun c => match m c with
           | Some (a, c') => f a c'
           | None => None
           end.

Definition gets {A} (f : MultiLevelCache -> A) : M A := fun c => Some (f c, c).

Definition modify (f : MultiLevelCache -> MultiLevelCache) : M unit :=
  fun c => Some (tt, f c).

(** a partial dictionary operation: [None] raises *)
Definition or_raise {A} (o : option A) : M A :=
  fun c => match o with Some a => Some (a, c) | None => None end.

Notation "x <- m ;; k" := (bind m (fun x => k))
  (at level 61, m at next level, right associativity).
Notation "m ;;; k" := (bind m (fun _ => k))
  (at level 61, right associativity).

(** [for x in l: body(x)] *)
Fixpoint for_each {A} (l : list A) (body : A -> M unit) : M unit :=
  match l with
  | [] => ret tt
  | x :: l' => body x ;;; for_each l' body
  end.

(** a loop that also carries a local counter *)
Fixpoint for_count {A} (l : list A) (body : A -> nat -> M nat) (n : nat)
  : M nat :=
  match l with
  | [] => ret n
  | x :: l' => n' <- body x n ;; for_count l' body n'
  end.

Variable clock : nat -> Z.

(** [time.time()] *)
Definition time_time : M Z :=
  fun c => Some (clock (clock_reads c), with_clock_reads (S (clock_reads c)) c).

(** ** The operations *)

(** the body of the loop of [_ensure_l2_space] *)
Definition drop_l2 (item : string * Z) : M unit :=
  let key := fst item in
  modify (fun c => with_l2_cache (dict_remove key (l2_cache c)) c) ;;;
  modify (fun c =>
            with_l2_access_times (dict_remove key (l2_access_times c)) c) ;;;
  modify (fun c => with_stats (incr_evictions (stats c)) c).

(** [_ensure_l2_space] *)
Definition _ensure_l2_space : M unit :=
  c <- gets id ;;
  if (Z.of_nat (List.length (l2_cache c)) >=? l2_size c)%Z then
    let evict_count := (l2_size c / 4)%Z in
    let sorted_items := sorted_by_time (l2_access_times c) in
    for_each (py_slice_to evict_count sorted_items) drop_l2
  else ret tt.

(** the body of the loop of [_evict_l1_to_l2] *)
Definition demote_l1 (item : string * Z) : M unit :=
  let key := fst item in
  c <- gets id ;;
  if dict_mem key (l1_cache c) then
    popped <- or_raise (dict_pop key (l1_cache c)) ;;
    let entry := fst popped in
    modify (with_l1_cache (snd popped)) ;;;
    times <- or_raise (dict_pop key (l1_access_times c)) ;;
    modify (with_l1_access_times (snd times)) ;;;
    now <- time_time ;;
    (if (now <? expires_at entry)%Z then
       _ensure_l2_space ;;;
       modify (fun c => with_l2_cache (dict_set key entry (l2_cache c)) c) ;;;
       now' <- time_time ;;
       modify (fun c =>
                 with_l2_access_times (dict_set key now' (l2_access_times c)) c)
     else ret tt) ;;;
    modify (fun c => with_stats (incr_evictions (stats c)) c)
  else ret tt.

(** [_evict_l1_to_l2] *)
Definition _evict_l1_to_l2 (evict_count : option Z) : M unit :=
  c <- gets id ;;
  let evict_count := py_or evict_count (l1_size c / 4)%Z in
  let sorted_items := sorted_by_time (l1_access_times c) in
  for_each (py_slice_to evict_count sorted_items) demote_l1.

(** [_ensure_l1_space] *)
Definition _ensure_l1_space : M unit :=
  c <- gets id ;;
  if (Z.of_nat (List.length (l1_cache c)) >=? l1_size c)%Z
  then _evict_l1_to_l2 None
  else ret tt.

(** [_promote_to_l1] *)
Definition _promote_to_l1 (key : string) (entry : CacheEntry) : M unit :=
  _ensure_l1_space ;;;
  modify (fun c => with_l1_cache (dict_set key entry (l1_cache c)) c) ;;;
  now <- time_time ;;
  modify (fun c =>
            with_l1_access_times (dict_set key now (l1_access_times c)) c) ;;;
  modify (fun c => with_l2_cache (dict_remove key (l2_cache c)) c) ;;;
  modify (fun c => with_l2_access_times (dict_remove key (l2_access_times c)) c).

(** the tail of [get] after the L1 lookup has not returned *)
Definition get_l2 (key : string) (current_time : Z) : M (option V) :=
  c <- gets id ;;
  let miss : M (option V) :=
    modify (fun c => with_stats (incr_l1_misses (stats c)) c) ;;;
    modify (fun c => with_stats (incr_l2_misses (stats c)) c) ;;;
    ret None in
  match dict_get key (l2_cache c) with
  | Some entry =>
      if (current_time <? expires_at entry)%Z then
        _promote_to_l1 key entry ;;;
        modify (fun c => with_stats (incr_l2_hits (stats c)) c) ;;;
        ret (Some (value entry))
      else
        l2 <- or_raise (dict_del key (l2_cache c)) ;;
        modify (with_l2_cache l2) ;;;
        modify (fun c =>
                  with_l2_access_times (dict_remove key (l2_access_times c)) c) ;;;
        miss
  | None => miss
  end.

(** [get] *)
Definition get (key : string) : M (option V) :=
  current_time <- time_time ;;
  c <- gets id ;;
  match dict_get key (l1_cache c) with
  | Some entry =>
      if (current_time <? expires_at entry)%Z then
        modify (fun c =>
                  with_l1_access_times
                    (dict_set key current_time (l1_access_times c)) c) ;;;
        modify (fun c => with_stats (incr_l1_hits (stats c)) c) ;;;
        ret (Some (value entry))
      else
        l1 <- or_raise (dict_del key (l1_cache c)) ;;
        modify (with_l1_cache l1) ;;;
        modify (fun c =>
                  with_l1_access_times (dict_remove key (l1_access_times c)) c) ;;;
        get_l2 key current_time
  | None => get_l2 key current_time
  end.

(** [set] *)
Definition set (key : string) (v : V) (ttl : option Z) : M unit :=
  c <- gets id ;;
  let ttl := py_or ttl (default_ttl c) in
  current_time <- time_time ;;
  let expires_at := (current_time + ttl)%Z in
  let entry := mkEntry v expires_at current_time 1 in
  _ensure_l1_space ;;;
  modify (fun c => with_l1_cache (dict_set key entry (l1_cache c)) c) ;;;
  modify (fun c =>
            with_l1_access_times (dict_set key current_time (l1_access_times c)) c).

(** the body of the exact-key loop of [invalidate] *)
Definition invalidate_key (key : string) (invalidated : nat) : M nat :=
  c <- gets id ;;
  n1 <- (if dict_mem key (l1_cache c) then
           l1 <- or_raise (dict_del key (l1_cache c)) ;;
           modify (with_l1_cache l1) ;;;
           modify (fun c =>
                     with_l1_access_times
                       (dict_remove key (l1_access_times c)) c) ;;;
           ret (invalidated + 1)
         else ret invalidated) ;;
  c <- gets id ;;
  if dict_mem key (l2_cache c) then
    l2 <- or_raise (dict_del key (l2_cache c)) ;;
    modify (with_l2_cache l2) ;;;
    modify (fun c =>
              with_l2_access_times (dict_remove key (l2_access_times c)) c) ;;;
    ret (n1 + 1)
  else ret n1.

(** the body of the removal loop of the pattern mode of [invalidate] *)
Definition invalidate_match (key : string) (invalidated : nat) : M nat :=
  modify (fun c => with_l1_cache (dict_remove key (l1_cache c)) c) ;;;
  modify (fun c => with_l1_access_times (dict_remove key (l1_access_times c)) c) ;;;
  modify (fun c => with_l2_cache (dict_remove key (l2_cache c)) c) ;;;
  modify (fun c => with_l2_access_times (dict_remove key (l2_access_times c)) c) ;;;
  ret (invalidated + 1).

(** the [if keys: ... elif pattern: ...] block of [invalidate], which
    computes the local counter [invalidated] *)
Definition invalidate_entries (pattern : option string)
           (ks : option (list string)) : M nat :=
  if truthy_list ks then
    for_count (match ks with Some l => l | None => [] end) invalidate_key 0
  else if truthy_str pattern then
    let p := match pattern with Some p => p | None => "" end in
    c <- gets id ;;
    let to_remove :=
      filter (str_contains p) (keys (l1_cache c) ++ keys (l2_cache c)) in
    for_count to_remove invalidate_match 0
  else ret 0.

(** [invalidate(pattern, keys)] *)
Definition invalidate (pattern : option string) (ks : option (list string))
  : M nat :=
  invalidated <- invalidate_entries pattern ks ;;
  modify (fun c => with_stats (add_invalidations invalidated (stats c)) c) ;;;
  ret invalidated.

(** the dictionary returned by [get_stats] *)
Record StatsSnapshot : Type := mkSnapshot {
  snap_stats : Stats;
  snap_l1_size : nat;
  snap_l2_size : nat;
  l1_hit_rate : Q;
  l2_hit_rate : Q;
  total_hit_rate : Q
}.

(** [get_stats]: reads the state and may raise on a division. *)
Definition get_stats (c : MultiLevelCache) : option StatsSnapshot :=
  let st := stats c in
  let z := Z.of_nat in
  match py_truediv (z (l1_hits st)) (Z.max (z (l1_hits st) + z (l1_misses st)) 1) with
  | None => None
  | Some l1_rate =>
    match py_truediv (z (l2_hits st)) (Z.max (z (l2_hits st) + z (l2_misses st)) 1) with
    | None => None
    | Some l2_rate =>
      match py_truediv (z (l1_hits st) + z (l2_hits st))
                       (Z.max (z (l1_hits st) + z (l1_misses st)
                               + z (l2_hits st) + z (l2_misses st)) 1) with
      | None => None
      | Some total =>
          Some (mkSnapshot st (List.length (l1_cache c)) (List.length (l2_cache c))
                           l1_rate l2_rate total)
      end
    end
  end.

(** ** Sequences of public operations *)

Inductive op : Type :=
| OpGet (key : string)
| OpSet (key : string) (v : V) (ttl : option Z)
| OpInvalidate (pattern : option string) (ks : option (list string)).

Definition run_op (o : op) : M unit :=
  match o with
  | OpGet key => get key ;;; ret tt
  | OpSet key v ttl => set key v ttl
  | OpInvalidate pattern ks => invalidate pattern ks ;;; ret tt
  end.

Fixpoint run_ops (os : list op) : M unit :=
  match os with
  | [] => ret tt
  | o :: os' => run_op o ;;; run_ops os'
  end.

End CacheModel.

Arguments CacheEntry : clear implicits.
Arguments MultiLevelCache : clear implicits.
Arguments op : clear implicits.
Arguments M : clear implicits.

Notation "x <- m ;; k" := (bind m (fun x => k))
  (at level 61, m at next level, right associativity).
Notation "m ;;; k" := (bind m (fun _ => k))
  (at level 61, right associativity).

(** * Vocabulary of the properties *)

(** ** Key lists

    What an assignment and a removal do to the key list of a dictionary;
    the two maps of a tier receive the same assignments and removals. *)

Fixpoint key_set (k : string) (ks : list string) : list string :=
  match ks with
  | [] => [k]
  | k' :: ks' => if String.eqb k k' then k' :: ks' else k' :: key_set k ks'
  end.

Fixpoint key_remove (k : string) (ks : list string) : list string :=
  match ks with
  | [] => []
  | k' :: ks' =>
      if String.eqb k k' then key_remove k ks' else k' :: key_remove k ks'
  end.

(** The two maps of each tier list the same keys, in the same order. *)
Definition consistent {V} (c : MultiLevelCache V) : Prop :=
  keys (l1_cache c) = keys (l1_access_times c)
  /\ keys (l2_cache c) = keys (l2_access_times c).

(** Total correctness of an operation: from a state in [P] it does not
    raise and ends in a state in [Q]. *)
Definition triple {V A} (P : MultiLevelCache V -> Prop) (m : M V A)
  (Q : A -> MultiLevelCache V -> Prop) : Prop :=
  forall c, P c -> exists a c', m c = Some (a, c') /\ Q a c'.

(** number of tiers that hold [key] *)
Definition tier_hits {V} (c : MultiLevelCache V) (key : string) : nat :=
  Nat.b2n (dict_mem key (l1_cache c)) + Nat.b2n (dict_mem key (l2_cache c)).

(** The ratio the specification asks for: [a / b], and 0 when [b] is 0. *)
Definition ratio_or_zero (a b : nat) : Q :=
  if (b =? 0)%nat then 0%Q
  else (inject_Z (Z.of_nat a) / inject_Z (Z.of_nat b))%Q.

(** the configuration is [L1], [L2], the maps are aligned, and the tiers
    hold at most [a] and [b] entries *)
Definition within {V} (L1 L2 a b : Z) (c : MultiLevelCache V) : Prop :=
  l1_size c = L1 /\ l2_size c = L2 /\ consistent c
  /\ (Z.of_nat (List.length (l1_cache c)) <= a)%Z
  /\ (Z.of_nat (List.length (l2_cache c)) <= b)%Z.

(** a [set] call: key, value, optional TTL *)
Definition set_request (V : Type) : Type := string * V * option Z.

Definition set_key {V} (r : set_request V) : string := fst (fst r).
Definition set_ttl {V} (r : set_request V) : option Z := snd r.
Definition set_op {V} (r : set_request V) : op V :=
  OpSet (fst (fst r)) (snd (fst r)) (snd r).

(** the entries and access times that a run of [set] calls on fresh keys,
    starting at clock reading [start], appends to a hot tier with room *)
Fixpoint fill_entries {V} (clock : nat -> Z) (dttl : Z) (start : nat)
         (reqs : list (set_request V)) : dict (CacheEntry V) :=
  match reqs with
  | [] => []
  | r :: reqs' =>
      (set_key r,
       mkEntry (snd (fst r)) (clock start + py_or (set_ttl r) dttl)
               (clock start) 1)
        :: fill_entries clock dttl (S start) reqs'
  end.

Fixpoint fill_times {V} (clock : nat -> Z) (start : nat)
         (reqs : list (set_request V)) : dict Z :=
  match reqs with
  | [] => []
  | r :: reqs' => (set_key r, clock start) :: fill_times clock (S start) reqs'
  end.

(** access times in dictionary order never decrease *)
Fixpoint nondecreasing (l : list (string * Z)) : Prop :=
  match l with
  | [] => True
  | x :: l' => (forall y, In y l' -> (snd x <= snd y)%Z) /\ nondecreasing l'
  end.

(** the entries of a run of [set] calls on a fresh cache, the [j]-th of
    them written at clock reading [j], stay unexpired up to clock reading
    [last]: at no reading from its writing on has the clock reached the
    time at which the entry expires *)
Definition unexpired_until {V} (clock : nat -> Z) (dttl : Z)
           (reqs : list (set_request V)) (last : nat) : Prop :=
  forall j r i,
    nth_error reqs j = Some r -> j <= i <= last ->
    (clock i < clock j + py_or (set_ttl r) dttl)%Z.

(** ** Concrete clocks and runs *)

(** a clock that advances by one unit at every reading *)
Definition ticking_clock (n : nat) : Z := Z.of_nat n.

(** the state a run of public operations ends in *)
Definition state_after {V} (clock : nat -> Z) (os : list (op V))
           (c : MultiLevelCache V) : MultiLevelCache V :=
  match run_ops clock os c with
  | Some (_, c') => c'
  | None => c
  end.

(** * Further vocabulary *)

(** ** Lookups and tier membership *)

(** the value one tier offers for [key] at time [now]: that of a live entry *)
Definition live_value {V} (now : Z) (d : dict (CacheEntry V)) (key : string)
  : option V :=
  match dict_get key d with
  | Some e => if (now <? expires_at e)%Z then Some (value e) else None
  | None => None
  end.

(** the value the cache offers for [key] at time [now]: hot tier first *)
Definition visible {V} (now : Z) (c : MultiLevelCache V) (key : string)
  : option V :=
  match live_value now (l1_cache c) key with
  | Some v => Some v
  | None => live_value now (l2_cache c) key
  end.

(** no key is held by both tiers *)
Definition tiers_disjoint {V} (c : MultiLevelCache V) : Prop :=
  forall k, In k (keys (l1_cache c)) -> ~ In k (keys (l2_cache c)).

(** an operation that leaves an observation of the state unchanged whenever
    it completes *)
Definition preserves {V A X} (f : MultiLevelCache V -> X) (m : M V A) : Prop :=
  forall c a c', m c = Some (a, c') -> f c' = f c.

(** number of [get] calls in a run *)
Fixpoint count_gets {V} (os : list (op V)) : nat :=
  match os with
  | [] => 0
  | OpGet _ :: os' => S (count_gets os')
  | _ :: os' => count_gets os'
  end.

(** the four hit and miss counters *)
Definition lookup_counters (st : Stats) : nat * nat * nat * nat :=
  (l1_hits st, l1_misses st, l2_hits st, l2_misses st).

(** removing a list of keys from a dictionary, one after the other *)
Definition remove_keys {A} (ks : list string) (d : dict A) : dict A :=
  fold_left (fun d k => dict_remove k d) ks d.

(** ** Entries and where they come from *)

(** [e] is the entry that one of the tiers holds under [k] *)
Definition held_in {V} (c : MultiLevelCache V) (k : string)
           (e : CacheEntry V) : Prop :=
  dict_get k (l1_cache c) = Some e \/ dict_get k (l2_cache c) = Some e.

(** every entry of [c'] was already held by [c], under the same key *)
Definition only_moves {V} (c c' : MultiLevelCache V) : Prop :=
  forall k e, held_in c' k e -> held_in c k e.

(** a relation between the state before and the state after an operation,
    whenever it completes *)
Definition relates {V A} (R : MultiLevelCache V -> MultiLevelCache V -> Prop)
           (m : M V A) : Prop :=
  forall c a c', m c = Some (a, c') -> R c c'.

(** a decision procedure for [tiers_disjoint] *)
Definition tiers_disjointb {V} (c : MultiLevelCache V) : bool :=
  forallb (fun k => negb (dict_mem k (l2_cache c))) (keys (l1_cache c)).

(** * ObjectPool and PooledResponse

    The class [ObjectPool] of the same file.

    - An object is known by its identity, a number.  The objects the pool's
      factory has made are numbered in the order of their creation and
      their states are kept in [objects]; the factory is taken to return a
      new object at every call, as a class such as [PooledResponse] does,
      and [factory n] is the state of the n-th one.  Any other number
      stands for an object the pool did not make; a run names such an
      object by a number that the factory does not reach in that run, and
      its state is not kept.
    - [_active_objects] is a [WeakSet].  Its membership test and its [add]
      go by the hash and the [==] of the objects, not by their identity:
      [py_eq a b] tells whether the member [a] and the object [b] have the
      same hash and [a == b] holds.  It is any relation at all (a class may
      make distinct objects equal, or an object unequal to itself); it is
      taken not to change during a run.
    - An object leaves the weak set when it is garbage collected, which can
      only happen once nothing refers to it: the operation [Collect] of a
      run stands for the collection of an object, and does nothing while
      the pool holds the object.  The size of the set, which [get_stats]
      reports as [active_objects], is left out of the statistics.
    - The callbacks are taken to return: the factory, the [reset] or
      [clear] of an object, and the making of a weak reference to an object
      ([WeakSet.add] raises [TypeError] for an object that has no hash or
      cannot be weakly referenced). *)

Module ObjectPool.

(** [deque.append] on a deque of bounded length: the oldest items give way *)
Definition deque_append (maxlen : Z) (x : nat) (q : list nat) : list nat :=
  skipn (List.length (q ++ [x]) - Z.to_nat maxlen) (q ++ [x]).

(** [obj in s] on a [WeakSet] *)
Definition set_mem (py_eq : nat -> nat -> bool) (x : nat) (s : list nat)
  : bool :=
  existsb (fun a => py_eq a x) s.

(** [WeakSet.add] *)
Definition set_add (py_eq : nat -> nat -> bool) (x : nat) (s : list nat)
  : list nat :=
  if set_mem py_eq x s then s else s ++ [x].

(** replace the state of object [n] *)
Fixpoint update {O} (n : nat) (f : O -> O) (l : list O) : list O :=
  match l, n with
  | [], _ => []
  | o :: l', 0 => f o :: l'
  | o :: l', S n' => o :: update n' f l'
  end.

Section Model.

Context {O : Type}.
Variable clock : nat -> Z.
Variable factory : nat -> O.
(** [_reset_object]: the object's [reset()], else its [clear()], else
    nothing *)
Variable _reset_object : O -> O.
(** equality and hash of the objects, as the weak set sees them *)
Variable py_eq : nat -> nat -> bool.

Record t : Type := mk {
  max_size : Z;
  cleanup_interval : Z;
  _pool : list nat;
  _created_count : nat;
  _reused_count : nat;
  _last_cleanup : Z;
  _active_objects : list nat;
  objects : list O;
  clock_reads : nat
}.

Definition with_pool (q : list nat) (p : t) : t :=
  mk (max_size p) (cleanup_interval p) q (_created_count p) (_reused_count p)
     (_last_cleanup p) (_active_objects p) (objects p) (clock_reads p).

Definition with_last_cleanup (now : Z) (p : t) : t :=
  mk (max_size p) (cleanup_interval p) (_pool p) (_created_count p)
     (_reused_count p) now (_active_objects p) (objects p) (clock_reads p).

Definition with_active_objects (s : list nat) (p : t) : t :=
  mk (max_size p) (cleanup_interval p) (_pool p) (_created_count p)
     (_reused_count p) (_last_cleanup p) s (objects p) (clock_reads p).

(** [time.time()] *)
Definition time_time (p : t) : Z * t :=
  (clock (clock_reads p),
   mk (max_size p) (cleanup_interval p) (_pool p) (_created_count p)
      (_reused_count p) (_last_cleanup p) (_active_objects p) (objects p)
      (S (clock_reads p))).

(** [ObjectPool.__init__]; [deque(maxlen=max_size)] raises [ValueError] for
    a negative [max_size] *)
Definition init (max_size cleanup_interval : Z) : option t :=
  if (max_size <? 0)%Z then None
  else Some (mk max_size cleanup_interval [] 0 0 (clock 0) [] [] 1).

(** [for _ in range(n): if self._pool: self._pool.popleft()] *)
Fixpoint popleft_times (n : nat) (p : t) : t :=
  match n with
  | 0 => p
  | S n' =>
      popleft_times n'
        (match _pool p with
         | [] => p
         | _ :: q => with_pool q p
         end)
  end.

(** [_cleanup_expired_objects] *)
Definition _cleanup_expired_objects (p : t) : t :=
  let (now, p) := time_time p in
  let p := with_last_cleanup now p in
  let current_pool_size := List.length (_pool p) in
  if (Z.of_nat current_pool_size >? max_size p / 2)%Z
  then popleft_times (current_pool_size / 2) p
  else p.

(** [acquire] *)
Definition acquire (p : t) : nat * t :=
  let (now, p) := time_time p in
  let p := if (now - _last_cleanup p >? cleanup_interval p)%Z
           then _cleanup_expired_objects p else p in
  match _pool p with
  | obj :: q =>
      (obj,
       mk (max_size p) (cleanup_interval p) q (_created_count p)
          (_reused_count p + 1) (_last_cleanup p)
          (set_add py_eq obj (_active_objects p))
          (update obj _reset_object (objects p)) (clock_reads p))
  | [] =>
      let obj := List.length (objects p) in
      (obj,
       mk (max_size p) (cleanup_interval p) [] (_created_count p + 1)
          (_reused_count p) (_last_cleanup p)
          (set_add py_eq obj (_active_objects p))
          (objects p ++ [factory obj]) (clock_reads p))
  end.

(** [release] *)
Definition release (obj : nat) (p : t) : t :=
  if (Z.of_nat (List.length (_pool p)) <? max_size p)%Z
     && set_mem py_eq obj (_active_objects p)
  then with_pool (deque_append (max_size p) obj (_pool p)) p
  else p.

(** the dictionary returned by [get_stats], without [active_objects] *)
Record PoolStats : Type := mkPoolStats {
  pool_size : nat;
  created_count : nat;
  reused_count : nat;
  reuse_ratio : Q
}.

(** [get_stats] *)
Definition get_stats (p : t) : option PoolStats :=
  match py_truediv (Z.of_nat (_reused_count p))
                   (Z.max (Z.of_nat (_created_count p)) 1) with
  | Some ratio =>
      Some (mkPoolStats (List.length (_pool p)) (_created_count p)
                        (_reused_count p) ratio)
  | None => None
  end.

(** what happens to a pool: a client acquires an object, releases one, or
    changes the state of one it holds on to, and an object to which nothing
    refers any more is collected *)
Inductive op : Type :=
| Acquire
| Release (obj : nat)
| Mutate (obj : nat) (o : O)
| Collect (obj : nat).

Definition run_op (o : op) (p : t) : t :=
  match o with
  | Acquire => snd (acquire p)
  | Release obj => release obj p
  | Mutate obj s =>
      mk (max_size p) (cleanup_interval p) (_pool p) (_created_count p)
         (_reused_count p) (_last_cleanup p) (_active_objects p)
         (update obj (fun _ => s) (objects p)) (clock_reads p)
  | Collect obj =>
      if existsb (Nat.eqb obj) (_pool p) then p
      else with_active_objects
             (filter (fun a => negb (Nat.eqb a obj)) (_active_objects p)) p
  end.

Definition run_ops (os : list op) (p : t) : t := fold_left (fun p o => run_op o p) os p.

Definition count_acquires (os : list op) : nat :=
  List.length (filter (fun o => match o with Acquire => true | _ => false end) os).

(** the objects that the [acquire] calls of a run return, in order *)
Fixpoint acquired (os : list op) (p : t) : list nat :=
  match os with
  | [] => []
  | Acquire :: os' => fst (acquire p) :: acquired os' (snd (acquire p))
  | o :: os' => acquired os' (run_op o p)
  end.



End Model.

Arguments t : clear implicits.
Arguments op : clear implicits.

(** the pool invariant, for a pool whose [acquire] calls have returned the
    objects [handed] so far: the pool respects its bound, the weak set
    holds only objects that [acquire] returned, every pooled object has
    passed for one of those, and every object made is counted *)
Definition ok {O} (py_eq : nat -> nat -> bool) (handed : list nat) (p : t O)
  : Prop :=
  (0 <= max_size p)%Z
  /\ (Z.of_nat (List.length (_pool p)) <= max_size p)%Z
  /\ (forall a, In a (_active_objects p) -> In a handed)
  /\ (forall obj, In obj (_pool p) ->
        exists a, In a handed /\ py_eq a obj = true)
  /\ _created_count p = List.length (objects p).

(** whether the next [acquire] runs the cleanup *)
Definition cleanup_due {O} (clock : nat -> Z) (p : t O) : bool :=
  (clock (clock_reads p) - _last_cleanup p >? cleanup_interval p)%Z.

(** the number of pooled objects that the next [acquire] drops before it
    serves *)
Definition skipped {O} (clock : nat -> Z) (p : t O) : nat :=
  if cleanup_due clock p
     && (Z.of_nat (List.length (_pool p)) >? max_size p / 2)%Z
  then List.length (_pool p) / 2 else 0.

End ObjectPool.

(** [PooledResponse].  A holder of a response may bind any value to its
    attributes; [Val] is the type of the items that such values carry. *)
Module PooledResponse.

(** a value bound to an attribute: a dict, another container with a
    [clear()] method (a list: [clear()] empties it and it stays a list), an
    integer, or another value without [clear] ([None], a string, ...) *)
Inductive value (Val : Type) : Type :=
| DictValue (d : dict Val)
| ListValue (l : list Val)
| IntValue (n : Z)
| PlainValue (v : Val).
Arguments DictValue {Val}.
Arguments ListValue {Val}.
Arguments IntValue {Val}.
Arguments PlainValue {Val}.

(** [v.clear()]: the value afterwards, [AttributeError] for a value
    without [clear] *)
Definition clear {Val} (v : value Val) : option (value Val) :=
  match v with
  | DictValue _ => Some (DictValue [])
  | ListValue _ => Some (ListValue [])
  | IntValue _ => None
  | PlainValue _ => None
  end.



Record t (Val : Type) : Type := mk {
  data : value Val;
  status_code : value Val;
  headers : value Val
}.
Arguments mk {Val}.
Arguments data {Val}.
Arguments status_code {Val}.
Arguments headers {Val}.






End PooledResponse.


(** * StreamingDataProcessor

    The two generators of the class [StreamingDataProcessor] of the same
    file.  [bytes] values are strings of bytes, and a text is held as its
    UTF-8 encoding, so that [encode()] changes nothing and [len] of an
    encoded line is the length of the string.  A data source is the finite
    list of the items it yields, and a stream is the list of the chunks
    yielded, in order.  [orjson.dumps] may raise: the generator then stops,
    and what the consumer has is the chunks yielded so far. *)

Module StreamingDataProcessor.

Definition newline : string := String (Ascii.ascii_of_nat 10) "".
Definition quote : string := String (Ascii.ascii_of_nat 34) "".

(** [len(b)] *)
Definition py_len (b : string) : Z := Z.of_nat (String.length b).

(** [b''.join(chunk_buffer)] *)
Definition join_bytes (chunk_buffer : list string) : string :=
  String.concat "" chunk_buffer.

(** [yield chunk] before the rest of a stream; the flag of a stream tells
    whether the generator ran to its end *)
Definition yield (chunk : string) (rest : list string * bool)
  : list string * bool :=
  (chunk :: fst rest, snd rest).

Section Model.

Context {Val Item : Type}.
(** [self.chunk_size] *)
Variable self_chunk_size : Z.
(** [str(v)] of a value of a row *)
Variable to_str : Val -> string.
(** [orjson.dumps(item)]; [None] when it raises *)
Variable dumps : Item -> option string.
(** [orjson.dumps(metadata)], which holds the time of the call *)
Variable metadata : string.

(** [','.join(str(row.get(header, '')) for header in headers).encode()
    + b'\n'] *)
Definition csv_bytes (headers : list string) (row : dict Val) : string :=
  (String.concat ","
     (map (fun header => match dict_get header row with
                         | Some v => to_str v
                         | None => ""
                         end) headers)
   ++ newline)%string.

(** the loop of [stream_csv_data] over the rows still to come, and the
    flush after it *)
Fixpoint csv_loop (headers : list string) (data_source : list (dict Val))
         (chunk_buffer : list string) (chunk_size : Z) : list string :=
  match data_source with
  | [] =>
      match chunk_buffer with
      | [] => []
      | _ => [join_bytes chunk_buffer]
      end
  | row :: rest =>
      let chunk_buffer := chunk_buffer ++ [csv_bytes headers row] in
      let chunk_size := (chunk_size + py_len (csv_bytes headers row))%Z in
      if (chunk_size >=? self_chunk_size)%Z
      then join_bytes chunk_buffer :: csv_loop headers rest [] 0%Z
      else csv_loop headers rest chunk_buffer chunk_size
  end.

(** [stream_csv_data] *)
Definition stream_csv_data (data_source : list (dict Val))
           (headers : list string) : list string :=
  (String.concat "," headers ++ newline)%string
  :: csv_loop headers data_source [] 0%Z.

(** [b'["data":['] *)
Definition opening : string :=
  ("[" ++ quote ++ "data" ++ quote ++ ":[")%string.

(** [b'],"metadata":' + orjson.dumps(metadata) + b'}'], or [b']}'] *)
Definition closing (include_metadata : bool) : string :=
  if include_metadata
  then ("]," ++ quote ++ "metadata" ++ quote ++ ":" ++ metadata ++ "}")%string
  else "]}".

(** [if transform_func: item = transform_func(item)] *)
Definition transformed (transform_func : option (Item -> Item))
           (item : Item) : Item :=
  match transform_func with
  | Some f => f item
  | None => item
  end.

(** the loop of [stream_large_dataset] over the items still to come, and
    what follows it *)
Fixpoint dataset_loop (transform_func : option (Item -> Item))
         (include_metadata : bool) (data_source : list Item)
         (first_item : bool) (chunk_buffer : list string) (chunk_size : Z)
  : list string * bool :=
  match data_source with
  | [] =>
      (match chunk_buffer with
       | [] => [closing include_metadata]
       | _ => [join_bytes chunk_buffer; closing include_metadata]
       end, true)
  | item :: rest =>
      match dumps (transformed transform_func item) with
      | None => ([], false)
      | Some serialized_item =>
          let chunk_buffer :=
            if first_item then chunk_buffer else chunk_buffer ++ [","] in
          let chunk_buffer := chunk_buffer ++ [serialized_item] in
          let chunk_size := (chunk_size + py_len serialized_item)%Z in
          if (chunk_size >=? self_chunk_size)%Z
          then yield (join_bytes chunk_buffer)
                 (dataset_loop transform_func include_metadata rest false
                    [] 0%Z)
          else dataset_loop transform_func include_metadata rest false
                 chunk_buffer chunk_size
      end
  end.

(** [stream_large_dataset] *)
Definition stream_large_dataset (data_source : list Item)
           (transform_func : option (Item -> Item))
           (include_metadata : bool) : list string * bool :=
  yield opening
    (dataset_loop transform_func include_metadata data_source true [] 0%Z).

End Model.

(** the size that the loops count for a buffer of lines *)
Definition lines_size (l : list string) : Z :=
  fold_right (fun b n => (py_len b + n)%Z) 0%Z l.

(** the items of a JSON array after the first, each after its comma *)
Definition after_commas (l : list string) : string :=
  join_bytes (map (fun s => ("," ++ s)%string) l).

(** the chunk that carries the serialized items [g]: the items joined by
    commas, after a comma unless the first of them is the first item of the
    stream *)
Definition chunk_of (first : bool) (g : list string) : string :=
  if first then String.concat "," g else after_commas g.

(** the chunks that carry the groups of items [groups], in order *)
Fixpoint chunks_of (first : bool) (groups : list (list string))
  : list string :=
  match groups with
  | [] => []
  | g :: groups' => chunk_of first g :: chunks_of false groups'
  end.

(** a group of items that has filled the buffer: the sizes of its items
    reach [chunk_size], and do not without its last item *)
Definition full_group (chunk_size : Z) (g : list string) : Prop :=
  g <> []
  /\ (chunk_size <= lines_size g)%Z
  /\ (removelast g <> [] -> (lines_size (removelast g) < chunk_size)%Z).

End StreamingDataProcessor.

(** * Proofs *)

(** ** Dictionary lemmas *)

Section DictFacts.

Context {A : Type}.
Implicit Types (d : dict A) (k : string).

Lemma keys_dict_set k (v : A) d : keys (dict_set k v d) = key_set k (keys d).
Proof.
  induction d as [|[k' v'] d IH]; simpl; [reflexivity|].
  destruct (String.eqb k k'); simpl; [reflexivity|now rewrite <- IH].
Qed.

Lemma keys_dict_remove k d : keys (dict_remove k d) = key_remove k (keys d).
Proof.
  induction d as [|[k' v'] d IH]; simpl; [reflexivity|].
  destruct (String.eqb k k'); simpl; [exact IH|now rewrite <- IH].
Qed.

Lemma dict_mem_In k d : dict_mem k d = true <-> In k (keys d).
Proof.
  unfold dict_mem.
  induction d as [|[k' v'] d IH]; simpl; [split; [discriminate|tauto]|].
  destruct (String.eqb_spec k k') as [->|Hne]; [tauto|].
  rewrite IH. split; [tauto|]. intros [E|H]; [congruence|exact H].
Qed.

Lemma dict_get_None k d : dict_get k d = None <-> ~ In k (keys d).
Proof.
  rewrite <- dict_mem_In. unfold dict_mem.
  destruct (dict_get k d); split; intro H; try congruence; now elim H.
Qed.

Lemma dict_get_Some_In k d v : dict_get k d = Some v -> In k (keys d).
Proof. intro H. apply dict_mem_In. unfold dict_mem. now rewrite H. Qed.

Lemma dict_get_set_eq k (v : A) d : dict_get k (dict_set k v d) = Some v.
Proof.
  induction d as [|[k' v'] d IH]; simpl.
  - now rewrite String.eqb_refl.
  - destruct (String.eqb_spec k k') as [->|Hne]; simpl.
    + now rewrite String.eqb_refl.
    + destruct (String.eqb_spec k k'); [contradiction|exact IH].
Qed.

Lemma dict_get_set_neq k k' (v : A) d :
  k <> k' -> dict_get k' (dict_set k v d) = dict_get k' d.
Proof.
  intro Hne. induction d as [|[k0 v0] d IH]; simpl.
  - destruct (String.eqb_spec k' k); [congruence|reflexivity].
  - destruct (String.eqb_spec k k0) as [->|Hk]; simpl.
    + destruct (String.eqb_spec k' k0); [congruence|reflexivity].
    + destruct (String.eqb_spec k' k0); [reflexivity|exact IH].
Qed.

Lemma dict_get_remove_eq k d : dict_get k (dict_remove k d) = None.
Proof.
  induction d as [|[k' v'] d IH]; simpl; [reflexivity|].
  destruct (String.eqb_spec k k') as [->|Hne]; [exact IH|].
  simpl. destruct (String.eqb_spec k k'); [contradiction|exact IH].
Qed.

Lemma dict_get_remove_neq k k' d :
  k <> k' -> dict_get k' (dict_remove k d) = dict_get k' d.
Proof.
  intro Hne. induction d as [|[k0 v0] d IH]; simpl; [reflexivity|].
  destruct (String.eqb_spec k k0) as [->|Hk]; simpl.
  - destruct (String.eqb_spec k' k0); [congruence|exact IH].
  - destruct (String.eqb_spec k' k0); [reflexivity|exact IH].
Qed.

Lemma dict_remove_absent k d : dict_get k d = None -> dict_remove k d = d.
Proof.
  induction d as [|[k' v'] d IH]; simpl; [reflexivity|].
  destruct (String.eqb k k'); [discriminate|]. intro H. now rewrite IH.
Qed.

Lemma length_keys d : List.length (keys d) = List.length d.
Proof. apply length_map. Qed.

End DictFacts.

Lemma dict_mem_keys {A B} k (d : dict A) (d' : dict B) :
  keys d = keys d' -> dict_mem k d = dict_mem k d'.
Proof.
  intro E. apply eq_true_iff_eq. now rewrite !dict_mem_In, E.
Qed.

(** ** Key-list lemmas *)

Lemma key_remove_absent k ks : ~ In k ks -> key_remove k ks = ks.
Proof.
  induction ks as [|k' ks IH]; simpl; [reflexivity|]. intro H.
  destruct (String.eqb_spec k k') as [->|Hne]; [tauto|].
  rewrite IH; tauto.
Qed.

Lemma In_key_remove k k' ks : In k' (key_remove k ks) <-> k' <> k /\ In k' ks.
Proof.
  induction ks as [|k0 ks IH]; simpl; [tauto|].
  destruct (String.eqb_spec k k0) as [->|Hne]; simpl; rewrite IH.
  - split; [tauto|]. intros [H1 [H2|H2]]; [congruence|tauto].
  - split.
    + intros [<-|H]; [split; [congruence|now left]|tauto].
    + tauto.
Qed.

Lemma In_key_set k k' ks : In k' (key_set k ks) <-> k' = k \/ In k' ks.
Proof.
  induction ks as [|k0 ks IH]; simpl; [intuition congruence|].
  destruct (String.eqb_spec k k0) as [->|Hne]; simpl; [|rewrite IH];
    intuition congruence.
Qed.

Lemma key_set_present k ks : In k ks -> key_set k ks = ks.
Proof.
  induction ks as [|k' ks IH]; simpl; [tauto|]. intro H.
  destruct (String.eqb_spec k k') as [->|Hne]; [reflexivity|].
  rewrite IH; [reflexivity|]. destruct H; congruence.
Qed.

Lemma key_set_absent k ks : ~ In k ks -> key_set k ks = ks ++ [k].
Proof.
  induction ks as [|k' ks IH]; simpl; [reflexivity|]. intro H.
  destruct (String.eqb_spec k k') as [->|Hne]; [tauto|].
  rewrite IH; tauto.
Qed.

Lemma NoDup_key_remove k ks : NoDup ks -> NoDup (key_remove k ks).
Proof.
  induction 1 as [|k' ks Hn Hd IH]; simpl; [constructor|].
  destruct (String.eqb k k'); [exact IH|].
  constructor; [|exact IH]. rewrite In_key_remove. tauto.
Qed.

Lemma NoDup_key_set k ks : NoDup ks -> NoDup (key_set k ks).
Proof.
  intro H. destruct (in_dec string_dec k ks) as [Hin|Hin].
  - now rewrite key_set_present.
  - rewrite key_set_absent by exact Hin.
    apply NoDup_app; [exact H|repeat constructor; simpl; tauto|].
    intros x Hx [<-|[]]. tauto.
Qed.

Lemma length_key_remove_le k ks :
  List.length (key_remove k ks) <= List.length ks.
Proof.
  induction ks as [|k' ks IH]; simpl; [lia|].
  destruct (String.eqb k k'); simpl; lia.
Qed.

Lemma length_key_remove_In k ks :
  In k ks -> List.length (key_remove k ks) < List.length ks.
Proof.
  induction ks as [|k' ks IH]; simpl; [tauto|]. intro H.
  destruct (String.eqb_spec k k') as [->|Hne].
  - pose proof (length_key_remove_le k' ks). lia.
  - simpl. destruct H; [congruence|]. apply IH in H. lia.
Qed.

Lemma length_key_set_le k ks :
  List.length (key_set k ks) <= S (List.length ks).
Proof.
  induction ks as [|k' ks IH]; simpl; [lia|].
  destruct (String.eqb k k'); simpl; lia.
Qed.

#[global] Arguments keys {A} d : simpl never.

(** reduce the projections of an updated state *)
Ltac state_simpl :=
  cbn [l1_cache l2_cache l1_access_times l2_access_times stats clock_reads
       l1_size l2_size default_ttl with_l1_cache with_l1_access_times
       with_l2_cache with_l2_access_times with_stats with_clock_reads
       fst snd] in *.

(** run the straight-line steps of an operation *)
Ltac run_steps :=
  cbv [bind modify gets ret id or_raise time_time]; state_simpl.

(** ** Rules for total-correctness triples *)

Section Triples.

Context {V : Type}.
Abbreviation State := (MultiLevelCache V).
Implicit Types (P I : State -> Prop) (c : State).

Lemma bind_Some {A B} (m : M V A) (f : A -> M V B) c a c' :
  m c = Some (a, c') -> bind m f c = f a c'.
Proof. unfold bind. now intros ->. Qed.

Lemma triple_ret {A} P (a : A) (Q : A -> State -> Prop) :
  (forall c, P c -> Q a c) -> triple P (ret a) Q.
Proof. intros H c Hc. exists a, c. split; [reflexivity|auto]. Qed.

Lemma triple_bind {A B} P (m : M V A) (R : A -> State -> Prop)
      (f : A -> M V B) (Q : B -> State -> Prop) :
  triple P m R -> (forall a, triple (R a) (f a) Q) -> triple P (bind m f) Q.
Proof.
  intros Hm Hf c Hc. destruct (Hm c Hc) as (a & c1 & E & HR).
  rewrite (bind_Some _ _ _ _ _ E). exact (Hf a c1 HR).
Qed.

Lemma triple_read {A} P (f : State -> M V A) (Q : A -> State -> Prop) :
  (forall c0, P c0 -> triple (fun c => c = c0) (f c0) Q) ->
  triple P (bind (gets id) f) Q.
Proof. intros H c Hc. exact (H c Hc c eq_refl). Qed.

Lemma triple_modify P (f : State -> State) (Q : unit -> State -> Prop) :
  (forall c, P c -> Q tt (f c)) -> triple P (modify f) Q.
Proof. intros H c Hc. exists tt, (f c). split; [reflexivity|auto]. Qed.

Lemma triple_weaken {A} P P' (m : M V A) (Q Q' : A -> State -> Prop) :
  triple P' m Q' -> (forall c, P c -> P' c) ->
  (forall a c, Q' a c -> Q a c) -> triple P m Q.
Proof.
  intros H HP HQ c Hc. destruct (H c (HP c Hc)) as (a & c1 & E & HQ').
  exists a, c1. split; [exact E|auto].
Qed.

Lemma triple_conj {A} P1 P2 (m : M V A) (Q1 Q2 : A -> State -> Prop) :
  triple P1 m Q1 -> triple P2 m Q2 ->
  triple (fun c => P1 c /\ P2 c) m (fun a c => Q1 a c /\ Q2 a c).
Proof.
  intros H1 H2 c [Hc1 Hc2].
  destruct (H1 c Hc1) as (a & c1 & E1 & G1).
  destruct (H2 c Hc2) as (a' & c1' & E2 & G2).
  rewrite E1 in E2. injection E2 as <- <-.
  exists a, c1. auto.
Qed.

Lemma triple_for_each {A} I (l : list A) (body : A -> M V unit) :
  (forall x, In x l -> triple I (body x) (fun _ => I)) ->
  triple I (for_each l body) (fun _ => I).
Proof.
  induction l as [|x l IH]; intro H; simpl.
  - now apply triple_ret.
  - eapply triple_bind; [apply H; now left|].
    intros ?. apply IH. intros y Hy. apply H. now right.
Qed.

Lemma triple_for_count {A} I (l : list A) (body : A -> nat -> M V nat) n :
  (forall x m, In x l -> triple I (body x m) (fun _ => I)) ->
  triple I (for_count l body n) (fun _ => I).
Proof.
  revert n. induction l as [|x l IH]; intros n H; simpl.
  - now apply triple_ret.
  - eapply triple_bind; [apply H; now left|].
    intros n'. apply IH. intros y m Hy. apply H. now right.
Qed.

End Triples.

(** ** The two maps of each tier stay aligned, and nothing raises *)

Section Consistency.

Context {V : Type}.
Variable clock : nat -> Z.
Abbreviation State := (MultiLevelCache V).
Implicit Types (c : State).

Ltac finish_consistent :=
  unfold consistent in *; cbn in *;
  rewrite ?keys_dict_set, ?keys_dict_remove; intuition congruence.

Lemma dict_pop_mem {A} k (d : dict A) :
  dict_mem k d = true -> exists v, dict_get k d = Some v
                                   /\ dict_pop k d = Some (v, dict_remove k d).
Proof.
  unfold dict_mem, dict_pop. destruct (dict_get k d) as [v|]; [|discriminate].
  intros _. now exists v.
Qed.

Lemma _ensure_l2_space_consistent :
  triple (@consistent V) _ensure_l2_space (fun _ => consistent).
Proof.
  unfold _ensure_l2_space. apply triple_read. intros c0 H0.
  destruct (_ >=? _)%Z.
  - eapply triple_weaken with (P' := consistent) (Q' := fun _ => consistent);
      [|intros c ->; exact H0|auto].
    apply triple_for_each. intros [key t] _ c Hc. unfold drop_l2.
    run_steps. do 2 eexists. split; [reflexivity|]. finish_consistent.
  - apply triple_ret. now intros c ->.
Qed.

Lemma demote_l1_consistent (item : string * Z) :
  triple (@consistent V) (demote_l1 clock item)
    (fun _ => consistent).
Proof.
  destruct item as [key t]. unfold demote_l1. cbn [fst]. intros c Hc.
  unfold bind at 1. unfold gets, id.
  destruct (dict_mem key (l1_cache c)) eqn:Hmem; [|now exists tt, c].
  destruct (dict_pop_mem _ _ Hmem) as (entry & _ & Hpop).
  assert (Hmem' : dict_mem key (l1_access_times c) = true)
    by (rewrite <- (dict_mem_keys key _ _ (proj1 Hc)); exact Hmem).
  destruct (dict_pop_mem _ _ Hmem') as (t0 & _ & Hpop').
  rewrite Hpop, Hpop'. run_steps.
  set (c1 := with_clock_reads _ _).
  assert (H1 : consistent c1) by (subst c1; finish_consistent).
  clearbody c1.
  destruct (_ <? _)%Z.
  - destruct (_ensure_l2_space_consistent c1 H1) as ([] & c2 & -> & H2).
    do 2 eexists. split; [reflexivity|]. finish_consistent.
  - do 2 eexists. split; [reflexivity|]. finish_consistent.
Qed.

Lemma _evict_l1_to_l2_consistent evict_count :
  triple (@consistent V) (_evict_l1_to_l2 clock evict_count)
         (fun _ => consistent).
Proof.
  unfold _evict_l1_to_l2. apply triple_read. intros c0 H0.
  eapply triple_weaken with (P' := consistent) (Q' := fun _ => consistent);
    [|intros c ->; exact H0|auto].
  apply triple_for_each. intros item _. apply demote_l1_consistent.
Qed.

Lemma _ensure_l1_space_consistent :
  triple (@consistent V) (_ensure_l1_space clock) (fun _ => consistent).
Proof.
  unfold _ensure_l1_space. apply triple_read. intros c0 H0.
  destruct (_ >=? _)%Z.
  - eapply triple_weaken; [apply _evict_l1_to_l2_consistent| |auto].
    now intros c ->.
  - apply triple_ret. now intros c ->.
Qed.

Lemma _promote_to_l1_consistent key (entry : CacheEntry V) :
  triple (@consistent V) (_promote_to_l1 clock key entry) (fun _ => consistent).
Proof.
  unfold _promote_to_l1. intros c Hc.
  destruct (_ensure_l1_space_consistent c Hc) as ([] & c1 & E & H1).
  rewrite (bind_Some _ _ _ _ _ E). run_steps.
  do 2 eexists. split; [reflexivity|]. finish_consistent.
Qed.

Lemma dict_del_Some {A} k (d : dict A) v :
  dict_get k d = Some v -> dict_del k d = Some (dict_remove k d).
Proof. unfold dict_del. now intros ->. Qed.

Lemma dict_del_mem {A} k (d : dict A) :
  dict_mem k d = true -> dict_del k d = Some (dict_remove k d).
Proof.
  unfold dict_mem. destruct (dict_get k d) eqn:E; [|discriminate].
  intros _. exact (dict_del_Some _ _ _ E).
Qed.

Lemma get_l2_consistent key now :
  triple (@consistent V) (get_l2 clock key now) (fun _ => consistent).
Proof.
  unfold get_l2. intros c Hc. unfold bind at 1. unfold gets, id.
  destruct (dict_get key (l2_cache c)) as [entry|] eqn:E.
  - destruct (_ <? _)%Z.
    + destruct (_promote_to_l1_consistent key entry c Hc) as ([] & c1 & E1 & H1).
      rewrite (bind_Some _ _ _ _ _ E1). run_steps.
      do 2 eexists. split; [reflexivity|]. finish_consistent.
    + rewrite (dict_del_Some _ _ _ E). run_steps.
      do 2 eexists. split; [reflexivity|]. finish_consistent.
  - run_steps. do 2 eexists. split; [reflexivity|]. finish_consistent.
Qed.

Lemma get_consistent key :
  triple (@consistent V) (get clock key) (fun _ => consistent).
Proof.
  unfold get. intros c Hc. run_steps.
  set (c1 := with_clock_reads _ c).
  assert (H1 : consistent c1) by (subst c1; finish_consistent).
  change (l1_cache c1) with (l1_cache c).
  destruct (dict_get key (l1_cache c)) as [entry|] eqn:E.
  - destruct (_ <? _)%Z.
    + do 2 eexists. split; [reflexivity|]. subst c1.
      apply dict_get_Some_In in E. destruct Hc as [Hc1 Hc2].
      split; cbn; [|exact Hc2].
      rewrite keys_dict_set, key_set_present; [exact Hc1|now rewrite <- Hc1].
    + change (l1_cache c1) with (l1_cache c).
      rewrite (dict_del_Some _ _ _ E).
      apply get_l2_consistent. subst c1. finish_consistent.
  - now apply get_l2_consistent.
Qed.

Lemma set_consistent key (v : V) ttl :
  triple (@consistent V) (set clock key v ttl) (fun _ => consistent).
Proof.
  unfold set. intros c Hc. run_steps.
  set (c1 := with_clock_reads _ c).
  assert (H1 : consistent c1) by (subst c1; finish_consistent).
  destruct (_ensure_l1_space_consistent c1 H1) as ([] & c2 & -> & H2).
  do 2 eexists. split; [reflexivity|]. finish_consistent.
Qed.

Lemma invalidate_key_consistent key n :
  triple (@consistent V) (invalidate_key key n) (fun _ => consistent).
Proof.
  unfold invalidate_key. intros c Hc. unfold bind at 1. unfold gets, id.
  assert (exists n1 c1,
    (if dict_mem key (l1_cache c)
     then l1 <- or_raise (dict_del key (l1_cache c));;
          modify (with_l1_cache l1);;;
          modify (fun c => with_l1_access_times
                             (dict_remove key (l1_access_times c)) c);;;
          ret (n + 1)
     else ret n) c = Some (n1, c1) /\ consistent c1) as (n1 & c1 & E1 & H1).
  { destruct (dict_mem key (l1_cache c)) eqn:Hm.
    - rewrite (dict_del_mem _ _ Hm). run_steps.
      do 2 eexists. split; [reflexivity|]. finish_consistent.
    - now exists n, c. }
  rewrite (bind_Some _ _ _ _ _ E1). unfold bind at 1. unfold gets, id.
  destruct (dict_mem key (l2_cache c1)) eqn:Hm.
  - rewrite (dict_del_mem _ _ Hm). run_steps.
    do 2 eexists. split; [reflexivity|]. finish_consistent.
  - now exists n1, c1.
Qed.

Lemma invalidate_match_consistent key n :
  triple (@consistent V) (invalidate_match key n) (fun _ => consistent).
Proof.
  unfold invalidate_match. intros c Hc. run_steps.
  do 2 eexists. split; [reflexivity|]. finish_consistent.
Qed.

Lemma invalidate_consistent pattern ks :
  triple (@consistent V) (invalidate pattern ks) (fun _ => consistent).
Proof.
  unfold invalidate, invalidate_entries.
  eapply triple_bind with (R := fun _ => consistent).
  - destruct (truthy_list ks).
    + apply triple_for_count. intros. apply invalidate_key_consistent.
    + destruct (truthy_str pattern); [|now apply triple_ret].
      apply triple_read. intros c0 H0.
      eapply triple_weaken with (P' := consistent) (Q' := fun _ => consistent);
        [|intros c ->; exact H0|auto].
      apply triple_for_count. intros. apply invalidate_match_consistent.
  - intros n c Hc. run_steps.
    do 2 eexists. split; [reflexivity|]. finish_consistent.
Qed.

Lemma run_op_consistent (o : op V) :
  triple (@consistent V) (run_op clock o) (fun _ => consistent).
Proof.
  destruct o as [key|key v ttl|pattern ks]; simpl.
  - eapply triple_bind; [apply get_consistent|].
    intros ?. now apply triple_ret.
  - apply set_consistent.
  - eapply triple_bind; [apply invalidate_consistent|].
    intros ?. now apply triple_ret.
Qed.

Lemma run_ops_consistent (os : list (op V)) :
  triple (@consistent V) (run_ops clock os) (fun _ => consistent).
Proof.
  induction os as [|o os IH]; simpl.
  - now apply triple_ret.
  - eapply triple_bind; [apply run_op_consistent|]. intros ?. exact IH.
Qed.

Lemma init_consistent l1 l2 ttl : consistent (@init V l1 l2 ttl).
Proof. split; reflexivity. Qed.

End Consistency.

(** ** Tier map consistency *)

(** C9 (tier map consistency): every finite sequence of [get], [set] and
    [invalidate] calls on a fresh cache runs to completion without raising,
    and in the state it leaves the entry map and the access-time map of
    each tier hold exactly the same keys (even in the same order). *)
Theorem tier_maps_consistent {V} (clock : nat -> Z) (l1 l2 ttl : Z)
        (os : list (op V)) :
  exists c, run_ops clock os (init l1 l2 ttl) = Some (tt, c)
            /\ keys (l1_cache c) = keys (l1_access_times c)
            /\ keys (l2_cache c) = keys (l2_access_times c).
Proof.
  destruct (run_ops_consistent clock os _ (init_consistent l1 l2 ttl))
    as ([] & c & E & H).
  exists c. split; [exact E|exact H].
Qed.

(** ** Statistics *)

Lemma py_truediv_max (a b : nat) :
  a <= b ->
  exists q, py_truediv (Z.of_nat a) (Z.max (Z.of_nat b) 1) = Some q
            /\ (q == ratio_or_zero a b)%Q.
Proof.
  intro Hab. unfold py_truediv, ratio_or_zero.
  destruct (Z.eqb_spec (Z.max (Z.of_nat b) 1) 0) as [E|_]; [lia|].
  eexists. split; [reflexivity|].
  destruct (Nat.eqb_spec b 0) as [->|Hb].
  - assert (a = 0) as -> by lia. reflexivity.
  - rewrite Z.max_l by lia. reflexivity.
Qed.

(** C7 (statistics hit rates): [get_stats] never raises and reports
    l1_hit_rate = l1_hits / (l1_hits + l1_misses), l2_hit_rate likewise, and
    total_hit_rate = (l1_hits + l2_hits) / (all four counters), each ratio
    being 0 when its denominator is 0; with 3 hot hits and 1 hot miss the hot
    hit rate is 3/4 = 0.75. *)
Theorem get_stats_hit_rates {V} (c : MultiLevelCache V) :
  (exists snap,
      get_stats c = Some snap
      /\ (l1_hit_rate snap ==
          ratio_or_zero (l1_hits (stats c))
                        (l1_hits (stats c) + l1_misses (stats c)))%Q
      /\ (l2_hit_rate snap ==
          ratio_or_zero (l2_hits (stats c))
                        (l2_hits (stats c) + l2_misses (stats c)))%Q
      /\ (total_hit_rate snap ==
          ratio_or_zero (l1_hits (stats c) + l2_hits (stats c))
                        (l1_hits (stats c) + l1_misses (stats c)
                         + l2_hits (stats c) + l2_misses (stats c)))%Q)
  /\ (forall h2 m2 e i,
         exists snap,
           get_stats (with_stats (mkStats 3 1 h2 m2 e i) c) = Some snap
           /\ (l1_hit_rate snap == 75 # 100)%Q).
Proof.
  split.
  - unfold get_stats. destruct (stats c) as [h1 m1 h2 m2 e i]. cbn [l1_hits l1_misses l2_hits l2_misses].
    rewrite <- !Nat2Z.inj_add.
    destruct (py_truediv_max h1 (h1 + m1)) as (q1 & -> & E1); [lia|].
    destruct (py_truediv_max h2 (h2 + m2)) as (q2 & -> & E2); [lia|].
    destruct (py_truediv_max (h1 + h2) (h1 + m1 + h2 + m2))
      as (q3 & -> & E3); [lia|].
    eexists. split; [reflexivity|]. cbn. auto.
  - intros h2 m2 e i. unfold get_stats.
    cbn [stats with_stats l1_hits l1_misses l2_hits l2_misses].
    rewrite <- !Nat2Z.inj_add.
    destruct (py_truediv_max 3 (3 + 1)) as (q1 & -> & E1); [lia|].
    destruct (py_truediv_max h2 (h2 + m2)) as (q2 & -> & E2); [lia|].
    destruct (py_truediv_max (3 + h2) (3 + 1 + h2 + m2))
      as (q3 & -> & E3); [lia|].
    eexists. split; [reflexivity|]. cbn [l1_hit_rate]. rewrite E1. reflexivity.
Qed.

(** ** Invalidation *)

Section Invalidate.

Context {V : Type}.
Abbreviation State := (MultiLevelCache V).
Implicit Types (c : State).

Lemma str_contains_empty key : str_contains "" key = true.
Proof. destruct key; reflexivity. Qed.

Lemma dict_mem_remove_neq {A} k k' (d : dict A) :
  k <> k' -> dict_mem k' (dict_remove k d) = dict_mem k' d.
Proof. intro H. unfold dict_mem. now rewrite dict_get_remove_neq. Qed.

Lemma dict_remove_not_mem {A} k (d : dict A) :
  dict_mem k d = false -> dict_remove k d = d.
Proof.
  unfold dict_mem. intro H. apply dict_remove_absent.
  destruct (dict_get k d); [discriminate|reflexivity].
Qed.

Lemma invalidate_key_spec key n c :
  exists c',
    invalidate_key key n c = Some (n + tier_hits c key, c')
    /\ l1_cache c' = dict_remove key (l1_cache c)
    /\ l2_cache c' = dict_remove key (l2_cache c)
    /\ stats c' = stats c.
Proof.
  unfold invalidate_key, tier_hits. unfold bind at 1. unfold gets, id.
  destruct (dict_mem key (l1_cache c)) eqn:H1.
  - rewrite (dict_del_mem _ _ H1). run_steps.
    destruct (dict_mem key (l2_cache c)) eqn:H2.
    + rewrite (dict_del_mem _ _ H2). cbn.
      eexists. split; [f_equal; f_equal; lia|]. cbn. auto.
    + eexists. split; [f_equal; f_equal; cbn; lia|]. cbn.
      now rewrite (dict_remove_not_mem _ _ H2).
  - run_steps. destruct (dict_mem key (l2_cache c)) eqn:H2.
    + rewrite (dict_del_mem _ _ H2). cbn.
      eexists. split; [f_equal; f_equal; lia|]. cbn.
      now rewrite (dict_remove_not_mem _ _ H1).
    + eexists. split; [f_equal; f_equal; cbn; lia|].
      now rewrite (dict_remove_not_mem _ _ H1), (dict_remove_not_mem _ _ H2).
Qed.

Lemma tier_hits_remove_neq c c' k k' :
  k <> k' ->
  l1_cache c' = dict_remove k (l1_cache c) ->
  l2_cache c' = dict_remove k (l2_cache c) ->
  tier_hits c' k' = tier_hits c k'.
Proof.
  intros Hne E1 E2. unfold tier_hits.
  now rewrite E1, E2, !dict_mem_remove_neq.
Qed.

Lemma dict_mem_remove_eq {A} k (d : dict A) :
  dict_mem k (dict_remove k d) = false.
Proof. unfold dict_mem. now rewrite dict_get_remove_eq. Qed.

Lemma tier_hits_removed c c' k :
  l1_cache c' = dict_remove k (l1_cache c) ->
  l2_cache c' = dict_remove k (l2_cache c) ->
  tier_hits c' k = 0.
Proof.
  intros E1 E2. unfold tier_hits. now rewrite E1, E2, !dict_mem_remove_eq.
Qed.

(** Removing [k] from both tiers takes exactly the contribution of [k]
    out of a sum over distinct keys. *)
Lemma tier_hits_sum_remove c c' k (l : list string) :
  l1_cache c' = dict_remove k (l1_cache c) ->
  l2_cache c' = dict_remove k (l2_cache c) ->
  NoDup l ->
  list_sum (map (tier_hits c) l)
  = list_sum (map (tier_hits c') l)
    + (if in_dec string_dec k l then tier_hits c k else 0).
Proof.
  intros E1 E2. induction 1 as [|k' l Hk' Hd IH]; [reflexivity|].
  cbn [map list_sum fold_right]. fold (list_sum (map (tier_hits c) l)).
  fold (list_sum (map (tier_hits c') l)). rewrite IH.
  destruct (string_dec k' k) as [->|Hne].
  - rewrite (tier_hits_removed c c' k E1 E2).
    destruct (in_dec string_dec k (k :: l)) as [_|Hn]; [|elim Hn; now left].
    destruct (in_dec string_dec k l); [contradiction|lia].
  - rewrite (tier_hits_remove_neq c c' k k') by auto.
    destruct (in_dec string_dec k l) as [Hin|Hn];
      destruct (in_dec string_dec k (k' :: l)) as [Hin'|Hn']; try lia.
    + elim Hn'. now right.
    + destruct Hin'; [congruence|contradiction].
Qed.

(** The exact-key loop counts one per tier removal: each key of the list
    counts once, by the number of tiers that held it at call time. *)
Lemma exact_keys_count (ks : list string) :
  forall n c,
  exists c',
    for_count ks invalidate_key n c
    = Some (n + list_sum (map (tier_hits c) (nodup string_dec ks)), c')
    /\ stats c' = stats c.
Proof.
  induction ks as [|k ks IH]; intros n c.
  - exists c. split; [cbn; unfold ret; f_equal; f_equal; lia|reflexivity].
  - cbn [for_count].
    destruct (invalidate_key_spec k n c) as (c1 & E & H1 & H2 & Hs).
    rewrite (bind_Some _ _ _ _ _ E).
    destruct (IH (n + tier_hits c k) c1) as (c' & E' & Hs').
    exists c'. split; [|congruence].
    rewrite E'. f_equal. f_equal. rewrite <- Nat.add_assoc. f_equal.
    pose proof (tier_hits_sum_remove c c1 k (nodup string_dec ks) H1 H2
                  (NoDup_nodup string_dec ks)) as Hsum.
    cbn [nodup].
    destruct (in_dec string_dec k ks) as [Hin|Hn].
    + destruct (in_dec string_dec k (nodup string_dec ks)) as [_|Hn'];
        [lia|elim Hn'; now apply nodup_In].
    + destruct (in_dec string_dec k (nodup string_dec ks)) as [Hin'|_];
        [apply nodup_In in Hin'; contradiction|].
      cbn [map list_sum fold_right].
      fold (list_sum (map (tier_hits c) (nodup string_dec ks))). lia.
Qed.

Lemma invalidate_entries_keep_stats pattern ks (st : Stats) :
  triple (fun c : State => stats c = st) (invalidate_entries pattern ks)
         (fun _ c => stats c = st).
Proof.
  set (I := fun c : State => stats c = st).
  unfold invalidate_entries.
  destruct (truthy_list ks).
  - apply triple_for_count. intros k m _ c0 H0.
    destruct (invalidate_key_spec k m c0) as (c1 & E & _ & _ & Hs).
    do 2 eexists. split; [exact E|]. unfold I in *. congruence.
  - destruct (truthy_str pattern); [|now apply triple_ret].
    apply triple_read. intros c0 H0.
    eapply triple_weaken with (P' := I) (Q' := fun _ => I);
      [|intros c1 ->; exact H0|auto].
    apply triple_for_count. intros k m _ c1 H1.
    unfold invalidate_match. run_steps.
    do 2 eexists. split; [reflexivity|]. exact H1.
Qed.

Lemma invalidate_counter pattern ks c :
  exists n c',
    invalidate pattern ks c = Some (n, c')
    /\ invalidations (stats c') = invalidations (stats c) + n.
Proof.
  unfold invalidate.
  destruct (invalidate_entries_keep_stats pattern ks (stats c) c eq_refl)
    as (n & c1 & E & Hs).
  rewrite (bind_Some _ _ _ _ _ E). run_steps.
  do 2 eexists. split; [reflexivity|]. cbn. now rewrite Hs.
Qed.

End Invalidate.

(** C10 (empty-pattern invalidation): [invalidate(pattern="")] without keys
    returns 0 and leaves both tiers (entry maps and access-time maps) as
    they were, although the empty string is a substring of every key. *)
Theorem invalidate_empty_pattern {V} (c : MultiLevelCache V) :
  (forall key, str_contains "" key = true)
  /\ exists c',
      invalidate (Some "") None c = Some (0, c')
      /\ l1_cache c' = l1_cache c
      /\ l1_access_times c' = l1_access_times c
      /\ l2_cache c' = l2_cache c
      /\ l2_access_times c' = l2_access_times c.
Proof.
  split; [exact str_contains_empty|].
  eexists. split; [reflexivity|]. cbn. auto.
Qed.

(** C8, as stated, fails: with [keys=[]] and [pattern="a"] both arguments are
    supplied, yet the empty list is falsy, the pattern branch runs and
    removes the entry "a" (count 1), whereas exact-key mode on an empty list
    removes nothing. *)
Lemma invalidate_empty_keys_runs_pattern :
  let c := state_after ticking_clock [OpSet "a" 1 None] (init 4 4 300) in
  invalidate (Some "a") (Some []) c <> invalidate None (Some []) c
  /\ option_map fst (invalidate (Some "a") (Some []) c) = Some 1
  /\ option_map (fun r => keys (l1_cache (snd r)))
                (invalidate (Some "a") (Some []) c) = Some []
  /\ option_map (fun r => keys (l1_cache (snd r)))
                (invalidate None (Some []) c) = Some ["a"].
Proof.
  vm_compute. repeat split; discriminate.
Qed.

(** C8 (invalidate argument contract, amended): with neither argument
    supplied nothing is removed and 0 is returned; with a non-empty key list
    supplied the pattern is ignored; in exact-key mode the count is the
    number of tier removals, each listed key counting by the number of tiers
    that hold it at call time, so a key held by both tiers counts 2; and
    whatever the arguments, the call does not raise and the global
    invalidation counter grows by exactly the returned count. *)
Theorem invalidate_argument_contract {V} (c : MultiLevelCache V)
        (pattern : option string) (k : string) (ks : list string) :
  (exists c',
      invalidate None None c = Some (0, c')
      /\ l1_cache c' = l1_cache c /\ l1_access_times c' = l1_access_times c
      /\ l2_cache c' = l2_cache c /\ l2_access_times c' = l2_access_times c)
  /\ invalidate pattern (Some (k :: ks)) c = invalidate None (Some (k :: ks)) c
  /\ (exists c',
         invalidate pattern (Some (k :: ks)) c
         = Some (list_sum (map (tier_hits c) (nodup string_dec (k :: ks))), c'))
  /\ (dict_mem k (l1_cache c) = true -> dict_mem k (l2_cache c) = true ->
      tier_hits c k = 2)
  /\ (forall pattern' ks',
         exists n c',
           invalidate pattern' ks' c = Some (n, c')
           /\ invalidations (stats c') = invalidations (stats c) + n).
Proof.
  split; [|split; [|split; [|split]]].
  - eexists. split; [reflexivity|]. cbn. auto.
  - reflexivity.
  - unfold invalidate, invalidate_entries. cbn [truthy_list].
    destruct (exact_keys_count (k :: ks) 0 c) as (c1 & E & _).
    rewrite (bind_Some _ _ _ _ _ E). eexists. reflexivity.
  - intros H1 H2. unfold tier_hits. now rewrite H1, H2.
  - intros pattern' ks'. apply invalidate_counter.
Qed.

Lemma invalidate_argument_contract_witness :
  let c := state_after ticking_clock
             [OpSet "a" 1 None; OpSet "b" 2 None; OpSet "c" 3 None;
              OpSet "d" 4 None; OpSet "e" 5 None; OpSet "a" 6 None]
             (init 4 4 300) in
  dict_mem "a" (l1_cache c) = true
  /\ dict_mem "a" (l2_cache c) = true
  /\ tier_hits c "a" = 2
  /\ option_map fst (invalidate (Some "zz") (Some ["a"; "e"; "a"]) c) = Some 3.
Proof.
  intro c.
  destruct (invalidate_argument_contract c (Some "zz") "a" ["e"; "a"])
    as (_ & _ & (c' & E) & H2 & _).
  split; [reflexivity|]. split; [reflexivity|].
  split; [apply H2; reflexivity|].
  rewrite E. reflexivity.
Defined.

(** ** Lookups *)

Section Lookups.

Context {V : Type}.
Variable clock : nat -> Z.
Implicit Types (c : MultiLevelCache V).

(** A promotion stores the very entry it was given in the hot tier, drops
    the key from the warm tier, and stamps it with its own clock reading,
    the last one taken. *)
Lemma _promote_to_l1_spec key (entry : CacheEntry V) c :
  consistent c ->
  exists c',
    _promote_to_l1 clock key entry c = Some (tt, c')
    /\ dict_get key (l1_cache c') = Some entry
    /\ dict_get key (l2_cache c') = None
    /\ dict_get key (l2_access_times c') = None
    /\ dict_get key (l1_access_times c')
       = Some (clock (Nat.pred (clock_reads c')))
    /\ consistent c'.
Proof.
  intro Hc. unfold _promote_to_l1.
  destruct (_ensure_l1_space_consistent clock c Hc) as ([] & c1 & E & H1).
  rewrite (bind_Some _ _ _ _ _ E). run_steps.
  eexists. split; [reflexivity|]. state_simpl. cbn [Nat.pred].
  rewrite !dict_get_set_eq, !dict_get_remove_eq. repeat split; try reflexivity.
  all: unfold consistent in *; state_simpl;
    rewrite ?keys_dict_set, ?keys_dict_remove; intuition congruence.
Qed.

(** A hot-tier hit: the live entry answers and stays where it is. *)
Lemma get_l1_hit key (entry : CacheEntry V) c :
  dict_get key (l1_cache c) = Some entry ->
  (clock (clock_reads c) < expires_at entry)%Z ->
  exists c',
    get clock key c = Some (Some (value entry), c')
    /\ l1_cache c' = l1_cache c
    /\ l2_cache c' = l2_cache c
    /\ dict_get key (l1_access_times c') = Some (clock (clock_reads c)).
Proof.
  intros E Hlive. unfold get. run_steps. rewrite E.
  apply Z.ltb_lt in Hlive. rewrite Hlive. run_steps.
  eexists. split; [reflexivity|]. state_simpl.
  now rewrite dict_get_set_eq.
Qed.

(** When the hot tier has no live entry for the key, [get] continues with
    the warm tier on a state whose hot tier has dropped the key. *)
Lemma get_l1_pass key c :
  consistent c ->
  match dict_get key (l1_cache c) with
  | Some e1 => (expires_at e1 <= clock (clock_reads c))%Z
  | None => True
  end ->
  exists c1,
    get clock key c = get_l2 clock key (clock (clock_reads c)) c1
    /\ consistent c1
    /\ l2_cache c1 = l2_cache c
    /\ dict_get key (l1_cache c1) = None.
Proof.
  intros Hc Hl1. unfold get. run_steps.
  destruct (dict_get key (l1_cache c)) as [e1|] eqn:E.
  - apply Z.ltb_ge in Hl1. rewrite Hl1.
    rewrite (dict_del_Some _ _ _ E). state_simpl.
    eexists. split; [reflexivity|]. state_simpl.
    split; [|split; [reflexivity|apply dict_get_remove_eq]].
    unfold consistent in *; state_simpl;
      rewrite ?keys_dict_set, ?keys_dict_remove; intuition congruence.
  - eexists. split; [reflexivity|]. state_simpl.
    split; [|split; [reflexivity|exact E]].
    unfold consistent in *; state_simpl. exact Hc.
Qed.

End Lookups.

(** C6 (promotion preserves value and original expiry): when [get] finds no
    live entry for the key in the hot tier and a live one in the warm tier,
    it returns that entry's value, the hot tier then holds the same entry
    (same [expires_at]), the warm tier no longer holds the key, and the
    key's access time is the latest clock reading; a following [get] taken
    before that expiry returns the same value from the same entry. *)
Theorem promotion_preserves_entry {V} (clock : nat -> Z)
        (c : MultiLevelCache V) (key : string) (entry : CacheEntry V) :
  consistent c ->
  match dict_get key (l1_cache c) with
  | Some e1 => (expires_at e1 <= clock (clock_reads c))%Z
  | None => True
  end ->
  dict_get key (l2_cache c) = Some entry ->
  (clock (clock_reads c) < expires_at entry)%Z ->
  exists c',
    get clock key c = Some (Some (value entry), c')
    /\ dict_get key (l1_cache c') = Some entry
    /\ dict_get key (l2_cache c') = None
    /\ dict_get key (l2_access_times c') = None
    /\ dict_get key (l1_access_times c')
       = Some (clock (Nat.pred (clock_reads c')))
    /\ ((clock (clock_reads c') < expires_at entry)%Z ->
        exists c'',
          get clock key c' = Some (Some (value entry), c'')
          /\ dict_get key (l1_cache c'') = Some entry
          /\ dict_get key (l2_cache c'') = None).
Proof.
  intros Hc Hl1 Hl2 Hlive.
  destruct (get_l1_pass clock key c Hc Hl1) as (c1 & -> & Hc1 & E2 & _).
  unfold get_l2. unfold bind at 1. unfold gets, id.
  rewrite E2, Hl2. apply Z.ltb_lt in Hlive. rewrite Hlive.
  destruct (_promote_to_l1_spec clock key entry c1 Hc1)
    as (c2 & E & G1 & G2 & G3 & G4 & _).
  rewrite (bind_Some _ _ _ _ _ E).
  cbv [bind modify ret]. eexists. split; [reflexivity|]. state_simpl.
  repeat split; try assumption.
  intro Hlive2.
  destruct (get_l1_hit clock key entry (with_stats (incr_l2_hits (stats c2)) c2))
    as (c3 & E3 & K1 & K2 & _); [exact G1|exact Hlive2|].
  exists c3. split; [exact E3|]. rewrite K1, K2. state_simpl. auto.
Qed.

Lemma promotion_preserves_entry_witness :
  let c := state_after ticking_clock
             [OpSet "a" 1 None; OpSet "b" 2 None; OpSet "c" 3 None;
              OpSet "d" 4 None; OpSet "e" 5 None] (init 4 4 300) in
  dict_get "a" (l2_cache c) = Some (mkEntry 1 300 0 1)
  /\ option_map fst (get ticking_clock "a" c) = Some (Some 1).
Proof.
  intro c.
  assert (H2 : dict_get "a" (l2_cache c) = Some (mkEntry 1 300%Z 0%Z 1))
    by reflexivity.
  split; [exact H2|].
  destruct (promotion_preserves_entry ticking_clock c "a" _
              (conj eq_refl eq_refl) I H2 eq_refl) as (c' & E & _).
  rewrite E. reflexivity.
Defined.

(** ** Expiry *)

Section Expiry.

Context {V : Type}.
Variable clock : nat -> Z.
Implicit Types (c : MultiLevelCache V).

(** [set] leaves a fresh entry for the key in the hot tier. *)
Lemma set_spec key (v : V) ttl c :
  consistent c ->
  exists c1,
    set clock key v ttl c = Some (tt, c1)
    /\ dict_get key (l1_cache c1)
       = Some (mkEntry v (clock (clock_reads c) + py_or ttl (default_ttl c))
                       (clock (clock_reads c)) 1)
    /\ dict_get key (l1_access_times c1) = Some (clock (clock_reads c))
    /\ consistent c1.
Proof.
  intro Hc. unfold set. run_steps.
  set (c0 := with_clock_reads _ c).
  assert (H0 : consistent c0) by exact Hc.
  destruct (_ensure_l1_space_consistent clock c0 H0) as ([] & c2 & -> & H2).
  eexists. split; [reflexivity|]. state_simpl.
  rewrite !dict_get_set_eq. repeat split; try reflexivity.
  all: unfold consistent in *; state_simpl;
    rewrite ?keys_dict_set; intuition congruence.
Qed.

(** The warm-tier part of [get] answers only from a live warm entry. *)
Lemma get_l2_result key now c r c' :
  get_l2 clock key now c = Some (r, c') ->
  match r with
  | Some v => exists entry, dict_get key (l2_cache c) = Some entry
                            /\ value entry = v /\ (now < expires_at entry)%Z
  | None => True
  end.
Proof.
  unfold get_l2. unfold bind at 1. unfold gets, id.
  destruct (dict_get key (l2_cache c)) as [entry|] eqn:E.
  - destruct (Z.ltb_spec now (expires_at entry)) as [Hlt|Hge].
    + unfold bind at 1. destruct (_promote_to_l1 clock key entry c) as [[[] c1]|];
        [|discriminate].
      run_steps. intro H. injection H as <- _. now exists entry.
    + rewrite (dict_del_Some _ _ _ E). run_steps.
      intro H. injection H as <- _. exact I.
  - run_steps. intro H. injection H as <- _. exact I.
Qed.

(** No stale read: a value returned by [get] is the value of an entry held
    under that key whose expiry lies after the clock reading of the call. *)
Lemma get_returns_live_entry key c v c' :
  get clock key c = Some (Some v, c') ->
  exists entry,
    (dict_get key (l1_cache c) = Some entry
     \/ dict_get key (l2_cache c) = Some entry)
    /\ value entry = v
    /\ (clock (clock_reads c) < expires_at entry)%Z.
Proof.
  unfold get. run_steps.
  destruct (dict_get key (l1_cache c)) as [e1|] eqn:E.
  - destruct (Z.ltb_spec (clock (clock_reads c)) (expires_at e1)) as [Hlt|Hge].
    + intro H. injection H as <- _. exists e1. auto.
    + rewrite (dict_del_Some _ _ _ E). state_simpl. intro H.
      apply get_l2_result in H. destruct H as (entry & H1 & H2 & H3).
      exists entry. state_simpl. auto.
  - intro H. apply get_l2_result in H. destruct H as (entry & H1 & H2 & H3).
    exists entry. state_simpl. auto.
Qed.

(** A warm tier without a live entry for the key makes [get_l2] a miss. *)
Lemma get_l2_miss key now c :
  match dict_get key (l2_cache c) with
  | Some e => (expires_at e <= now)%Z
  | None => True
  end ->
  exists c',
    get_l2 clock key now c = Some (None, c')
    /\ l1_cache c' = l1_cache c
    /\ dict_get key (l2_cache c') = None.
Proof.
  intro H. unfold get_l2. unfold bind at 1. unfold gets, id.
  destruct (dict_get key (l2_cache c)) as [entry|] eqn:E.
  - apply Z.ltb_ge in H. rewrite H. rewrite (dict_del_Some _ _ _ E).
    run_steps. eexists. split; [reflexivity|]. state_simpl.
    split; [reflexivity|apply dict_get_remove_eq].
  - run_steps. eexists. split; [reflexivity|]. state_simpl. auto.
Qed.

(** [set] with a non-zero TTL followed by a [get] taken before the expiry
    returns the value just stored. *)
Lemma set_then_get key (v : V) ttl c :
  consistent c -> ttl <> 0%Z ->
  exists c1,
    set clock key v (Some ttl) c = Some (tt, c1)
    /\ ((clock (clock_reads c1) < clock (clock_reads c) + ttl)%Z ->
        exists c2, get clock key c1 = Some (Some v, c2)).
Proof.
  intros Hc Httl.
  destruct (set_spec key v (Some ttl) c Hc) as (c1 & E & G & _ & _).
  exists c1. split; [exact E|]. intro Hlive.
  cbn [py_or] in G. destruct (Z.eqb_spec ttl 0) as [|_]; [contradiction|].
  destruct (get_l1_hit clock key _ c1 G Hlive) as (c2 & E2 & _).
  now exists c2.
Qed.

(** Once the entry written by [set] has expired, [get] drops it and the
    answer is left to the warm tier; it is a miss when the warm tier has no
    live entry for the key. *)
Lemma set_then_get_expired key (v : V) ttl c :
  consistent c ->
  exists c1,
    set clock key v ttl c = Some (tt, c1)
    /\ ((clock (clock_reads c) + py_or ttl (default_ttl c)
         <= clock (clock_reads c1))%Z ->
        match dict_get key (l2_cache c1) with
        | Some e => (expires_at e <= clock (clock_reads c1))%Z
        | None => True
        end ->
        exists c2,
          get clock key c1 = Some (None, c2)
          /\ dict_get key (l1_cache c2) = None
          /\ dict_get key (l2_cache c2) = None).
Proof.
  intro Hc.
  destruct (set_spec key v ttl c Hc) as (c1 & E & G & _ & Hc1).
  exists c1. split; [exact E|]. intros Hdead Hwarm.
  destruct (get_l1_pass clock key c1 Hc1) as (c2 & -> & _ & E2 & G2).
  { rewrite G. exact Hdead. }
  rewrite <- E2 in Hwarm.
  destruct (get_l2_miss key _ c2 Hwarm) as (c3 & E3 & K1 & K2).
  exists c3. split; [exact E3|]. rewrite K1. auto.
Qed.

End Expiry.

(** C3 (TTL correctness and no stale reads), at an input where the code
    departs from it: "k" is stored with TTL 100, three more keys fill the hot
    tier of capacity 4, and "k" is stored again with TTL 1 at time 4.  That
    [set] first demotes the old entry of "k" to the warm tier and never
    removes it from there.  The [get] at time 7, after the TTL of the second
    [set] has elapsed, is expected to report the key absent; it drops the
    expired hot entry and returns the overwritten value 1 from the warm
    tier. *)
Theorem get_after_ttl_returns_overwritten_value :
  let c := state_after ticking_clock
             [OpSet "k" 1 (Some 100%Z); OpSet "b" 2 None; OpSet "c" 3 None;
              OpSet "d" 4 None; OpSet "k" 7 (Some 1%Z)] (init 4 4 300) in
  dict_get "k" (l1_cache c) = Some (mkEntry 7 5 4 1)
  /\ dict_get "k" (l2_cache c) = Some (mkEntry 1 100 0 1)
  /\ ticking_clock (clock_reads c) = 7%Z
  /\ option_map fst (get ticking_clock "k" c) = Some (Some 1).
Proof. vm_compute. repeat split. Qed.

(** C4, as stated, fails for a TTL of zero: [ttl or default_ttl] replaces
    it by the default of 300, and the next [get] returns the value. *)
Lemma zero_ttl_entry_is_readable :
  let c := state_after ticking_clock [OpSet "k" 1 (Some 0%Z)] (init 4 4 300) in
  dict_get "k" (l1_cache c) = Some (mkEntry 1 300 0 1)
  /\ option_map fst (get ticking_clock "k" c) = Some (Some 1).
Proof. vm_compute. split; reflexivity. Qed.

(** C4 (zero or negative TTL, amended): a negative TTL makes the entry
    expired from the start: provided the clock has not run backwards since
    the [set], the next [get] drops it from the hot tier and reports the key
    absent whenever the warm tier holds no live entry for it.  A TTL of zero
    is not stored as such: [set] treats it as no TTL given and applies the
    default. *)
Theorem negative_ttl_is_expired {V} (clock : nat -> Z) (c : MultiLevelCache V)
        (key : string) (v : V) (ttl : Z) :
  consistent c ->
  (ttl < 0)%Z ->
  (exists c1,
      set clock key v (Some ttl) c = Some (tt, c1)
      /\ ((clock (clock_reads c) <= clock (clock_reads c1))%Z ->
          match dict_get key (l2_cache c1) with
          | Some e => (expires_at e <= clock (clock_reads c1))%Z
          | None => True
          end ->
          exists c2,
            get clock key c1 = Some (None, c2)
            /\ dict_get key (l1_cache c2) = None
            /\ dict_get key (l2_cache c2) = None))
  /\ set clock key v (Some 0%Z) c = set clock key v None c.
Proof.
  intros Hc Hneg. split; [|reflexivity].
  destruct (set_then_get_expired clock key v (Some ttl) c Hc) as (c1 & E & H).
  exists c1. split; [exact E|]. intros Hmono Hwarm.
  apply H; [|exact Hwarm].
  cbn [py_or]. destruct (Z.eqb_spec ttl 0); lia.
Qed.

Lemma negative_ttl_is_expired_witness :
  let c := init (V:=nat) 4 4 300 in
  (-5 < 0)%Z
  /\ option_map fst
       (get ticking_clock "k"
            (state_after ticking_clock [OpSet "k" 1 (Some (-5)%Z)] c))
     = Some None.
Proof.
  intro c. split; [reflexivity|].
  destruct (negative_ttl_is_expired ticking_clock c "k" 1 (-5)%Z
              (init_consistent 4 4 300) eq_refl) as ((c1 & E & H) & _).
  unfold state_after. cbn [run_ops run_op].
  rewrite (bind_Some _ _ _ _ _ E). cbn [ret].
  assert (E1 : c1 = state_after ticking_clock [OpSet "k" 1 (Some (-5)%Z)] c).
  { unfold state_after. cbn [run_ops run_op].
    rewrite (bind_Some _ _ _ _ _ E). reflexivity. }
  destruct H as (c2 & E2 & _).
  - rewrite E1. vm_compute. discriminate.
  - rewrite E1. exact I.
  - rewrite E2. reflexivity.
Defined.

(** C1 (single-tier membership), at an input where the code departs from
    it: with both capacities 4, five distinct keys are stored, which demotes
    "a" to the warm tier, and "a" is stored again.  [set] writes the hot
    tier only, so "a" ends up in both tiers. *)
Theorem set_leaves_warm_copy :
  let before := state_after ticking_clock
                  [OpSet "a" 1 None; OpSet "b" 2 None; OpSet "c" 3 None;
                   OpSet "d" 4 None; OpSet "e" 5 None] (init 4 4 300) in
  let c := state_after ticking_clock [OpSet "a" 6 None] before in
  dict_mem "a" (l1_cache before) = false
  /\ dict_mem "a" (l2_cache before) = true
  /\ dict_mem "a" (l1_cache c) = true
  /\ dict_mem "a" (l2_cache c) = true
  /\ keys (l1_cache c) = ["c"; "d"; "e"; "a"]
  /\ keys (l2_cache c) = ["a"; "b"].
Proof. vm_compute. repeat split. Qed.

(** C2 (capacity bound), at an input where the code departs from it: with
    a hot capacity of 1 the eviction batch [l1_size // 4] is 0, nothing is
    evicted, and the second [set] leaves two entries in the hot tier. *)
Theorem small_capacity_is_exceeded :
  let c := state_after ticking_clock [OpSet "a" 1 None; OpSet "b" 2 None]
                       (init 1 1 300) in
  l1_size c = 1%Z
  /\ List.length (l1_cache c) = 2
  /\ keys (l1_cache c) = ["a"; "b"]
  /\ evictions (stats c) = 0.
Proof. vm_compute. repeat split. Qed.

(** ** Filling and overflowing the hot tier *)

Lemma dict_set_absent {A} k (v : A) (d : dict A) :
  dict_get k d = None -> dict_set k v d = d ++ [(k, v)].
Proof.
  induction d as [|[k' v'] d IH]; simpl; [reflexivity|].
  destruct (String.eqb k k'); [discriminate|]. intro H. now rewrite IH.
Qed.

Lemma dict_get_app_None {A} k (d d' : dict A) :
  dict_get k (d ++ d') = None <-> dict_get k d = None /\ dict_get k d' = None.
Proof.
  rewrite !dict_get_None. unfold keys. rewrite map_app, in_app_iff. tauto.
Qed.

Lemma sorted_by_time_nondecreasing l :
  nondecreasing l -> sorted_by_time l = l.
Proof.
  induction l as [|x l IH]; simpl; [reflexivity|].
  intros [Hx Hl]. rewrite (IH Hl).
  destruct l as [|y l]; [reflexivity|]. simpl.
  destruct (Z.leb_spec (snd x) (snd y)) as [_|Hgt]; [reflexivity|].
  specialize (Hx y (or_introl eq_refl)). lia.
Qed.

Section Filling.

Context {V : Type}.
Variable clock : nat -> Z.
Implicit Types (c : MultiLevelCache V) (reqs : list (set_request V)).

Lemma keys_fill_entries dttl start reqs :
  keys (fill_entries clock dttl start reqs) = map set_key reqs.
Proof.
  revert start. induction reqs as [|r reqs IH]; intro start;
    [reflexivity|].
  cbn [fill_entries map]. unfold keys in *. cbn [map fst]. now rewrite IH.
Qed.

Lemma keys_fill_times start reqs :
  keys (fill_times clock start reqs) = map set_key reqs.
Proof.
  revert start. induction reqs as [|r reqs IH]; intro start;
    [reflexivity|].
  cbn [fill_times map]. unfold keys in *. cbn [map fst]. now rewrite IH.
Qed.

Lemma fill_times_from start reqs y :
  In y (fill_times clock start reqs) ->
  exists i, start <= i < start + List.length reqs /\ snd y = clock i.
Proof.
  revert start. induction reqs as [|r reqs IH]; intro start; [intros []|].
  cbn [fill_times In List.length]. intros [<-|H].
  - exists start. split; [lia|reflexivity].
  - destruct (IH _ H) as (i & Hi & E). exists i. split; [lia|exact E].
Qed.

Lemma fill_times_nondecreasing start reqs :
  (forall i j, i <= j -> (clock i <= clock j)%Z) ->
  nondecreasing (fill_times clock start reqs).
Proof.
  intro Hmono. revert start.
  induction reqs as [|r reqs IH]; intro start; [exact I|].
  cbn [fill_times nondecreasing]. split; [|apply IH].
  intros y Hy. destruct (fill_times_from _ _ _ Hy) as (i & Hi & ->).
  cbn [snd]. apply Hmono. lia.
Qed.

Lemma fill_entries_expiry dttl start reqs k e :
  In (k, e) (fill_entries clock dttl start reqs) ->
  exists r j, nth_error reqs j = Some r
              /\ expires_at e = (clock (start + j) + py_or (set_ttl r) dttl)%Z.
Proof.
  revert start. induction reqs as [|r reqs IH]; intro start; [intros []|].
  cbn [fill_entries In]. intros [E|H].
  - injection E as _ <-. exists r, 0. rewrite Nat.add_0_r. cbn. auto.
  - destruct (IH _ H) as (r' & j & Hr & E).
    exists r', (S j). split; [exact Hr|].
    now replace (start + S j) with (S start + j) by lia.
Qed.

(** an entry that is unexpired from its writing on was unexpired before *)
Lemma unexpired_until_before dttl reqs last j r i :
  (forall i j, i <= j -> (clock i <= clock j)%Z) ->
  unexpired_until clock dttl reqs last ->
  nth_error reqs j = Some r -> j <= last -> i <= last ->
  (clock i < clock j + py_or (set_ttl r) dttl)%Z.
Proof.
  intros Hmono Hlive Hr Hj Hi. destruct (Nat.le_gt_cases j i) as [Hji|Hij].
  - apply (Hlive j r i Hr). lia.
  - pose proof (Hlive j r j Hr ltac:(lia)).
    pose proof (Hmono i j ltac:(lia)). lia.
Qed.

Lemma unexpired_until_front dttl reqs (r : set_request V) last :
  unexpired_until clock dttl (reqs ++ [r]) last ->
  unexpired_until clock dttl reqs last.
Proof.
  intros H j r0 i Hr Hi. apply (H j r0 i); [|exact Hi].
  rewrite nth_error_app1; [exact Hr|]. apply nth_error_Some. congruence.
Qed.

(** A [set] on a fresh key into a hot tier with room appends to both maps
    and evicts nothing. *)
Lemma set_with_room key (v : V) ttl c :
  (Z.of_nat (List.length (l1_cache c)) < l1_size c)%Z ->
  dict_get key (l1_cache c) = None ->
  dict_get key (l1_access_times c) = None ->
  set clock key v ttl c
  = Some (tt,
          mkCache (l1_size c) (l2_size c) (default_ttl c)
                  (l1_cache c
                   ++ [(key, mkEntry v (clock (clock_reads c)
                                        + py_or ttl (default_ttl c))
                                     (clock (clock_reads c)) 1)])
                  (l1_access_times c ++ [(key, clock (clock_reads c))])
                  (l2_cache c) (l2_access_times c) (stats c)
                  (S (clock_reads c))).
Proof.
  intros Hroom H1 H2. unfold set, _ensure_l1_space. run_steps.
  destruct (Z.geb_spec (Z.of_nat (List.length (l1_cache c))) (l1_size c));
    [lia|].
  run_steps. now rewrite !dict_set_absent.
Qed.

Lemma fill_run reqs c :
  (Z.of_nat (List.length (l1_cache c) + List.length reqs) <= l1_size c)%Z ->
  NoDup (map set_key reqs) ->
  (forall r, In r reqs ->
             dict_get (set_key r) (l1_cache c) = None
             /\ dict_get (set_key r) (l1_access_times c) = None) ->
  run_ops clock (map set_op reqs) c
  = Some (tt,
          mkCache (l1_size c) (l2_size c) (default_ttl c)
                  (l1_cache c
                   ++ fill_entries clock (default_ttl c) (clock_reads c) reqs)
                  (l1_access_times c ++ fill_times clock (clock_reads c) reqs)
                  (l2_cache c) (l2_access_times c) (stats c)
                  (clock_reads c + List.length reqs)).
Proof.
  revert c. induction reqs as [|[[key v] ttl] reqs IH]; intros c Hroom Hnd Hfresh.
  - cbn. rewrite !app_nil_r, Nat.add_0_r. now destruct c.
  - cbn [map run_ops run_op set_op fst snd List.length] in *.
    destruct (Hfresh _ (or_introl eq_refl)) as [F1 F2]. cbn [set_key fst] in F1, F2.
    rewrite (bind_Some _ _ _ _ _ (set_with_room key v ttl c ltac:(lia) F1 F2)).
    inversion Hnd as [|? ? Hk Hnd']; subst.
    rewrite IH; state_simpl.
    + cbn [fill_entries fill_times set_key set_ttl fst snd].
      rewrite <- !app_assoc. cbn [app]. do 3 f_equal. lia.
    + rewrite length_app. cbn [List.length]. lia.
    + exact Hnd'.
    + intros r Hr. rewrite !dict_get_app_None.
      destruct (Hfresh r (or_intror Hr)) as [G1 G2].
      assert (Hne : set_key r <> key).
      { intros E. apply Hk. cbn [set_key fst]. rewrite <- E. now apply in_map. }
      cbn [dict_get]. destruct (String.eqb_spec (set_key r) key); [contradiction|].
      auto.
Qed.

End Filling.

Section Overflow.

Context {V : Type}.
Variable clock : nat -> Z.
Implicit Types (c : MultiLevelCache V) (reqs : list (set_request V)).

Lemma dict_remove_head {A} k (v : A) (d : dict A) :
  ~ In k (keys d) -> dict_remove k ((k, v) :: d) = d.
Proof.
  intro H. cbn [dict_remove]. rewrite String.eqb_refl.
  apply dict_remove_absent. now apply dict_get_None.
Qed.

(** Demoting the live entry at the head of the hot tier into a warm tier
    with room moves it to the end of the warm tier. *)
Lemma demote_l1_head k t (e : CacheEntry V) ents times c :
  l1_cache c = (k, e) :: ents ->
  l1_access_times c = (k, t) :: times ->
  ~ In k (keys ents) -> ~ In k (keys times) ->
  ~ In k (keys (l2_cache c)) -> ~ In k (keys (l2_access_times c)) ->
  (Z.of_nat (List.length (l2_cache c)) < l2_size c)%Z ->
  (clock (clock_reads c) < expires_at e)%Z ->
  demote_l1 clock (k, t) c
  = Some (tt,
          mkCache (l1_size c) (l2_size c) (default_ttl c) ents times
                  (l2_cache c ++ [(k, e)])
                  (l2_access_times c ++ [(k, clock (S (clock_reads c)))])
                  (incr_evictions (stats c)) (S (S (clock_reads c)))).
Proof.
  intros E1 E2 N1 N2 N3 N4 Hroom Hlive.
  unfold demote_l1, _ensure_l2_space, dict_mem, dict_pop. run_steps.
  rewrite E1, E2. cbn [dict_get]. rewrite String.eqb_refl. state_simpl.
  apply Z.ltb_lt in Hlive. rewrite Hlive. state_simpl.
  destruct (Z.geb_spec (Z.of_nat (List.length (l2_cache c))) (l2_size c));
    [lia|].
  state_simpl. rewrite !dict_remove_head by assumption.
  rewrite !dict_set_absent by now apply dict_get_None.
  reflexivity.
Qed.

Lemma demote_loop (items : dict Z) :
  forall (ents : dict (CacheEntry V)) restE restT c,
    keys ents = keys items ->
    l1_cache c = ents ++ restE ->
    l1_access_times c = items ++ restT ->
    NoDup (keys (l1_cache c)) ->
    NoDup (keys (l1_access_times c)) ->
    (forall k, In k (keys items) ->
               ~ In k (keys (l2_cache c))
               /\ ~ In k (keys (l2_access_times c))) ->
    (Z.of_nat (List.length (l2_cache c) + List.length items) <= l2_size c)%Z ->
    (forall k e i, In (k, e) ents ->
                   i < clock_reads c + 2 * List.length items ->
                   (clock i < expires_at e)%Z) ->
    exists c',
      for_each items (demote_l1 clock) c = Some (tt, c')
      /\ l1_cache c' = restE
      /\ l1_access_times c' = restT
      /\ keys (l2_cache c') = keys (l2_cache c) ++ keys items
      /\ keys (l2_access_times c') = keys (l2_access_times c) ++ keys items
      /\ l1_size c' = l1_size c
      /\ clock_reads c' = clock_reads c + 2 * List.length items.
Proof.
  induction items as [|[k t] items IH];
    intros ents restE restT c Hk E1 E2 D1 D2 Hl2 Hroom Hlive.
  - destruct ents; [|discriminate Hk]. cbn in *.
    exists c. rewrite !app_nil_r. repeat split; auto.
  - destruct ents as [|[k' e] ents]; [discriminate Hk|].
    unfold keys in Hk. cbn [map fst] in Hk. injection Hk as -> Hk.
    cbn [app] in E1, E2.
    rewrite E1 in D1. rewrite E2 in D2.
    unfold keys in D1, D2. cbn [map fst] in D1, D2.
    inversion D1 as [|? ? Hn1 D1']; subst.
    inversion D2 as [|? ? Hn2 D2']; subst.
    destruct (Hl2 k) as [L1 L2]; [unfold keys; cbn; now left|].
    cbn [for_each].
    assert (Hroom1 : (Z.of_nat (List.length (l2_cache c)) < l2_size c)%Z)
      by (cbn [List.length] in Hroom; lia).
    assert (Hlive1 : (clock (clock_reads c) < expires_at e)%Z)
      by (apply (Hlive k e); [now left|cbn [List.length]; lia]).
    pose proof (demote_l1_head k t e _ _ c E1 E2 Hn1 Hn2 L1 L2 Hroom1 Hlive1)
      as Hstep.
    rewrite (bind_Some _ _ _ _ _ Hstep).
    match type of Hstep with
    | _ = Some (_, ?c1) =>
        destruct (IH ents restE restT c1)
          as (c' & R & G1 & G2 & G3 & G4 & G5 & G6);
          [exact Hk|reflexivity|reflexivity|exact D1'|exact D2'| | | |]
    end.
    + state_simpl. intros k0 Hk0. unfold keys. rewrite !map_app, !in_app_iff.
      cbn [map fst In].
      assert (k0 <> k).
      { intros ->. apply Hn2. unfold keys in Hk0. rewrite map_app, in_app_iff.
        now left. }
      destruct (Hl2 k0) as [M1 M2]; [unfold keys; cbn; now right|].
      split; intros [H'|[H'|[]]]; congruence || auto.
    + state_simpl. rewrite length_app. cbn [List.length] in *. lia.
    + state_simpl. intros k0 e0 i Hin Hi. apply (Hlive k0 e0); [now right|].
      cbn [List.length]. lia.
    + exists c'. split; [exact R|]. state_simpl.
      rewrite G3, G4, G5, G6. unfold keys. rewrite !map_app. cbn [map fst List.length].
      rewrite <- !app_assoc. cbn [app]. repeat split; auto. lia.
Qed.

(** On a full hot tier whose access times do not decrease along the
    dictionary, [_ensure_l1_space] demotes the leading quarter. *)
Lemma _ensure_l1_space_overflow (items : dict Z) ents restE restT c :
  (l1_size c <= Z.of_nat (List.length (l1_cache c)))%Z ->
  (0 <= l1_size c / 4)%Z ->
  List.length items = Z.to_nat (l1_size c / 4) ->
  nondecreasing (l1_access_times c) ->
  keys ents = keys items ->
  l1_cache c = ents ++ restE ->
  l1_access_times c = items ++ restT ->
  NoDup (keys (l1_cache c)) ->
  NoDup (keys (l1_access_times c)) ->
  (forall k, In k (keys items) ->
             ~ In k (keys (l2_cache c)) /\ ~ In k (keys (l2_access_times c))) ->
  (Z.of_nat (List.length (l2_cache c) + List.length items) <= l2_size c)%Z ->
  (forall k e i, In (k, e) ents ->
                 i < clock_reads c + 2 * List.length items ->
                 (clock i < expires_at e)%Z) ->
  exists c',
    _ensure_l1_space clock c = Some (tt, c')
    /\ l1_cache c' = restE
    /\ l1_access_times c' = restT
    /\ keys (l2_cache c') = keys (l2_cache c) ++ keys items
    /\ keys (l2_access_times c') = keys (l2_access_times c) ++ keys items
    /\ l1_size c' = l1_size c
    /\ clock_reads c' = clock_reads c + 2 * List.length items.
Proof.
  intros Hfull Hq Hlen Hsorted Hk E1 E2 D1 D2 Hl2 Hroom Hlive.
  unfold _ensure_l1_space, _evict_l1_to_l2. run_steps.
  destruct (Z.geb_spec (Z.of_nat (List.length (l1_cache c))) (l1_size c));
    [|lia].
  cbn [py_or]. rewrite (sorted_by_time_nondecreasing _ Hsorted).
  unfold py_slice_to. destruct (Z.leb_spec 0 (l1_size c / 4)); [|lia].
  replace (firstn (Z.to_nat (l1_size c / 4)) (l1_access_times c)) with items.
  - now apply (demote_loop items ents restE restT c).
  - rewrite E2, <- Hlen, firstn_app, firstn_all, Nat.sub_diag.
    cbn [firstn]. now rewrite app_nil_r.
Qed.

Lemma run_ops_app (os os' : list (op V)) c :
  run_ops clock (os ++ os') c
  = match run_ops clock os c with
    | Some (_, c') => run_ops clock os' c'
    | None => None
    end.
Proof.
  revert c. induction os as [|o os IH]; intro c; [reflexivity|].
  cbn [app run_ops]. unfold bind.
  destruct (run_op clock o c) as [[[] c1]|]; [apply IH|reflexivity].
Qed.

End Overflow.

Lemma set_unfold {V} (clock : nat -> Z) key (v : V) ttl (c : MultiLevelCache V) :
  set clock key v ttl c
  = match _ensure_l1_space clock (with_clock_reads (S (clock_reads c)) c) with
    | Some (_, c') =>
        let now := clock (clock_reads c) in
        let entry := mkEntry v (now + py_or ttl (default_ttl c))%Z now 1 in
        Some (tt,
              with_l1_access_times (dict_set key now (l1_access_times c'))
                (with_l1_cache (dict_set key entry (l1_cache c')) c'))
    | None => None
    end.
Proof.
  unfold set. cbv [bind gets id time_time modify]. state_simpl.
  destruct (_ensure_l1_space clock _) as [[[] c']|]; reflexivity.
Qed.

Lemma In_firstn {A} n (l : list A) x : In x (firstn n l) -> In x l.
Proof.
  intro H. rewrite <- (firstn_skipn n l). apply in_or_app. now left.
Qed.

Lemma In_skipn {A} n (l : list A) x : In x (skipn n l) -> In x l.
Proof.
  intro H. rewrite <- (firstn_skipn n l). apply in_or_app. now right.
Qed.

Lemma keys_firstn {A} n (d : dict A) : keys (firstn n d) = firstn n (keys d).
Proof. unfold keys. symmetry. apply firstn_map. Qed.

Lemma keys_skipn {A} n (d : dict A) : keys (skipn n d) = skipn n (keys d).
Proof. unfold keys. symmetry. apply skipn_map. Qed.

(** C5, as stated, fails: with a hot capacity of 8 the batch is a quarter of
    the capacity, two keys, so the ninth [set] demotes k1 and k2; k2 does not
    remain in the hot tier. *)
Lemma capacity_8_demotes_two_keys :
  let c := state_after ticking_clock
             (map (fun k => OpSet k 0 None)
                  ["k1"; "k2"; "k3"; "k4"; "k5"; "k6"; "k7"; "k8"; "k9"])
             (init 8 8 300) in
  keys (l1_cache c) = ["k3"; "k4"; "k5"; "k6"; "k7"; "k8"; "k9"]
  /\ keys (l2_cache c) = ["k1"; "k2"]
  /\ dict_mem "k2" (l1_cache c) = false.
Proof. vm_compute. repeat split. Qed.

(** C5 (LRU eviction order, amended): on a fresh cache with hot capacity
    N >= 4 and warm capacity at least N // 4, under a clock that never runs
    backwards, [set] calls on N+1 distinct keys k1..k(N+1) whose entries
    are all unexpired during the run (each from its writing to the last
    clock reading of the run, reading N + 2 (N // 4)) demote exactly the
    N // 4 least recently touched keys k1..k(N//4) into the warm tier, in
    that order, and leave the others in the hot tier; for 4 <= N <= 7 that
    is k1 alone. *)
Theorem lru_eviction_order {V} (clock : nat -> Z) (N : nat) (l2 dttl : Z)
        (reqs : list (set_request V)) :
  4 <= N ->
  List.length reqs = N + 1 ->
  NoDup (map set_key reqs) ->
  (forall i j, i <= j -> (clock i <= clock j)%Z) ->
  unexpired_until clock dttl reqs (N + 2 * (N / 4)) ->
  (Z.of_nat (N / 4) <= l2)%Z ->
  exists c,
    run_ops clock (map set_op reqs) (init (Z.of_nat N) l2 dttl) = Some (tt, c)
    /\ keys (l1_cache c) = skipn (N / 4) (map set_key reqs)
    /\ keys (l2_cache c) = firstn (N / 4) (map set_key reqs)
    /\ (N < 8 ->
        keys (l1_cache c) = skipn 1 (map set_key reqs)
        /\ keys (l2_cache c) = firstn 1 (map set_key reqs)).
Proof.
  intros HN Hlen Hnd Hmono Hlive Hl2.
  assert (Hq : N / 4 <= N) by (apply Nat.Div0.div_le_upper_bound; lia).
  assert (HqZ : (Z.of_nat N / 4 = Z.of_nat (N / 4))%Z)
    by (now rewrite Nat2Z.inj_div).
  set (q := N / 4) in *.
  destruct (exists_last (l := reqs)) as (front & r & ->).
  { intros ->. cbn in Hlen. lia. }
  rewrite length_app in Hlen. cbn [List.length] in Hlen.
  assert (Hfront : List.length front = N) by lia.
  rewrite map_app in Hnd. cbn [map] in Hnd. apply NoDup_remove in Hnd.
  rewrite app_nil_r in Hnd. destruct Hnd as (Hnd & Hlast).
  cut (exists c,
          run_ops clock (map set_op (front ++ [r])) (init (Z.of_nat N) l2 dttl)
          = Some (tt, c)
          /\ keys (l1_cache c) = skipn q (map set_key (front ++ [r]))
          /\ keys (l2_cache c) = firstn q (map set_key (front ++ [r]))).
  { intros (c & R & G1 & G2). exists c. repeat split; try assumption.
    - replace 1 with q; [exact G1|]. subst q.
      symmetry. apply Nat.div_unique with (r := N - 4); lia.
    - replace 1 with q; [exact G2|]. subst q.
      symmetry. apply Nat.div_unique with (r := N - 4); lia. }
  rewrite (map_app set_op), run_ops_app.
  rewrite fill_run; cbn [init l1_cache l1_access_times l2_cache l2_access_times
                         l1_size l2_size default_ttl stats clock_reads
                         List.length app Nat.add];
    [|lia|exact Hnd|auto].
  cbn [map run_ops run_op set_op]. unfold bind at 1. rewrite set_unfold.
  set (E := fill_entries clock dttl 0 front).
  set (T := fill_times clock 0 front).
  assert (KE : keys E = map set_key front) by apply keys_fill_entries.
  assert (KT : keys T = map set_key front) by apply keys_fill_times.
  assert (LE : List.length E = N).
  { now rewrite <- length_keys, KE, length_map. }
  assert (LT : List.length T = N).
  { now rewrite <- length_keys, KT, length_map. }
  destruct (_ensure_l1_space_overflow clock (firstn q T) (firstn q E)
              (skipn q E) (skipn q T)
              (with_clock_reads (S N)
                 (mkCache (Z.of_nat N) l2 dttl E T [] []
                          (mkStats 0 0 0 0 0 0) N)))
    as (c' & R & G1 & G2 & G3 & _ & _ & _); state_simpl.
  - lia.
  - rewrite HqZ. lia.
  - rewrite HqZ, Nat2Z.id. apply firstn_length_le. lia.
  - apply fill_times_nondecreasing. exact Hmono.
  - now rewrite !keys_firstn, KE, KT.
  - symmetry. apply firstn_skipn.
  - symmetry. apply firstn_skipn.
  - now rewrite KE.
  - now rewrite KT.
  - intros k _. cbn. tauto.
  - cbn [List.length Nat.add]. rewrite firstn_length_le by lia. exact Hl2.
  - intros k e i Hin Hi. apply In_firstn in Hin.
    destruct (fill_entries_expiry clock dttl 0 front k e Hin)
      as (r0 & j & Hr0 & ->).
    rewrite firstn_length_le in Hi by lia.
    assert (j < N) as Hj
      by (rewrite <- Hfront; apply nth_error_Some; congruence).
    apply (unexpired_until_before clock dttl front (N + 2 * q) j r0 i Hmono);
      [|exact Hr0|lia|lia].
    now apply unexpired_until_front with (r := r).
  - rewrite Hfront, R.
    cbv [bind ret]. eexists. split; [reflexivity|]. state_simpl.
    rewrite keys_dict_set, G1, G3, keys_skipn, keys_firstn, KE, KT.
    rewrite map_app, skipn_app, firstn_app, length_map, Hfront.
    replace (q - N) with 0 by lia. cbn [skipn firstn map]. rewrite app_nil_r.
    split; [|reflexivity].
    apply key_set_absent. intro Hin. apply Hlast.
    eapply In_skipn. exact Hin.
Qed.

Lemma lru_eviction_order_witness :
  let clock := fun n => (100 * Z.of_nat n)%Z in
  let reqs : list (set_request nat) :=
    [("k1", 1, None); ("k2", 2, None); ("k3", 3, None); ("k4", 4, None);
     ("k5", 5, Some 300%Z)] in
  NoDup (map set_key reqs)
  /\ unexpired_until clock 1000 reqs (4 + 2 * (4 / 4))
  /\ option_map (fun r => (keys (l1_cache (snd r)), keys (l2_cache (snd r))))
                (run_ops clock (map set_op reqs) (init 4 4 1000))
     = Some (["k2"; "k3"; "k4"; "k5"], ["k1"]).
Proof.
  intros clock reqs.
  assert (Hnd : NoDup (map set_key reqs)).
  { repeat constructor; cbn; intuition discriminate. }
  assert (Hlive : unexpired_until clock 1000 reqs (4 + 2 * (4 / 4))).
  { intros j r i Hr Hi. change (4 + 2 * (4 / 4)) with 6 in Hi.
    unfold clock.
    do 5 (destruct j as [|j];
          [injection Hr as <-; cbn [set_ttl snd py_or Z.eqb]; lia|]).
    destruct j; discriminate Hr. }
  split; [exact Hnd|]. split; [exact Hlive|].
  destruct (lru_eviction_order clock 4 4 1000 reqs)
    as (c & R & G1 & G2 & _).
  - lia.
  - reflexivity.
  - exact Hnd.
  - intros i j Hij. unfold clock. lia.
  - exact Hlive.
  - vm_compute. discriminate.
  - change (Z.of_nat 4) with 4%Z in R. rewrite R. cbn [option_map snd].
    rewrite G1, G2. reflexivity.
Defined.

(** ** Capacity bounds for capacities of at least 4 *)

Lemma In_insert_by_time y x l :
  In y (insert_by_time x l) <-> y = x \/ In y l.
Proof.
  induction l as [|z l IH]; simpl; [intuition congruence|].
  destruct (snd x <=? snd z)%Z; simpl; [intuition congruence|].
  rewrite IH. intuition congruence.
Qed.

Lemma In_sorted_by_time y l : In y (sorted_by_time l) <-> In y l.
Proof.
  induction l as [|x l IH]; simpl; [tauto|].
  rewrite In_insert_by_time, IH. intuition congruence.
Qed.

Lemma length_insert_by_time x l :
  List.length (insert_by_time x l) = S (List.length l).
Proof.
  induction l as [|z l IH]; simpl; [reflexivity|].
  destruct (snd x <=? snd z)%Z; simpl; [reflexivity|now rewrite IH].
Qed.

Lemma length_sorted_by_time l :
  List.length (sorted_by_time l) = List.length l.
Proof.
  induction l as [|x l IH]; simpl; [reflexivity|].
  now rewrite length_insert_by_time, IH.
Qed.

Lemma length_dict_remove_le {A} k (d : dict A) :
  List.length (dict_remove k d) <= List.length d.
Proof.
  rewrite <- !length_keys, keys_dict_remove. apply length_key_remove_le.
Qed.

Lemma length_dict_remove_lt {A} k (d : dict A) :
  In k (keys d) -> List.length (dict_remove k d) < List.length d.
Proof.
  rewrite <- !length_keys, keys_dict_remove. apply length_key_remove_In.
Qed.

Lemma length_dict_set_le {A} k (v : A) (d : dict A) :
  List.length (dict_set k v d) <= S (List.length d).
Proof.
  rewrite <- !length_keys, keys_dict_set. apply length_key_set_le.
Qed.

Lemma length_dict_set_present {A} k (v : A) (d : dict A) :
  In k (keys d) -> List.length (dict_set k v d) = List.length d.
Proof.
  intro H. rewrite <- !length_keys, keys_dict_set. now rewrite key_set_present.
Qed.

Section Capacity.

Context {V : Type}.
Variable clock : nat -> Z.
Variables L1 L2 : Z.
Hypothesis HL1 : (4 <= L1)%Z.
Hypothesis HL2 : (4 <= L2)%Z.
Implicit Types (c : MultiLevelCache V).

Ltac solve_within :=
  unfold within, consistent in *; state_simpl;
  rewrite ?keys_dict_set, ?keys_dict_remove;
  repeat match goal with
         | |- context [List.length (dict_remove ?k ?d)] =>
             lazymatch goal with
             | _ : List.length (dict_remove k d) <= _ |- _ => fail
             | _ => pose proof (length_dict_remove_le k d)
             end
         | |- context [List.length (dict_set ?k ?v ?d)] =>
             lazymatch goal with
             | _ : List.length (dict_set k v d) <= _ |- _ => fail
             | _ => pose proof (length_dict_set_le k v d)
             end
         end;
  intuition (congruence || lia).

Lemma drop_l2_within item a b :
  triple (within L1 L2 a b) (drop_l2 (V:=V) item) (fun _ => within L1 L2 a b).
Proof.
  intros c Hc. unfold drop_l2. run_steps.
  do 2 eexists. split; [reflexivity|]. solve_within.
Qed.

Lemma drop_l2_within_strict item a b c :
  within L1 L2 a (b + 1) c ->
  In (fst item) (keys (l2_cache c)) ->
  exists c', drop_l2 item c = Some (tt, c') /\ within L1 L2 a b c'.
Proof.
  intros Hc Hin. unfold drop_l2. run_steps.
  eexists. split; [reflexivity|].
  pose proof (length_dict_remove_lt _ _ Hin). solve_within.
Qed.

(** After [_ensure_l2_space] the warm tier has room for one more entry. *)
Lemma _ensure_l2_space_within a :
  triple (within L1 L2 a L2) (_ensure_l2_space (V:=V))
         (fun _ => within L1 L2 a (L2 - 1)).
Proof.
  intros c Hc. unfold _ensure_l2_space. unfold bind at 1. unfold gets, id.
  destruct Hc as (S1 & S2 & Hcons & B1 & B2).
  destruct (Z.geb_spec (Z.of_nat (List.length (l2_cache c))) (l2_size c))
    as [Hfull|Hroom].
  - rewrite S2 in *.
    assert (Hlen : List.length (sorted_by_time (l2_access_times c))
                   = List.length (l2_cache c)).
    { rewrite length_sorted_by_time, <- !length_keys.
      now rewrite (proj2 Hcons). }
    unfold py_slice_to.
    destruct (Z.leb_spec 0 (L2 / 4)) as [_|Hneg];
      [|assert (0 <= L2 / 4)%Z by (apply Z.div_pos; lia); lia].
    assert (Hq : (1 <= L2 / 4)%Z)
      by (apply Z.div_le_lower_bound; lia).
    destruct (Z.to_nat (L2 / 4)) as [|q'] eqn:Eq; [lia|].
    destruct (sorted_by_time (l2_access_times c)) as [|x rest] eqn:Es;
      [cbn [List.length] in Hlen; lia|].
    cbn [firstn for_each].
    assert (Hin : In (fst x) (keys (l2_cache c))).
    { rewrite (proj2 Hcons). unfold keys. apply in_map.
      apply In_sorted_by_time. rewrite Es. now left. }
    destruct (drop_l2_within_strict x a (L2 - 1) c) as (c1 & E1 & H1);
      [|exact Hin|].
    { unfold within. replace (L2 - 1 + 1)%Z with L2 by lia. auto. }
    rewrite (bind_Some _ _ _ _ _ E1).
    apply (triple_for_each (within L1 L2 a (L2 - 1))); [|exact H1].
    intros y _. apply drop_l2_within.
  - exists tt, c. split; [reflexivity|]. unfold within. rewrite S2 in *.
    split; [exact S1|]. split; [reflexivity|]. split; [exact Hcons|].
    split; lia.
Qed.

Lemma _ensure_l2_space_keeps_l1 (d : dict (CacheEntry V)) :
  triple (fun c => l1_cache c = d) (_ensure_l2_space (V:=V))
         (fun _ c => l1_cache c = d).
Proof.
  unfold _ensure_l2_space. apply triple_read. intros c0 H0.
  destruct (_ >=? _)%Z.
  - eapply triple_weaken with (P' := fun c => l1_cache c = d)
                              (Q' := fun _ c => l1_cache c = d);
      [|intros c ->; exact H0|auto].
    apply triple_for_each. intros y _ c Hc. unfold drop_l2. run_steps.
    do 2 eexists. split; [reflexivity|]. exact Hc.
  - apply triple_ret. now intros c ->.
Qed.

(** One demotion keeps the bounds and takes its key out of the hot tier. *)
Lemma demote_l1_within item a c :
  within L1 L2 a L2 c ->
  exists c',
    demote_l1 clock item c = Some (tt, c')
    /\ within L1 L2 a L2 c'
    /\ (In (fst item) (keys (l1_cache c)) ->
        List.length (l1_cache c') < List.length (l1_cache c)).
Proof.
  intros Hc. destruct item as [key t]. cbn [fst].
  unfold demote_l1. cbn [fst]. unfold bind at 1. unfold gets, id.
  destruct (dict_mem key (l1_cache c)) eqn:Hmem.
  - destruct (dict_pop_mem _ _ Hmem) as (entry & _ & Hpop).
    assert (Hmem' : dict_mem key (l1_access_times c) = true).
    { destruct Hc as (_ & _ & Hcons & _).
      rewrite <- (dict_mem_keys key _ _ (proj1 Hcons)). exact Hmem. }
    destruct (dict_pop_mem _ _ Hmem') as (t0 & _ & Hpop').
    rewrite Hpop, Hpop'. run_steps.
    apply dict_mem_In in Hmem.
    pose proof (length_dict_remove_lt _ _ Hmem) as Hlt.
    set (c1 := with_clock_reads _ _).
    assert (H1 : within L1 L2 a L2 c1) by (subst c1; solve_within).
    assert (E1 : l1_cache c1 = dict_remove key (l1_cache c)) by reflexivity.
    clearbody c1.
    destruct (_ <? _)%Z.
    + destruct (triple_conj _ _ _ _ _ (_ensure_l2_space_within a)
                  (_ensure_l2_space_keeps_l1 (l1_cache c1)) c1
                  (conj H1 eq_refl)) as ([] & c2 & R & H2 & E2).
      rewrite R. eexists. split; [reflexivity|]. state_simpl.
      split; [|intros _; rewrite E2, E1; exact Hlt].
      replace L2 with (L2 - 1 + 1)%Z at 2 by lia. solve_within.
    + eexists. split; [reflexivity|]. state_simpl.
      split; [solve_within|]. intros _. rewrite E1. exact Hlt.
  - exists c. split; [reflexivity|]. split; [exact Hc|].
    intro Hin. apply dict_mem_In in Hin. congruence.
Qed.

(** After [_ensure_l1_space] the hot tier has room for one more entry. *)
Lemma _ensure_l1_space_within :
  triple (within (V:=V) L1 L2 L1 L2) (_ensure_l1_space clock)
         (fun _ => within L1 L2 (L1 - 1) L2).
Proof.
  intros c Hc. unfold _ensure_l1_space. unfold bind at 1. unfold gets, id.
  pose proof Hc as (S1 & S2 & Hcons & B1 & B2).
  destruct (Z.geb_spec (Z.of_nat (List.length (l1_cache c))) (l1_size c))
    as [Hfull|Hroom].
  - rewrite S1 in Hfull.
    unfold _evict_l1_to_l2. unfold bind at 1. unfold gets, id.
    cbn [py_or]. rewrite S1.
    assert (Hlen : List.length (sorted_by_time (l1_access_times c))
                   = List.length (l1_cache c)).
    { rewrite length_sorted_by_time, <- !length_keys.
      now rewrite (proj1 Hcons). }
    unfold py_slice_to.
    destruct (Z.leb_spec 0 (L1 / 4)) as [_|Hneg];
      [|assert (0 <= L1 / 4)%Z by (apply Z.div_pos; lia); lia].
    assert (Hq : (1 <= L1 / 4)%Z)
      by (apply Z.div_le_lower_bound; lia).
    destruct (Z.to_nat (L1 / 4)) as [|q'] eqn:Eq; [lia|].
    destruct (sorted_by_time (l1_access_times c)) as [|x rest] eqn:Es;
      [cbn [List.length] in Hlen; lia|].
    cbn [firstn for_each].
    assert (Hin : In (fst x) (keys (l1_cache c))).
    { rewrite (proj1 Hcons). unfold keys. apply in_map.
      apply In_sorted_by_time. rewrite Es. now left. }
    destruct (demote_l1_within x L1 c Hc) as (c1 & E1 & H1 & Hlt).
    specialize (Hlt Hin).
    rewrite (bind_Some _ _ _ _ _ E1).
    apply (triple_for_each (within L1 L2 (L1 - 1) L2)).
    + intros y _ c2 H2.
      destruct (demote_l1_within y (L1 - 1) c2 H2) as (c3 & E3 & H3 & _).
      now exists tt, c3.
    + unfold within in *. intuition lia.
  - exists tt, c. split; [reflexivity|]. unfold within in *.
    rewrite S1 in Hroom. intuition lia.
Qed.

Lemma set_within key (v : V) ttl :
  triple (within (V:=V) L1 L2 L1 L2) (set clock key v ttl)
         (fun _ => within L1 L2 L1 L2).
Proof.
  intros c Hc. rewrite set_unfold.
  destruct (_ensure_l1_space_within (with_clock_reads (S (clock_reads c)) c))
    as ([] & c1 & -> & H1); [exact Hc|].
  do 2 eexists. split; [reflexivity|]. cbv zeta. solve_within.
Qed.

Lemma _promote_to_l1_within key (entry : CacheEntry V) :
  triple (within (V:=V) L1 L2 L1 L2) (_promote_to_l1 clock key entry)
         (fun _ => within L1 L2 L1 L2).
Proof.
  intros c Hc. unfold _promote_to_l1.
  destruct (_ensure_l1_space_within c Hc) as ([] & c1 & E & H1).
  rewrite (bind_Some _ _ _ _ _ E). run_steps.
  do 2 eexists. split; [reflexivity|]. solve_within.
Qed.

Lemma get_l2_within key now :
  triple (within (V:=V) L1 L2 L1 L2) (get_l2 clock key now)
         (fun _ => within L1 L2 L1 L2).
Proof.
  unfold get_l2. intros c Hc. unfold bind at 1. unfold gets, id.
  destruct (dict_get key (l2_cache c)) as [entry|] eqn:E.
  - destruct (_ <? _)%Z.
    + destruct (_promote_to_l1_within key entry c Hc) as ([] & c1 & E1 & H1).
      rewrite (bind_Some _ _ _ _ _ E1). run_steps.
      do 2 eexists. split; [reflexivity|]. solve_within.
    + rewrite (dict_del_Some _ _ _ E). run_steps.
      do 2 eexists. split; [reflexivity|]. solve_within.
  - run_steps. do 2 eexists. split; [reflexivity|]. solve_within.
Qed.

Lemma get_within key :
  triple (within (V:=V) L1 L2 L1 L2) (get clock key) (fun _ => within L1 L2 L1 L2).
Proof.
  unfold get. intros c Hc. run_steps.
  set (c1 := with_clock_reads _ c).
  assert (H1 : within L1 L2 L1 L2 c1) by exact Hc.
  change (l1_cache c1) with (l1_cache c).
  destruct (dict_get key (l1_cache c)) as [entry|] eqn:E.
  - destruct (_ <? _)%Z.
    + do 2 eexists. split; [reflexivity|]. subst c1.
      apply dict_get_Some_In in E.
      destruct Hc as (S1 & S2 & [Hc1 Hc2] & B1 & B2).
      unfold within, consistent. state_simpl.
      rewrite keys_dict_set, key_set_present by now rewrite <- Hc1.
      auto.
    + change (l1_cache c1) with (l1_cache c).
      rewrite (dict_del_Some _ _ _ E).
      apply get_l2_within. subst c1. solve_within.
  - now apply get_l2_within.
Qed.

Lemma invalidate_key_within key n :
  triple (within (V:=V) L1 L2 L1 L2) (invalidate_key (V:=V) key n)
         (fun _ => within L1 L2 L1 L2).
Proof.
  intros c Hc.
  destruct (invalidate_key_spec key n c) as (c1 & E & G1 & G2 & _).
  destruct (invalidate_key_consistent clock key n c) as (n' & c1' & E' & Hcons);
    [apply Hc|].
  rewrite E in E'. injection E' as <- <-.
  do 2 eexists. split; [exact E|].
  assert (l1_size c1 = l1_size c /\ l2_size c1 = l2_size c) as [S1 S2].
  { revert E. unfold invalidate_key. unfold bind at 1. unfold gets, id.
    destruct (dict_mem key (l1_cache c)) eqn:M1;
      [rewrite (dict_del_mem _ _ M1)|]; run_steps;
      (destruct (dict_mem key (l2_cache c)) eqn:M2;
       [rewrite (dict_del_mem _ _ M2)|]); state_simpl;
      intro E; injection E as _ <-; auto. }
  unfold within in *. rewrite S1, S2, G1, G2.
  pose proof (length_dict_remove_le key (l1_cache c)).
  pose proof (length_dict_remove_le key (l2_cache c)).
  intuition lia.
Qed.

Lemma invalidate_within pattern ks :
  triple (within (V:=V) L1 L2 L1 L2) (invalidate (V:=V) pattern ks)
         (fun _ => within L1 L2 L1 L2).
Proof.
  unfold invalidate, invalidate_entries.
  eapply triple_bind with (R := fun _ => within L1 L2 L1 L2).
  - destruct (truthy_list ks).
    + apply triple_for_count. intros. apply invalidate_key_within.
    + destruct (truthy_str pattern); [|now apply triple_ret].
      apply triple_read. intros c0 H0.
      eapply triple_weaken with (P' := within L1 L2 L1 L2)
                                (Q' := fun _ => within L1 L2 L1 L2);
        [|intros c ->; exact H0|auto].
      apply triple_for_count. intros k m _ c Hc.
      unfold invalidate_match. run_steps.
      do 2 eexists. split; [reflexivity|]. solve_within.
  - intros n c Hc. run_steps.
    do 2 eexists. split; [reflexivity|]. solve_within.
Qed.

Lemma run_ops_within (os : list (op V)) :
  triple (within (V:=V) L1 L2 L1 L2) (run_ops clock os) (fun _ => within L1 L2 L1 L2).
Proof.
  induction os as [|o os IH]; cbn [run_ops].
  - now apply triple_ret.
  - eapply triple_bind; [|intros ?; exact IH].
    destruct o as [key|key v ttl|pattern ks]; cbn [run_op].
    + eapply triple_bind; [apply get_within|]. intros ?. now apply triple_ret.
    + apply set_within.
    + eapply triple_bind; [apply invalidate_within|].
      intros ?. now apply triple_ret.
Qed.

(** For capacities of at least 4 the bound of C2 does hold: every finite
    run of public operations on a fresh cache completes and leaves at most
    [l1_size] entries in the hot tier and [l2_size] in the warm tier. *)
Lemma capacity_bound_from_4 (ttl : Z) (os : list (op V)) :
  exists c,
    run_ops clock os (init L1 L2 ttl) = Some (tt, c)
    /\ (Z.of_nat (List.length (l1_cache c)) <= L1)%Z
    /\ (Z.of_nat (List.length (l2_cache c)) <= L2)%Z.
Proof.
  destruct (run_ops_within os (init L1 L2 ttl)) as ([] & c & E & H).
  - unfold within. cbn. repeat split; auto; lia.
  - exists c. unfold within in H. intuition.
Qed.

End Capacity.

(** * Further properties of the cache *)

(** ** What a lookup returns *)

Section Visible.

Context {V : Type}.
Variable clock : nat -> Z.
Implicit Types (c : MultiLevelCache V).

Lemma live_value_Some now (d : dict (CacheEntry V)) key v :
  live_value now d key = Some v <->
  exists e, dict_get key d = Some e /\ value e = v /\ (now < expires_at e)%Z.
Proof.
  unfold live_value. destruct (dict_get key d) as [e|].
  - destruct (Z.ltb_spec now (expires_at e)) as [Hlt|Hge].
    + split; [intro Hv; injection Hv as <-; now exists e|].
      intros (e' & E & <- & _). congruence.
    + split; [discriminate|]. intros (e' & E & _ & Hlt).
      injection E as <-. lia.
  - split; [discriminate|]. intros (e' & E & _). discriminate.
Qed.

Lemma live_value_None now (d : dict (CacheEntry V)) key :
  live_value now d key = None <->
  match dict_get key d with
  | Some e => (expires_at e <= now)%Z
  | None => True
  end.
Proof.
  unfold live_value. destruct (dict_get key d) as [e|]; [|tauto].
  destruct (Z.ltb_spec now (expires_at e)); split; try discriminate; auto; lia.
Qed.

(** [get] returns exactly the value the cache offers at the clock reading
    it takes first; a hit leaves the live entry in the hot tier, a miss
    leaves the key in neither tier. *)
Lemma get_visible key c :
  consistent c ->
  exists c',
    get clock key c = Some (visible (clock (clock_reads c)) c key, c')
    /\ consistent c'
    /\ match visible (clock (clock_reads c)) c key with
       | Some v =>
           exists e, dict_get key (l1_cache c') = Some e /\ value e = v
                     /\ (clock (clock_reads c) < expires_at e)%Z
       | None =>
           dict_get key (l1_cache c') = None
           /\ dict_get key (l2_cache c') = None
       end.
Proof.
  intro Hc. set (now := clock (clock_reads c)). unfold visible.
  destruct (live_value now (l1_cache c) key) as [v|] eqn:E1.
  - apply live_value_Some in E1. destruct E1 as (e & E & <- & Hlt).
    destruct (get_l1_hit clock key e c E Hlt) as (c' & R & K1 & K2 & K3).
    destruct (get_consistent clock key c Hc) as (r & c'' & R' & Hc').
    rewrite R in R'. injection R' as <- <-.
    exists c'. split; [exact R|]. split; [exact Hc'|].
    exists e. rewrite K1. auto.
  - apply live_value_None in E1.
    destruct (get_l1_pass clock key c Hc E1) as (c1 & R & Hc1 & E2 & N1).
    rewrite R, <- E2. fold now.
    destruct (live_value now (l2_cache c1) key) as [v|] eqn:E3.
    + apply live_value_Some in E3. destruct E3 as (e & E & <- & Hlt).
      unfold get_l2. unfold bind at 1. unfold gets, id.
      rewrite E. apply Z.ltb_lt in Hlt. rewrite Hlt.
      destruct (_promote_to_l1_spec clock key e c1 Hc1)
        as (c2 & P & G1 & G2 & G3 & G4 & Hc2).
      rewrite (bind_Some _ _ _ _ _ P). cbv [bind modify ret].
      eexists. split; [reflexivity|]. state_simpl.
      split; [exact Hc2|]. exists e. apply Z.ltb_lt in Hlt. auto.
    + apply live_value_None in E3.
      destruct (get_l2_miss clock key now c1 E3) as (c2 & M & K1 & K2).
      destruct (get_l2_consistent clock key now c1 Hc1) as (r & c2' & M' & Hc2).
      rewrite M in M'. injection M' as <- <-.
      exists c2. split; [exact M|]. split; [exact Hc2|].
      rewrite K1. auto.
Qed.

End Visible.

(** X1 (what a lookup returns): on a state whose maps are aligned, [get]
    does not raise and returns the value of the live hot-tier entry of the
    key, else that of its live warm-tier entry, else absent, judged at the
    first clock reading of the call.  After a hit the hot tier holds a live
    entry with the returned value; after a miss neither tier holds the
    key. *)
Theorem get_returns_visible_value {V} (clock : nat -> Z)
        (c : MultiLevelCache V) (key : string) :
  consistent c ->
  exists c',
    get clock key c = Some (visible (clock (clock_reads c)) c key, c')
    /\ match visible (clock (clock_reads c)) c key with
       | Some v =>
           exists e, dict_get key (l1_cache c') = Some e /\ value e = v
                     /\ (clock (clock_reads c) < expires_at e)%Z
       | None =>
           dict_get key (l1_cache c') = None
           /\ dict_get key (l2_cache c') = None
       end.
Proof.
  intro Hc. destruct (get_visible clock key c Hc) as (c' & R & _ & H).
  exists c'. auto.
Qed.

Lemma get_returns_visible_value_witness :
  let c := state_after ticking_clock
             [OpSet "a" 1 None; OpSet "b" 2 None; OpSet "c" 3 None;
              OpSet "d" 4 None; OpSet "e" 5 (Some 1%Z)] (init 4 4 300) in
  consistent c
  /\ option_map fst (get ticking_clock "a" c) = Some (Some 1)
  /\ option_map fst (get ticking_clock "e" c) = Some None
  /\ option_map fst (get ticking_clock "zz" c) = Some None.
Proof.
  intro c.
  assert (Hc : consistent c) by (split; reflexivity).
  split; [exact Hc|].
  destruct (get_returns_visible_value ticking_clock c "a" Hc) as (c1 & R1 & _).
  destruct (get_returns_visible_value ticking_clock c "e" Hc) as (c2 & R2 & _).
  destruct (get_returns_visible_value ticking_clock c "zz" Hc) as (c3 & R3 & _).
  rewrite R1, R2, R3. repeat split.
Defined.

(** X2 (set, then get): on a state whose maps are aligned, [set] does not
    raise, and the next [get] of the key returns the value just stored when
    its clock reading lies before the expiry [now + (ttl or default_ttl)];
    from the expiry on it returns what the warm tier offers for the key. *)
Theorem set_then_get_round_trip {V} (clock : nat -> Z) (c : MultiLevelCache V)
        (key : string) (v : V) (ttl : option Z) :
  consistent c ->
  exists c1 c2,
    set clock key v ttl c = Some (tt, c1)
    /\ get clock key c1
       = Some (if (clock (clock_reads c1)
                   <? clock (clock_reads c) + py_or ttl (default_ttl c))%Z
               then Some v
               else live_value (clock (clock_reads c1)) (l2_cache c1) key,
               c2).
Proof.
  intro Hc.
  destruct (set_spec clock key v ttl c Hc) as (c1 & R & G & _ & Hc1).
  destruct (get_visible clock key c1 Hc1) as (c2 & R2 & _).
  exists c1, c2. split; [exact R|]. rewrite R2. f_equal. f_equal.
  unfold visible, live_value at 1. rewrite G. cbn [expires_at value].
  now destruct (_ <? _)%Z.
Qed.

Lemma set_then_get_round_trip_witness :
  let c := init (V:=nat) 4 4 300 in
  consistent c
  /\ option_map fst
       (get ticking_clock "k"
            (state_after ticking_clock [OpSet "k" 7 None] c))
     = Some (Some 7).
Proof.
  intro c. assert (Hc : consistent c) by (split; reflexivity).
  split; [exact Hc|].
  destruct (set_then_get_round_trip ticking_clock c "k" 7 None Hc)
    as (c1 & c2 & R & G).
  unfold state_after. cbn [run_ops run_op].
  rewrite (bind_Some _ _ _ _ _ R). cbn [ret].
  rewrite G. vm_compute in R. injection R as <-. reflexivity.
Defined.

(** ** Observations that operations leave alone *)

Section Preserves.

Context {V X : Type}.
Variable f : MultiLevelCache V -> X.

Lemma preserves_ret {A} (a : A) : preserves f (ret a).
Proof. intros c a' c' E. injection E as _ <-. reflexivity. Qed.

Lemma preserves_bind {A B} (m : M V A) (k : A -> M V B) :
  preserves f m -> (forall a, preserves f (k a)) -> preserves f (bind m k).
Proof.
  intros Hm Hk c b c'. unfold bind.
  destruct (m c) as [[a c1]|] eqn:E; [|discriminate].
  intro E'. rewrite (Hk a c1 b c' E'). exact (Hm c a c1 E).
Qed.

Lemma preserves_gets {A} (g : MultiLevelCache V -> A) : preserves f (gets g).
Proof. intros c a c' E. injection E as _ <-. reflexivity. Qed.

Lemma preserves_or_raise {A} (o : option A) : preserves f (or_raise o).
Proof.
  intros c a c'. unfold or_raise. destruct o; [|discriminate].
  intro E. injection E as _ <-. reflexivity.
Qed.

Lemma preserves_modify (g : MultiLevelCache V -> MultiLevelCache V) :
  (forall c, f (g c) = f c) -> preserves f (modify g).
Proof. intros H c a c' E. injection E as _ <-. apply H. Qed.

Lemma preserves_time_time clock :
  (forall n c, f (with_clock_reads n c) = f c) ->
  preserves f (time_time clock).
Proof. intros H c a c' E. injection E as _ <-. apply H. Qed.

Lemma preserves_for_each {A} (l : list A) (body : A -> M V unit) :
  (forall x, preserves f (body x)) -> preserves f (for_each l body).
Proof.
  intro H. induction l as [|x l IH]; cbn [for_each].
  - apply preserves_ret.
  - apply preserves_bind; [apply H|intros _; exact IH].
Qed.

Lemma preserves_for_count {A} (l : list A) (body : A -> nat -> M V nat) n :
  (forall x m, preserves f (body x m)) -> preserves f (for_count l body n).
Proof.
  intro H. revert n. induction l as [|x l IH]; intro n; cbn [for_count].
  - apply preserves_ret.
  - apply preserves_bind; [apply H|intros n'; apply IH].
Qed.

End Preserves.

(** break an operation into its steps; what is left are the steps that
    write the state *)
Ltac preserves_steps :=
  repeat first
    [ apply preserves_ret
    | apply preserves_gets
    | apply preserves_or_raise
    | apply preserves_for_each; intros ?
    | apply preserves_for_count; intros ? ?
    | apply preserves_bind; [|intros ?]
    | assumption
    | match goal with
      | |- preserves _ (if ?b then _ else _) => destruct b
      | |- preserves _ (match ?x with _ => _ end) => destruct x
      | |- preserves _ (let _ := _ in _) => cbv zeta
      end
    | apply preserves_modify; intros ?; reflexivity
    | apply preserves_time_time; intros ? ?; reflexivity ].

(** ** Hit and miss counters *)

Section Counters.

Context {V : Type}.
Variable clock : nat -> Z.
Implicit Types (c : MultiLevelCache V).

Let counters c := lookup_counters (stats c).

Lemma drop_l2_counters item : preserves counters (drop_l2 (V:=V) item).
Proof. unfold drop_l2. preserves_steps. Qed.

Lemma _ensure_l2_space_counters : preserves counters (_ensure_l2_space (V:=V)).
Proof.
  pose proof drop_l2_counters. unfold _ensure_l2_space. preserves_steps.
Qed.

Lemma demote_l1_counters item : preserves counters (demote_l1 clock item).
Proof.
  pose proof _ensure_l2_space_counters. unfold demote_l1. preserves_steps.
Qed.

Lemma _ensure_l1_space_counters : preserves counters (_ensure_l1_space clock).
Proof.
  pose proof demote_l1_counters.
  unfold _ensure_l1_space, _evict_l1_to_l2. preserves_steps.
Qed.

Lemma _promote_to_l1_counters key (entry : CacheEntry V) :
  preserves counters (_promote_to_l1 clock key entry).
Proof.
  pose proof _ensure_l1_space_counters. unfold _promote_to_l1.
  preserves_steps.
Qed.

Lemma set_counters key (v : V) ttl : preserves counters (set clock key v ttl).
Proof.
  pose proof _ensure_l1_space_counters. unfold set. preserves_steps.
Qed.

Lemma invalidate_counters pattern ks :
  preserves counters (invalidate (V:=V) pattern ks).
Proof.
  unfold invalidate, invalidate_entries, invalidate_key, invalidate_match.
  preserves_steps.
Qed.

(** A [get] counts one hot hit, or one warm hit, or one miss in each tier. *)
Lemma get_counters key c r c' :
  get clock key c = Some (r, c') ->
  let '(h1, m1, h2, m2) := counters c in
  match r with
  | Some _ => counters c' = (h1 + 1, m1, h2, m2)
              \/ counters c' = (h1, m1, h2 + 1, m2)
  | None => counters c' = (h1, m1 + 1, h2, m2 + 1)
  end.
Proof.
  assert (Hl2 : forall now c0 r0 c0',
             get_l2 clock key now c0 = Some (r0, c0') ->
             let '(h1, m1, h2, m2) := counters c0 in
             match r0 with
             | Some _ => counters c0' = (h1, m1, h2 + 1, m2)
             | None => counters c0' = (h1, m1 + 1, h2, m2 + 1)
             end).
  { intros now c0 r0 c0'. unfold get_l2. unfold bind at 1. unfold gets, id.
    unfold counters, lookup_counters.
    destruct (dict_get key (l2_cache c0)) as [entry|] eqn:E.
    - destruct (_ <? _)%Z.
      + unfold bind at 1.
        destruct (_promote_to_l1 clock key entry c0) as [[[] c1]|] eqn:P;
          [|discriminate].
        apply _promote_to_l1_counters in P. unfold counters, lookup_counters in P.
        injection P as P1 P2 P3 P4.
        run_steps. intro R. injection R as <- <-. state_simpl. cbn.
        congruence.
      + rewrite (dict_del_Some _ _ _ E). run_steps.
        intro R. injection R as <- <-. reflexivity.
    - run_steps. intro R. injection R as <- <-. reflexivity. }
  unfold get. run_steps.
  destruct (dict_get key (l1_cache c)) as [entry|] eqn:E.
  - destruct (_ <? _)%Z.
    + intro R. injection R as <- <-. left. reflexivity.
    + rewrite (dict_del_Some _ _ _ E). state_simpl. intro R.
      apply Hl2 in R. unfold counters in *. state_simpl.
      destruct (lookup_counters (stats c)) as [[[h1 m1] h2] m2].
      destruct r; auto.
  - intro R. apply Hl2 in R. unfold counters in *. state_simpl.
    destruct (lookup_counters (stats c)) as [[[h1 m1] h2] m2].
    destruct r; auto.
Qed.

(** Along a run the two miss counters move together, and hits plus misses
    count the [get] calls. *)
Lemma run_ops_counters (os : list (op V)) c c' :
  run_ops clock os c = Some (tt, c') ->
  l1_misses (stats c) = l2_misses (stats c) ->
  l1_misses (stats c') = l2_misses (stats c')
  /\ l1_hits (stats c') + l2_hits (stats c') + l1_misses (stats c')
     = l1_hits (stats c) + l2_hits (stats c) + l1_misses (stats c)
       + count_gets os.
Proof.
  revert c. induction os as [|o os IH]; intros c R Hm.
  - injection R as <-. cbn. split; [exact Hm|lia].
  - cbn [run_ops] in R. unfold bind at 1 in R.
    destruct (run_op clock o c) as [[[] c1]|] eqn:R1; [|discriminate].
    assert (l1_misses (stats c1) = l2_misses (stats c1)
            /\ l1_hits (stats c1) + l2_hits (stats c1) + l1_misses (stats c1)
               = l1_hits (stats c) + l2_hits (stats c) + l1_misses (stats c)
                 + count_gets [o]) as [Hm1 Hs1].
    { destruct o as [key|key v ttl|pattern ks]; cbn [run_op count_gets] in *.
      - unfold bind in R1.
        destruct (get clock key c) as [[r c2]|] eqn:G; [|discriminate].
        injection R1 as <-. apply get_counters in G.
        unfold counters, lookup_counters in G.
        destruct r; [destruct G as [G|G]|]; injection G as -> -> -> ->; lia.
      - apply set_counters in R1. unfold counters, lookup_counters in R1.
        injection R1 as -> -> -> ->. lia.
      - unfold bind in R1.
        destruct (invalidate pattern ks c) as [[n c2]|] eqn:G; [|discriminate].
        injection R1 as <-. apply invalidate_counters in G.
        unfold counters, lookup_counters in G.
        injection G as -> -> -> ->. lia. }
    destruct (IH c1 R Hm1) as [Hm' Hs'].
    split; [exact Hm'|]. rewrite Hs', Hs1.
    cbn [count_gets]. destruct o; lia.
Qed.

End Counters.

(** X3 (hit and miss accounting): every finite run of public operations on
    a fresh cache completes, and afterwards the two miss counters are equal
    (a lookup that fails counts one miss in each tier) and
    l1_hits + l2_hits + l1_misses is the number of [get] calls of the run;
    [set] and [invalidate] never touch these counters. *)
Theorem lookup_counters_account_for_gets {V} (clock : nat -> Z)
        (l1 l2 ttl : Z) (os : list (op V)) :
  exists c,
    run_ops clock os (init l1 l2 ttl) = Some (tt, c)
    /\ l1_misses (stats c) = l2_misses (stats c)
    /\ l1_hits (stats c) + l2_hits (stats c) + l1_misses (stats c)
       = count_gets os.
Proof.
  destruct (run_ops_consistent clock os _ (init_consistent l1 l2 ttl))
    as ([] & c & R & _).
  exists c. split; [exact R|].
  destruct (run_ops_counters clock os _ _ R eq_refl) as [Hm Hs].
  split; [exact Hm|]. rewrite Hs. reflexivity.
Qed.

(** X4 (what the reported rates measure): after a run on a fresh cache with
    h hits (hot or warm) and m failed lookups, h + m being the number of
    [get] calls, [get_stats] reports total_hit_rate = h / (h + 2m), every
    failed lookup counting twice in the denominator, and
    l1_hit_rate = l1_hits / (l1_hits + m), lookups served by the warm tier
    not counting as hot-tier misses. *)
Theorem reported_rates_count_misses_twice {V} (clock : nat -> Z)
        (l1 l2 ttl : Z) (os : list (op V)) :
  exists c snap,
    run_ops clock os (init l1 l2 ttl) = Some (tt, c)
    /\ get_stats c = Some snap
    /\ l1_hits (stats c) + l2_hits (stats c) + l1_misses (stats c)
       = count_gets os
    /\ (total_hit_rate snap ==
        ratio_or_zero (l1_hits (stats c) + l2_hits (stats c))
                      (l1_hits (stats c) + l2_hits (stats c)
                       + 2 * l1_misses (stats c)))%Q
    /\ (l1_hit_rate snap ==
        ratio_or_zero (l1_hits (stats c))
                      (l1_hits (stats c) + l1_misses (stats c)))%Q.
Proof.
  destruct (run_ops_consistent clock os _ (init_consistent l1 l2 ttl))
    as ([] & c & R & _).
  destruct (run_ops_counters clock os _ _ R eq_refl) as [Hm Hs].
  cbn [init stats l1_hits l2_hits l1_misses Nat.add] in Hs.
  assert (exists snap,
             get_stats c = Some snap
             /\ (total_hit_rate snap ==
                 ratio_or_zero (l1_hits (stats c) + l2_hits (stats c))
                               (l1_hits (stats c) + l2_hits (stats c)
                                + 2 * l1_misses (stats c)))%Q
             /\ (l1_hit_rate snap ==
                 ratio_or_zero (l1_hits (stats c))
                               (l1_hits (stats c) + l1_misses (stats c)))%Q)
    as (snap & G & T & L).
  { unfold get_stats. destruct (stats c) as [h1 m1 h2 m2 e i].
    cbn [l1_hits l1_misses l2_hits l2_misses] in *. subst m2.
    rewrite <- !Nat2Z.inj_add.
    destruct (py_truediv_max h1 (h1 + m1)) as (q1 & E1 & Q1); [lia|].
    destruct (py_truediv_max h2 (h2 + m1)) as (q2 & E2 & Q2); [lia|].
    destruct (py_truediv_max (h1 + h2) (h1 + m1 + h2 + m1))
      as (q3 & E3 & Q3); [lia|].
    rewrite E1, E2, E3. eexists. split; [reflexivity|].
    cbn [total_hit_rate l1_hit_rate]. split; [|exact Q1].
    rewrite Q3. replace (h1 + m1 + h2 + m1) with (h1 + h2 + 2 * m1) by lia.
    reflexivity. }
  exists c, snap. auto.
Qed.

(** ** What invalidation removes *)

Lemma dict_remove_filter {A} k (d : dict A) :
  dict_remove k d = filter (fun kv => negb (String.eqb k (fst kv))) d.
Proof.
  induction d as [|[k' v'] d IH]; [reflexivity|].
  cbn [dict_remove filter fst]. destruct (String.eqb k k'); cbn [negb];
    now rewrite IH.
Qed.

Lemma remove_keys_filter {A} (ks : list string) (d : dict A) :
  remove_keys ks d
  = filter (fun kv => negb (existsb (fun k => String.eqb k (fst kv)) ks)) d.
Proof.
  unfold remove_keys. revert d. induction ks as [|k ks IH]; intro d.
  - cbn. induction d as [|x d IHd]; [reflexivity|]. cbn. now rewrite <- IHd.
  - cbn [fold_left existsb]. rewrite IH, dict_remove_filter.
    induction d as [|x d IHd]; [reflexivity|].
    cbn [filter]. destruct (String.eqb k (fst x)); cbn [negb orb filter];
      [exact IHd|].
    destruct (negb _); now rewrite IHd.
Qed.

Lemma dict_get_filter_keys {A} (P : string -> bool) k (d : dict A) :
  dict_get k (filter (fun kv => P (fst kv)) d)
  = if P k then dict_get k d else None.
Proof.
  induction d as [|[k' v'] d IH]; [now destruct (P k)|].
  cbn [filter fst]. destruct (P k') eqn:Pk'; cbn [dict_get].
  - destruct (String.eqb_spec k k') as [->|Hne]; [now rewrite Pk'|exact IH].
  - rewrite IH. destruct (String.eqb_spec k k') as [->|Hne];
      [now rewrite Pk'|reflexivity].
Qed.

Lemma existsb_eqb_In k (ks : list string) :
  existsb (fun k' => String.eqb k' k) ks = true <-> In k ks.
Proof.
  rewrite existsb_exists. split.
  - intros (k' & Hin & E). apply String.eqb_eq in E. now subst.
  - intro H. exists k. split; [exact H|apply String.eqb_refl].
Qed.

Lemma dict_get_remove_keys {A} (ks : list string) k (d : dict A) :
  dict_get k (remove_keys ks d)
  = if in_dec string_dec k ks then None else dict_get k d.
Proof.
  rewrite remove_keys_filter.
  rewrite (dict_get_filter_keys
             (fun k0 => negb (existsb (fun k' => String.eqb k' k0) ks))).
  destruct (in_dec string_dec k ks) as [Hin|Hn].
  - apply existsb_eqb_In in Hin. now rewrite Hin.
  - destruct (existsb _ ks) eqn:E; [|reflexivity].
    apply existsb_eqb_In in E. contradiction.
Qed.

(** Removing the keys that satisfy [P] among a list that covers the
    dictionary leaves exactly the items whose key does not satisfy [P]. *)
Lemma remove_keys_matching {A} (P : string -> bool) (all : list string)
      (d : dict A) :
  incl (keys d) all ->
  remove_keys (filter P all) d = filter (fun kv => negb (P (fst kv))) d.
Proof.
  intro Hincl. rewrite remove_keys_filter. apply filter_ext_in.
  intros [k v] Hin. cbn [fst]. f_equal.
  destruct (P k) eqn:Pk.
  - apply existsb_eqb_In, filter_In. split; [|exact Pk].
    apply Hincl. unfold keys. now apply (in_map fst) in Hin.
  - destruct (existsb _ _) eqn:E; [|reflexivity].
    apply existsb_eqb_In, filter_In in E. destruct E. congruence.
Qed.

Section Removal.

Context {V : Type}.
Implicit Types (c : MultiLevelCache V).

Lemma exact_keys_removed (ks : list string) :
  forall n c n' c',
    for_count ks invalidate_key n c = Some (n', c') ->
    l1_cache c' = remove_keys ks (l1_cache c)
    /\ l2_cache c' = remove_keys ks (l2_cache c).
Proof.
  induction ks as [|k ks IH]; intros n c n' c' R.
  - injection R as _ <-. split; reflexivity.
  - cbn [for_count] in R.
    destruct (invalidate_key_spec k n c) as (c1 & E & H1 & H2 & _).
    rewrite (bind_Some _ _ _ _ _ E) in R.
    destruct (IH _ _ _ _ R) as [G1 G2].
    unfold remove_keys in *. cbn [fold_left]. now rewrite G1, G2, H1, H2.
Qed.

Lemma matches_removed (ks : list string) :
  forall n c,
  exists c',
    for_count ks invalidate_match n c = Some (n + List.length ks, c')
    /\ l1_cache c' = remove_keys ks (l1_cache c)
    /\ l1_access_times c' = remove_keys ks (l1_access_times c)
    /\ l2_cache c' = remove_keys ks (l2_cache c)
    /\ l2_access_times c' = remove_keys ks (l2_access_times c).
Proof.
  induction ks as [|k ks IH]; intros n c.
  - exists c. cbn. unfold ret. rewrite Nat.add_0_r. auto.
  - cbn [for_count]. unfold invalidate_match at 1. run_steps.
    match goal with
    | |- context [for_count ks invalidate_match ?m ?c1] =>
        destruct (IH m c1) as (c' & R & G1 & G2 & G3 & G4)
    end.
    exists c'. rewrite R. state_simpl. cbn [List.length].
    split; [f_equal; f_equal; lia|].
    unfold remove_keys in *. cbn [fold_left]. auto.
Qed.

End Removal.

(** X5 (invalidation by exact keys): on a state whose maps are aligned,
    [invalidate] with a non-empty key list completes; afterwards no listed
    key is left in any of the four maps and [get] on it reports absent, and
    the entries of all other keys are as before in both tiers. *)
Theorem invalidate_keys_clears_both_tiers {V} (clock : nat -> Z)
        (c : MultiLevelCache V) (pattern : option string)
        (k0 : string) (ks0 : list string) :
  consistent c ->
  exists n c',
    invalidate pattern (Some (k0 :: ks0)) c = Some (n, c')
    /\ (forall k, In k (k0 :: ks0) ->
                  dict_get k (l1_cache c') = None
                  /\ dict_get k (l1_access_times c') = None
                  /\ dict_get k (l2_cache c') = None
                  /\ dict_get k (l2_access_times c') = None
                  /\ exists c'', get clock k c' = Some (None, c''))
    /\ (forall k, ~ In k (k0 :: ks0) ->
                  dict_get k (l1_cache c') = dict_get k (l1_cache c)
                  /\ dict_get k (l2_cache c') = dict_get k (l2_cache c)).
Proof.
  intro Hc.
  destruct (invalidate_consistent clock pattern (Some (k0 :: ks0)) c Hc)
    as (n & c' & R & Hc').
  exists n, c'. split; [exact R|].
  assert (l1_cache c' = remove_keys (k0 :: ks0) (l1_cache c)
          /\ l2_cache c' = remove_keys (k0 :: ks0) (l2_cache c)) as [E1 E2].
  { revert R. unfold invalidate, invalidate_entries. cbn [truthy_list].
    unfold bind at 1.
    destruct (for_count (k0 :: ks0) invalidate_key 0 c) as [[m c1]|] eqn:F;
      [|discriminate].
    apply exact_keys_removed in F. run_steps.
    intro R. injection R as _ <-. state_simpl. exact F. }
  split.
  - intros k Hin.
    assert (G1 : dict_get k (l1_cache c') = None).
    { rewrite E1, dict_get_remove_keys.
      now destruct (in_dec string_dec k (k0 :: ks0)). }
    assert (G2 : dict_get k (l2_cache c') = None).
    { rewrite E2, dict_get_remove_keys.
      now destruct (in_dec string_dec k (k0 :: ks0)). }
    split; [exact G1|].
    split; [apply dict_get_None; rewrite <- (proj1 Hc');
            now apply dict_get_None|].
    split; [exact G2|].
    split; [apply dict_get_None; rewrite <- (proj2 Hc');
            now apply dict_get_None|].
    destruct (get_visible clock k c' Hc') as (c'' & G & _).
    exists c''. rewrite G. unfold visible, live_value. now rewrite G1, G2.
  - intros k Hn. rewrite E1, E2, !dict_get_remove_keys.
    now destruct (in_dec string_dec k (k0 :: ks0)).
Qed.

Lemma invalidate_keys_clears_both_tiers_witness :
  let c := state_after ticking_clock
             [OpSet "a" 1 None; OpSet "b" 2 None; OpSet "c" 3 None;
              OpSet "d" 4 None; OpSet "e" 5 None] (init 4 4 300) in
  consistent c
  /\ option_map (fun r => (fst r, keys (l1_cache (snd r)),
                           keys (l2_cache (snd r))))
                (invalidate None (Some ["a"; "c"; "zz"]) c)
     = Some (2, ["b"; "d"; "e"], []).
Proof.
  intro c. assert (Hc : consistent c) by (split; reflexivity).
  split; [exact Hc|].
  destruct (invalidate_keys_clears_both_tiers ticking_clock c None "a"
              ["c"; "zz"] Hc) as (n & c' & R & _).
  vm_compute in R. injection R as <- <-. reflexivity.
Defined.

(** X6 (invalidation by pattern): on a state whose maps are aligned,
    [invalidate] with a non-empty pattern and no keys (or an empty key list)
    completes, removes from all four maps exactly the items whose key
    contains the pattern, keeps the others in their order, and returns the
    number of matching keys counted over both tiers. *)
Theorem invalidate_pattern_removes_matches {V} (c : MultiLevelCache V)
        (p : string) (ks : option (list string)) :
  consistent c ->
  truthy_list ks = false ->
  p <> "" ->
  exists c',
    invalidate (Some p) ks c
    = Some (List.length (filter (str_contains p)
                                (keys (l1_cache c) ++ keys (l2_cache c))), c')
    /\ l1_cache c'
       = filter (fun kv => negb (str_contains p (fst kv))) (l1_cache c)
    /\ l1_access_times c'
       = filter (fun kv => negb (str_contains p (fst kv))) (l1_access_times c)
    /\ l2_cache c'
       = filter (fun kv => negb (str_contains p (fst kv))) (l2_cache c)
    /\ l2_access_times c'
       = filter (fun kv => negb (str_contains p (fst kv))) (l2_access_times c).
Proof.
  intros [Hc1 Hc2] Hks Hp.
  unfold invalidate, invalidate_entries. rewrite Hks.
  assert (truthy_str (Some p) = true) as ->
    by (destruct p; [now elim Hp|reflexivity]).
  unfold bind at 1 2. unfold gets, id.
  set (all := keys (l1_cache c) ++ keys (l2_cache c)).
  destruct (matches_removed (filter (str_contains p) all) 0 c)
    as (c1 & R & G1 & G2 & G3 & G4).
  rewrite R. run_steps. eexists. split; [reflexivity|]. state_simpl.
  rewrite G1, G2, G3, G4.
  rewrite !remove_keys_matching; auto; subst all.
  - rewrite <- Hc2. apply incl_appr, incl_refl.
  - apply incl_appr, incl_refl.
  - rewrite <- Hc1. apply incl_appl, incl_refl.
  - apply incl_appl, incl_refl.
Qed.

Lemma invalidate_pattern_removes_matches_witness :
  let c := state_after ticking_clock
             [OpSet "user:1:profile" 1 None; OpSet "user:1:settings" 2 None;
              OpSet "user:2:profile" 3 None] (init 4 4 300) in
  consistent c
  /\ "user:1" <> ""
  /\ option_map (fun r => (fst r, keys (l1_cache (snd r))))
                (invalidate (Some "user:1") None c)
     = Some (2, ["user:2:profile"]).
Proof.
  intro c. assert (Hc : consistent c) by (split; reflexivity).
  assert (Hp : "user:1" <> "") by discriminate.
  split; [exact Hc|]. split; [exact Hp|].
  destruct (invalidate_pattern_removes_matches c "user:1" None Hc eq_refl Hp)
    as (c' & R & G1 & _).
  rewrite R. cbn [option_map fst snd]. rewrite G1. reflexivity.
Defined.

(** ** Where single-tier membership is kept *)

Section Disjoint.

Context {V : Type}.
Variable clock : nat -> Z.
Implicit Types (c : MultiLevelCache V).

(** the maps are aligned, no key is in both tiers, and the keys of [F] are
    in neither *)
Let apart (F : list string) c : Prop :=
  consistent c /\ tiers_disjoint c
  /\ forall k, In k F -> ~ In k (keys (l1_cache c))
                         /\ ~ In k (keys (l2_cache c)).

Lemma drop_l2_apart F item :
  triple (apart F) (drop_l2 (V:=V) item) (fun _ => apart F).
Proof.
  intros c (Hc & Hd & HF). unfold drop_l2. run_steps.
  do 2 eexists. split; [reflexivity|]. unfold apart, tiers_disjoint.
  state_simpl. rewrite !keys_dict_remove. split; [|split].
  - unfold consistent in *. state_simpl.
    rewrite !keys_dict_remove. intuition congruence.
  - intros k H1 H2. apply In_key_remove in H2. apply (Hd k H1), H2.
  - intros k Hk. destruct (HF k Hk) as [N1 N2]. split; [exact N1|].
    intro H2. apply In_key_remove in H2. tauto.
Qed.

Lemma _ensure_l2_space_apart F :
  triple (apart F) (_ensure_l2_space (V:=V)) (fun _ => apart F).
Proof.
  unfold _ensure_l2_space. apply triple_read. intros c0 H0.
  destruct (_ >=? _)%Z.
  - eapply triple_weaken with (P' := apart F) (Q' := fun _ => apart F);
      [|intros c ->; exact H0|auto].
    apply triple_for_each. intros item _. apply drop_l2_apart.
  - apply triple_ret. now intros c ->.
Qed.

Lemma demote_l1_apart F item :
  triple (apart F) (demote_l1 clock item) (fun _ => apart F).
Proof.
  intros c Hc. destruct item as [key t].
  unfold demote_l1. cbn [fst]. unfold bind at 1. unfold gets, id.
  destruct (dict_mem key (l1_cache c)) eqn:Hmem; [|now exists tt, c].
  destruct (dict_pop_mem _ _ Hmem) as (entry & _ & Hpop).
  assert (Hmem' : dict_mem key (l1_access_times c) = true).
  { destruct Hc as (Hcons & _).
    rewrite <- (dict_mem_keys key _ _ (proj1 Hcons)). exact Hmem. }
  destruct (dict_pop_mem _ _ Hmem') as (t0 & _ & Hpop').
  rewrite Hpop, Hpop'. run_steps.
  apply dict_mem_In in Hmem.
  set (c1 := with_clock_reads _ _).
  assert (H1 : apart (key :: F) c1).
  { destruct Hc as (Hcons & Hd & HF). subst c1.
    unfold apart, tiers_disjoint. state_simpl.
    rewrite !keys_dict_remove. split; [|split].
    - unfold consistent in *. state_simpl.
      rewrite !keys_dict_remove. intuition congruence.
    - intros k H1. apply In_key_remove in H1. apply Hd, H1.
    - intros k [<-|Hk].
      + split; [rewrite In_key_remove; tauto|now apply Hd].
      + destruct (HF k Hk) as [N1 N2]. split; [|exact N2].
        rewrite In_key_remove. tauto. }
  clearbody c1.
  assert (HnF : ~ In key F).
  { intro Hin. destruct Hc as (_ & _ & HF).
    destruct (HF key Hin) as [N _]. exact (N Hmem). }
  assert (Hback : forall c2 : MultiLevelCache V,
             apart (key :: F) c2 ->
             forall (d : dict (CacheEntry V)) (d' : dict Z),
               keys d = key_set key (keys (l2_cache c2)) ->
               keys d' = key_set key (keys (l2_access_times c2)) ->
               forall n st,
               apart F (with_stats st
                          (with_l2_access_times d'
                             (with_clock_reads n (with_l2_cache d c2))))).
  { intros c2 (Hcons & Hd & HF) d d' Ed Ed' n st.
    unfold apart, tiers_disjoint. state_simpl. rewrite Ed. split; [|split].
    - unfold consistent in *. state_simpl. rewrite Ed, Ed'.
      split; [tauto|]. f_equal. tauto.
    - intros k K1 K2. apply In_key_set in K2. destruct K2 as [->|K2].
      + destruct (HF key (or_introl eq_refl)) as [N _]. exact (N K1).
      + now apply (Hd k).
    - intros k Hk. destruct (HF k (or_intror Hk)) as [N1 N2].
      split; [exact N1|]. rewrite In_key_set. intros [E|K2]; [|tauto].
      apply HnF. now rewrite <- E. }
  destruct (_ <? _)%Z.
  - destruct (_ensure_l2_space_apart (key :: F) c1 H1) as ([] & c2 & -> & H2).
    do 2 eexists. split; [reflexivity|].
    apply Hback; [exact H2|apply keys_dict_set|].
    state_simpl. apply keys_dict_set.
  - do 2 eexists. split; [reflexivity|].
    destruct H1 as (Hcons & Hd & HF). unfold apart, tiers_disjoint.
    state_simpl. split; [exact Hcons|]. split; [exact Hd|].
    intros k Hk. apply HF. now right.
Qed.

Lemma _ensure_l1_space_apart F :
  triple (apart F) (_ensure_l1_space clock) (fun _ => apart F).
Proof.
  unfold _ensure_l1_space. apply triple_read. intros c0 H0.
  destruct (_ >=? _)%Z.
  - unfold _evict_l1_to_l2. apply triple_read. intros c1 ->.
    eapply triple_weaken with (P' := apart F) (Q' := fun _ => apart F);
      [|intros c ->; exact H0|auto].
    apply triple_for_each. intros item _. apply demote_l1_apart.
  - apply triple_ret. now intros c ->.
Qed.

(** Writing [key] to the hot tier of a state where the warm tier does not
    hold it keeps the tiers apart. *)
Lemma write_l1_apart key c (d : dict (CacheEntry V)) (d' : dict Z) :
  consistent c -> tiers_disjoint c ->
  ~ In key (keys (l2_cache c)) ->
  keys d = key_set key (keys (l1_cache c)) ->
  keys d' = key_set key (keys (l1_access_times c)) ->
  apart [] (with_l1_access_times d' (with_l1_cache d c)).
Proof.
  intros Hcons Hd N2 Ed Ed'. unfold apart, tiers_disjoint. state_simpl.
  rewrite Ed. split; [|split].
  - unfold consistent in *. state_simpl. rewrite Ed, Ed'.
    split; [f_equal|]; tauto.
  - intros k H1. apply In_key_set in H1. destruct H1 as [->|H1];
      [exact N2|now apply Hd].
  - intros k [].
Qed.

Lemma set_apart key (v : V) ttl c :
  consistent c -> tiers_disjoint c ->
  ~ In key (keys (l2_cache c)) ->
  ~ In key (keys (l1_cache c))
  \/ (Z.of_nat (List.length (l1_cache c)) < l1_size c)%Z ->
  exists c', set clock key v ttl c = Some (tt, c') /\ apart [] c'.
Proof.
  intros Hcons Hd N2 Hsafe. rewrite set_unfold.
  set (c0 := with_clock_reads (S (clock_reads c)) c).
  assert (exists c1,
             _ensure_l1_space clock c0 = Some (tt, c1)
             /\ consistent c1 /\ tiers_disjoint c1
             /\ ~ In key (keys (l2_cache c1))) as (c1 & -> & H1 & H2 & H3).
  { destruct Hsafe as [N1|Hroom].
    - destruct (_ensure_l1_space_apart [key] c0) as ([] & c1 & R & G1 & G2 & G3).
      + split; [exact Hcons|]. split; [exact Hd|].
        intros k [<-|[]]. auto.
      + exists c1. split; [exact R|]. split; [exact G1|]. split; [exact G2|].
        now apply (G3 key (or_introl eq_refl)).
    - exists c0. unfold _ensure_l1_space. run_steps.
      change (l1_cache c0) with (l1_cache c).
      change (l1_size c0) with (l1_size c).
      destruct (Z.geb_spec (Z.of_nat (List.length (l1_cache c))) (l1_size c));
        [lia|].
      auto. }
  eexists. split; [reflexivity|]. cbv zeta.
  apply (write_l1_apart key); auto; state_simpl; apply keys_dict_set.
Qed.

Lemma In_keys_remove_keys {A} ks k (d : dict A) :
  In k (keys (remove_keys ks d)) -> In k (keys d).
Proof.
  intro H. destruct (dict_get k d) eqn:E; [now apply dict_get_Some_In in E|].
  exfalso. revert H. apply dict_get_None. rewrite dict_get_remove_keys.
  now destruct (in_dec string_dec k ks).
Qed.

Lemma invalidate_apart pattern ks c :
  consistent c -> tiers_disjoint c ->
  exists n c', invalidate pattern ks c = Some (n, c') /\ apart [] c'.
Proof.
  intros Hcons Hd.
  destruct (invalidate_consistent clock pattern ks c Hcons)
    as (n & c' & R & Hc').
  exists n, c'. split; [exact R|]. split; [exact Hc'|]. split; [|intros k []].
  assert (exists l, l1_cache c' = remove_keys l (l1_cache c)
                    /\ l2_cache c' = remove_keys l (l2_cache c))
    as (l & E1 & E2).
  { revert R. unfold invalidate, invalidate_entries. unfold bind at 1.
    destruct (truthy_list ks).
    - destruct (for_count _ invalidate_key 0 c) as [[m c1]|] eqn:F;
        [|discriminate].
      apply exact_keys_removed in F. run_steps.
      intro R. injection R as _ <-. state_simpl. eexists. exact F.
    - destruct (truthy_str pattern).
      + unfold bind at 1. unfold gets, id.
        match goal with
        | |- context [for_count ?l invalidate_match 0 c] =>
            destruct (matches_removed l 0 c) as (c1 & F & G1 & _ & G3 & _)
        end.
        rewrite F. run_steps. intro R. injection R as _ <-. state_simpl.
        eexists. split; [exact G1|exact G3].
      + run_steps. intro R. injection R as _ <-. state_simpl.
        exists []. split; reflexivity. }
  intros k H1 H2. rewrite E1 in H1. rewrite E2 in H2.
  apply In_keys_remove_keys in H1, H2. now apply (Hd k).
Qed.

Lemma get_apart key c :
  consistent c -> tiers_disjoint c ->
  exists r c', get clock key c = Some (r, c') /\ apart [] c'.
Proof.
  intros Hcons Hd. unfold get. run_steps.
  set (c0 := with_clock_reads _ c).
  assert (Hl2 : forall c1,
             consistent c1 -> tiers_disjoint c1 ->
             exists r c', get_l2 clock key (clock (clock_reads c)) c1
                          = Some (r, c') /\ apart [] c').
  { intros c1 Hc1 Hd1. unfold get_l2. unfold bind at 1. unfold gets, id.
    destruct (dict_get key (l2_cache c1)) as [entry|] eqn:E.
    - destruct (_ <? _)%Z.
      + assert (exists c3, _promote_to_l1 clock key entry c1 = Some (tt, c3)
                           /\ apart [] c3) as (c3 & P & G).
        { unfold _promote_to_l1.
          destruct (_ensure_l1_space_apart [] c1)
            as ([] & c2 & R & G1 & G2 & _).
          { split; [exact Hc1|]. split; [exact Hd1|]. intros k []. }
          rewrite (bind_Some _ _ _ _ _ R). run_steps.
          eexists. split; [reflexivity|].
          unfold apart, tiers_disjoint. state_simpl.
          rewrite !keys_dict_set, !keys_dict_remove. split; [|split].
          - unfold consistent in *. state_simpl.
            rewrite !keys_dict_set, !keys_dict_remove.
            split; f_equal; tauto.
          - intros k K1 K2. apply In_key_remove in K2.
            destruct K2 as [Hne K2].
            apply In_key_set in K1. destruct K1 as [->|K1]; [congruence|].
            now apply (G2 k).
          - intros k []. }
        rewrite (bind_Some _ _ _ _ _ P). run_steps.
        do 2 eexists. split; [reflexivity|]. exact G.
      + rewrite (dict_del_Some _ _ _ E). run_steps.
        do 2 eexists. split; [reflexivity|].
        unfold apart, tiers_disjoint. state_simpl.
        rewrite !keys_dict_remove. split; [|split].
        * unfold consistent in *. state_simpl.
          rewrite !keys_dict_remove. split; [|f_equal]; tauto.
        * intros k H1 H2. apply In_key_remove in H2. now apply (Hd1 k).
        * intros k [].
    - run_steps. do 2 eexists. split; [reflexivity|].
      split; [exact Hc1|]. split; [exact Hd1|intros k []]. }
  change (l1_cache c0) with (l1_cache c).
  destruct (dict_get key (l1_cache c)) as [entry|] eqn:E.
  - destruct (_ <? _)%Z.
    + do 2 eexists. split; [reflexivity|]. subst c0.
      apply dict_get_Some_In in E.
      unfold apart, tiers_disjoint. state_simpl.
      split; [|split; [exact Hd|intros k []]].
      unfold consistent in *. state_simpl.
      rewrite keys_dict_set, key_set_present; [exact Hcons|].
      now rewrite <- (proj1 Hcons).
    + change (l1_cache c0) with (l1_cache c).
      rewrite (dict_del_Some _ _ _ E). state_simpl. apply Hl2.
      * subst c0. unfold consistent in *. state_simpl.
        rewrite !keys_dict_remove. split; [f_equal|]; tauto.
      * subst c0. unfold tiers_disjoint. state_simpl.
        rewrite keys_dict_remove. intros k H1. apply In_key_remove in H1.
        now apply Hd.
  - apply Hl2; [exact Hcons|exact Hd].
Qed.

End Disjoint.

Lemma tiers_disjointb_sound {V} (c : MultiLevelCache V) :
  tiers_disjointb c = true -> tiers_disjoint c.
Proof.
  unfold tiers_disjointb, tiers_disjoint. rewrite forallb_forall.
  intros H k H1 H2. specialize (H k H1). apply dict_mem_In in H2.
  rewrite H2 in H. discriminate H.
Qed.

(** X7 (where single-tier membership is kept): from a state whose maps are
    aligned and whose tiers share no key, [get] and [invalidate] complete
    and leave the tiers without a common key, and so does [set] on a key
    that the warm tier does not hold, provided the key is new to the hot
    tier or the hot tier is below its capacity. *)
Theorem single_tier_membership_kept {V} (clock : nat -> Z)
        (c : MultiLevelCache V) (o : op V) :
  consistent c ->
  tiers_disjoint c ->
  match o with
  | OpSet key _ _ =>
      ~ In key (keys (l2_cache c))
      /\ (~ In key (keys (l1_cache c))
          \/ (Z.of_nat (List.length (l1_cache c)) < l1_size c)%Z)
  | _ => True
  end ->
  exists c',
    run_op clock o c = Some (tt, c') /\ consistent c' /\ tiers_disjoint c'.
Proof.
  intros Hcons Hd Hsafe. destruct o as [key|key v ttl|pattern ks]; cbn [run_op].
  - destruct (get_apart clock key c Hcons Hd) as (r & c' & R & G1 & G2 & _).
    exists c'. rewrite (bind_Some _ _ _ _ _ R). auto.
  - destruct Hsafe as [N2 Hsafe].
    destruct (set_apart clock key v ttl c Hcons Hd N2 Hsafe)
      as (c' & R & G1 & G2 & _).
    exists c'. auto.
  - destruct (invalidate_apart clock pattern ks c Hcons Hd)
      as (n & c' & R & G1 & G2 & _).
    exists c'. rewrite (bind_Some _ _ _ _ _ R). auto.
Qed.

Lemma single_tier_membership_kept_witness :
  let c := state_after ticking_clock
             [OpSet "a" 1 None; OpSet "b" 2 None; OpSet "c" 3 None;
              OpSet "d" 4 None; OpSet "e" 5 None] (init 4 4 300) in
  consistent c
  /\ tiers_disjoint c
  /\ option_map (fun r => (keys (l1_cache (snd r)), keys (l2_cache (snd r))))
                (run_op ticking_clock (OpSet "f" 6 None) c)
     = Some (["c"; "d"; "e"; "f"], ["a"; "b"]).
Proof.
  intro c. assert (Hc : consistent c) by (split; vm_compute; reflexivity).
  assert (Hd : tiers_disjoint c)
    by (apply tiers_disjointb_sound; vm_compute; reflexivity).
  split; [exact Hc|]. split; [exact Hd|].
  destruct (single_tier_membership_kept ticking_clock c (OpSet "f" 6 None)
              Hc Hd) as (c' & R & _).
  - split; [|left]; apply dict_get_None; vm_compute; reflexivity.
  - rewrite R. cbn [option_map snd].
    assert (E : Some (tt, c') = run_op ticking_clock (OpSet "f" 6 None) c)
      by (symmetry; exact R).
    vm_compute in E. injection E as ->. vm_compute. reflexivity.
Defined.

(** ** Capacities of at least 4 *)

(** X8 (capacity bound for capacities from 4): with both capacities at
    least 4, every finite run of public operations on a fresh cache
    completes, leaves the configured capacities unchanged, and leaves at
    most [l1_size] entries in the hot tier and at most [l2_size] in the warm
    tier. *)
Theorem capacity_is_kept_from_4 {V} (clock : nat -> Z) (L1 L2 ttl : Z)
        (os : list (op V)) :
  (4 <= L1)%Z ->
  (4 <= L2)%Z ->
  exists c,
    run_ops clock os (init L1 L2 ttl) = Some (tt, c)
    /\ l1_size c = L1 /\ l2_size c = L2
    /\ (Z.of_nat (List.length (l1_cache c)) <= l1_size c)%Z
    /\ (Z.of_nat (List.length (l2_cache c)) <= l2_size c)%Z.
Proof.
  intros H1 H2.
  destruct (run_ops_within clock L1 L2 H1 H2 os (init L1 L2 ttl))
    as ([] & c & R & S1 & S2 & _ & B1 & B2).
  - unfold within. cbn. repeat split; auto; lia.
  - exists c. rewrite S1, S2. auto.
Qed.

Lemma capacity_is_kept_from_4_witness :
  (4 <= 4)%Z
  /\ option_map (fun r => (List.length (l1_cache (snd r)),
                           List.length (l2_cache (snd r))))
                (run_ops ticking_clock
                   (map (fun k => OpSet k 0 None)
                        ["a"; "b"; "c"; "d"; "e"; "f"; "g"; "h"; "i"; "j"])
                   (init 4 4 300))
     = Some (4, 4).
Proof.
  assert (H4 : (4 <= 4)%Z) by lia.
  split; [exact H4|].
  destruct (capacity_is_kept_from_4 ticking_clock 4 4 300
              (map (fun k => OpSet k 0 None)
                   ["a"; "b"; "c"; "d"; "e"; "f"; "g"; "h"; "i"; "j"])
              H4 H4) as (c & R & _).
  vm_compute in R. injection R as <-. reflexivity.
Defined.

(** ** Entries are moved, never altered *)

Section Relates.

Context {V : Type}.
Variable R : MultiLevelCache V -> MultiLevelCache V -> Prop.
Hypothesis R_refl : forall c, R c c.
Hypothesis R_trans : forall c1 c2 c3, R c1 c2 -> R c2 c3 -> R c1 c3.

Lemma relates_ret {A} (a : A) : relates R (ret a).
Proof. intros c a' c' E. injection E as _ <-. apply R_refl. Qed.

Lemma relates_bind {A B} (m : M V A) (k : A -> M V B) :
  relates R m -> (forall a, relates R (k a)) -> relates R (bind m k).
Proof.
  intros Hm Hk c b c'. unfold bind.
  destruct (m c) as [[a c1]|] eqn:E; [|discriminate].
  intro E'. exact (R_trans _ _ _ (Hm c a c1 E) (Hk a c1 b c' E')).
Qed.

Lemma relates_gets {A} (g : MultiLevelCache V -> A) : relates R (gets g).
Proof. intros c a c' E. injection E as _ <-. apply R_refl. Qed.

Lemma relates_for_each {A} (l : list A) (body : A -> M V unit) :
  (forall x, relates R (body x)) -> relates R (for_each l body).
Proof.
  intro H. induction l as [|x l IH]; cbn [for_each].
  - apply relates_ret.
  - apply relates_bind; [apply H|intros _; exact IH].
Qed.

Lemma relates_for_count {A} (l : list A) (body : A -> nat -> M V nat) n :
  (forall x m, relates R (body x m)) -> relates R (for_count l body n).
Proof.
  intro H. revert n. induction l as [|x l IH]; intro n; cbn [for_count].
  - apply relates_ret.
  - apply relates_bind; [apply H|intros n'; apply IH].
Qed.

End Relates.

Lemma dict_get_remove_Some {A} k k' (d : dict A) v :
  dict_get k' (dict_remove k d) = Some v -> dict_get k' d = Some v.
Proof.
  destruct (string_dec k k') as [->|Hne].
  - now rewrite dict_get_remove_eq.
  - now rewrite dict_get_remove_neq.
Qed.

Lemma dict_get_set_Some {A} k k' (d : dict A) v v' :
  dict_get k' (dict_set k v d) = Some v' ->
  (k' = k /\ v' = v) \/ dict_get k' d = Some v'.
Proof.
  destruct (string_dec k k') as [->|Hne].
  - rewrite dict_get_set_eq. intro E. injection E as <-. now left.
  - rewrite dict_get_set_neq by exact Hne. now right.
Qed.

Section Moves.

Context {V : Type}.
Variable clock : nat -> Z.
Implicit Types (c : MultiLevelCache V).

Lemma only_moves_refl c : only_moves c c.
Proof. intros k e H. exact H. Qed.

Lemma only_moves_trans c1 c2 c3 :
  only_moves c1 c2 -> only_moves c2 c3 -> only_moves c1 c3.
Proof. intros H12 H23 k e H. auto. Qed.

Lemma drop_l2_moves item : relates (only_moves (V:=V)) (drop_l2 (V:=V) item).
Proof.
  intros c a c'. unfold drop_l2. run_steps. intro E. injection E as _ <-.
  intros k e [H|H]; state_simpl; [now left|right].
  exact (dict_get_remove_Some _ _ _ _ H).
Qed.

Lemma _ensure_l2_space_moves : relates (only_moves (V:=V)) (_ensure_l2_space (V:=V)).
Proof.
  unfold _ensure_l2_space.
  apply relates_bind;
    [exact only_moves_trans|apply relates_gets, only_moves_refl|].
  intro c0. destruct (_ >=? _)%Z.
  - apply relates_for_each;
      [exact only_moves_refl|exact only_moves_trans|exact drop_l2_moves].
  - apply relates_ret, only_moves_refl.
Qed.

Lemma demote_l1_moves item : relates (only_moves (V:=V)) (demote_l1 clock item).
Proof.
  intros c a c'. destruct item as [key t].
  unfold demote_l1. cbn [fst]. unfold bind at 1. unfold gets, id.
  destruct (dict_mem key (l1_cache c)) eqn:Hmem;
    [|intro E; injection E as _ <-; apply only_moves_refl].
  destruct (dict_pop_mem _ _ Hmem) as (entry & Hget & Hpop).
  rewrite Hpop. unfold or_raise at 1. unfold bind at 1 2. unfold modify at 1.
  cbn [fst snd].
  destruct (dict_pop key (l1_access_times c)) as [[t0 times]|];
    [|discriminate].
  run_steps. set (c1 := with_clock_reads _ _).
  assert (H1 : only_moves c c1).
  { intros k e [H|H]; subst c1; state_simpl; [left|now right].
    exact (dict_get_remove_Some _ _ _ _ H). }
  clearbody c1.
  destruct (_ <? _)%Z.
  - destruct (_ensure_l2_space c1) as [[[] c2]|] eqn:S2; [|discriminate].
    apply _ensure_l2_space_moves in S2.
    intro E. injection E as _ <-.
    intros k e [H|H]; state_simpl.
    + apply H1, S2. now left.
    + apply dict_get_set_Some in H. destruct H as [[-> ->]|H];
        [now left|apply H1, S2; now right].
  - intro E. injection E as _ <-. intros k e H. apply H1.
    destruct H as [H|H]; state_simpl; [now left|now right].
Qed.

Lemma _ensure_l1_space_moves : relates (only_moves (V:=V)) (_ensure_l1_space clock).
Proof.
  unfold _ensure_l1_space, _evict_l1_to_l2.
  apply relates_bind;
    [exact only_moves_trans|apply relates_gets, only_moves_refl|].
  intro c0. destruct (_ >=? _)%Z; [|apply relates_ret, only_moves_refl].
  apply relates_bind;
    [exact only_moves_trans|apply relates_gets, only_moves_refl|].
  intro c1. apply relates_for_each;
    [exact only_moves_refl|exact only_moves_trans|exact demote_l1_moves].
Qed.

(** [get] only moves entries between the tiers or drops them. *)
Lemma get_moves key : relates (only_moves (V:=V)) (get clock key).
Proof.
  assert (Hl2 : forall now, relates (only_moves (V:=V)) (get_l2 clock key now)).
  { intros now c r c'. unfold get_l2. unfold bind at 1. unfold gets, id.
    destruct (dict_get key (l2_cache c)) as [entry|] eqn:E.
    - destruct (_ <? _)%Z.
      + unfold _promote_to_l1. unfold bind at 1 2.
        destruct (_ensure_l1_space clock c) as [[[] c1]|] eqn:S1;
          [|discriminate].
        apply _ensure_l1_space_moves in S1. run_steps.
        intro R. injection R as _ <-.
        intros k e [H|H]; state_simpl.
        * apply dict_get_set_Some in H. destruct H as [[-> ->]|H];
            [now right|apply S1; now left].
        * apply S1. right. exact (dict_get_remove_Some _ _ _ _ H).
      + rewrite (dict_del_Some _ _ _ E). run_steps.
        intro R. injection R as _ <-.
        intros k e [H|H]; state_simpl; [now left|right].
        exact (dict_get_remove_Some _ _ _ _ H).
    - run_steps. intro R. injection R as _ <-.
      intros k e H. unfold held_in in *. state_simpl. exact H. }
  intros c r c'. unfold get. run_steps.
  destruct (dict_get key (l1_cache c)) as [entry|] eqn:E.
  - destruct (_ <? _)%Z.
    + intro R. injection R as _ <-.
      intros k e H. unfold held_in in *. state_simpl. exact H.
    + rewrite (dict_del_Some _ _ _ E). state_simpl. intro R.
      apply Hl2 in R. intros k e H. apply R in H.
      destruct H as [H|H]; state_simpl; [left|now right].
      exact (dict_get_remove_Some _ _ _ _ H).
  - intro R. apply Hl2 in R. intros k e H. apply R in H.
    destruct H as [H|H]; state_simpl; [now left|now right].
Qed.

(** [invalidate] only drops entries. *)
Lemma invalidate_moves pattern ks :
  relates (only_moves (V:=V)) (invalidate (V:=V) pattern ks).
Proof.
  assert (Hrm : forall l (c c' : MultiLevelCache V),
             l1_cache c' = remove_keys l (l1_cache c) ->
             l2_cache c' = remove_keys l (l2_cache c) ->
             only_moves c c').
  { intros l c c' E1 E2 k e [H|H]; [left|right].
    - rewrite E1, dict_get_remove_keys in H.
      now destruct (in_dec string_dec k l).
    - rewrite E2, dict_get_remove_keys in H.
      now destruct (in_dec string_dec k l). }
  intros c n c'. unfold invalidate, invalidate_entries. unfold bind at 1.
  destruct (truthy_list ks).
  - destruct (for_count _ invalidate_key 0 c) as [[m c1]|] eqn:F;
      [|discriminate].
    apply exact_keys_removed in F. run_steps.
    intro R. injection R as _ <-. eapply Hrm; state_simpl; apply F.
  - destruct (truthy_str pattern).
    + unfold bind at 1. unfold gets, id.
      match goal with
      | |- context [for_count ?l invalidate_match 0 c] =>
          destruct (matches_removed l 0 c) as (c1 & F & G1 & _ & G3 & _)
      end.
      rewrite F. run_steps. intro R. injection R as _ <-.
      eapply Hrm; state_simpl; eassumption.
    + run_steps. intro R. injection R as _ <-.
      intros k e H. unfold held_in in *. state_simpl. exact H.
Qed.

(** After [set], an entry is one held before or the one just written. *)
Lemma set_moves_or_writes key (v : V) ttl c c' :
  set clock key v ttl c = Some (tt, c') ->
  forall k e,
    held_in c' k e ->
    held_in c k e \/ (k = key /\ value e = v).
Proof.
  rewrite set_unfold.
  destruct (_ensure_l1_space clock _) as [[[] c1]|] eqn:S1; [|discriminate].
  apply _ensure_l1_space_moves in S1. cbv zeta.
  intro R. injection R as <-. intros k e [H|H]; state_simpl.
  - apply dict_get_set_Some in H. destruct H as [[-> ->]|H]; [now right|].
    left. apply (S1 k e). now left.
  - left. apply (S1 k e). now right.
Qed.

(** Along a run, every entry held under a key carries a value that some
    earlier [set] of the run stored under that key. *)
Lemma run_ops_provenance (os : list (op V)) :
  forall (done : list (op V)) c c',
    (forall k e, held_in c k e -> exists ttl, In (OpSet k (value e) ttl) done) ->
    run_ops clock os c = Some (tt, c') ->
    forall k e, held_in c' k e ->
                exists ttl, In (OpSet k (value e) ttl) (done ++ os).
Proof.
  induction os as [|o os IH]; intros done c c' Hinv R.
  - injection R as <-. rewrite app_nil_r. exact Hinv.
  - cbn [run_ops] in R. unfold bind at 1 in R.
    destruct (run_op clock o c) as [[[] c1]|] eqn:R1; [|discriminate].
    replace (done ++ o :: os) with ((done ++ [o]) ++ os)
      by (now rewrite <- app_assoc).
    apply (IH (done ++ [o]) c1 c'); [|exact R].
    intros k e H.
    assert (held_in c k e \/ exists ttl, o = OpSet k (value e) ttl) as [Hc|Ho].
    { destruct o as [key|key v ttl|pattern ks]; cbn [run_op] in R1.
      - unfold bind in R1.
        destruct (get clock key c) as [[r c2]|] eqn:G; [|discriminate].
        injection R1 as <-. left. exact (get_moves key _ _ _ G k e H).
      - destruct (set_moves_or_writes key v ttl c c1 R1 k e H)
          as [Hc|[-> <-]]; [now left|right]. now exists ttl.
      - unfold bind in R1.
        destruct (invalidate pattern ks c) as [[n c2]|] eqn:G; [|discriminate].
        injection R1 as <-. left. exact (invalidate_moves _ _ _ _ _ G k e H). }
    + destruct (Hinv k e Hc) as (ttl & Hin). exists ttl.
      apply in_or_app. now left.
    + destruct Ho as (ttl & ->). exists ttl. apply in_or_app. right. now left.
Qed.

End Moves.

(** X9 (a lookup returns only what was stored under its key): after any
    finite run of public operations on a fresh cache, [get] completes, and a
    value it returns for a key is the value of some [set] call of the run on
    that same key. *)
Theorem get_returns_a_value_set_under_the_key {V} (clock : nat -> Z)
        (l1 l2 ttl : Z) (os : list (op V)) (key : string) :
  exists c r c',
    run_ops clock os (init l1 l2 ttl) = Some (tt, c)
    /\ get clock key c = Some (r, c')
    /\ forall v, r = Some v -> exists ttl', In (OpSet key v ttl') os.
Proof.
  destruct (run_ops_consistent clock os _ (init_consistent l1 l2 ttl))
    as ([] & c & R & Hc).
  destruct (get_visible clock key c Hc) as (c' & G & _).
  exists c, (visible (clock (clock_reads c)) c key), c'.
  split; [exact R|]. split; [exact G|].
  intros v Hv.
  assert (exists e, held_in c key e /\ value e = v) as (e & He & <-).
  { unfold visible in Hv.
    destruct (live_value _ (l1_cache c) key) as [v1|] eqn:E1.
    - injection Hv as ->. apply live_value_Some in E1.
      destruct E1 as (e & E & Ev & _). exists e. split; [now left|exact Ev].
    - apply live_value_Some in Hv.
      destruct Hv as (e & E & Ev & _). exists e. split; [now right|exact Ev]. }
  apply (run_ops_provenance clock os [] (init l1 l2 ttl) c); [|exact R|exact He].
  intros k e0 [H|H]; discriminate H.
Qed.

(** ** A value that was demoted is still served *)

Section Demoted.

Context {V : Type}.
Variable clock : nat -> Z.
Implicit Types (c : MultiLevelCache V) (reqs : list (set_request V)).

Lemma dict_get_fill_entries dttl reqs :
  NoDup (map set_key reqs) ->
  forall start r e,
    In r reqs ->
    dict_get (set_key r) (fill_entries clock dttl start reqs) = Some e ->
    value e = snd (fst r)
    /\ exists j, nth_error reqs j = Some r
                 /\ expires_at e
                    = (clock (start + j) + py_or (set_ttl r) dttl)%Z.
Proof.
  induction reqs as [|r0 reqs IH]; intros Hnd start r e Hin; [destruct Hin|].
  cbn [map] in Hnd. inversion Hnd as [|? ? Hk Hnd']; subst.
  cbn [fill_entries dict_get]. destruct Hin as [->|Hin].
  - rewrite String.eqb_refl. intro E. injection E as <-.
    cbn [value expires_at]. split; [reflexivity|]. exists 0.
    rewrite Nat.add_0_r. auto.
  - destruct (String.eqb_spec (set_key r) (set_key r0)) as [E|_].
    + elim Hk. rewrite <- E. now apply in_map.
    + intro G. destruct (IH Hnd' (S start) r e Hin G)
        as (Hv & j & Hj & He).
      split; [exact Hv|]. exists (S j). split; [exact Hj|].
      now replace (start + S j) with (S start + j) by lia.
Qed.

(** The state after filling a fresh hot tier of capacity [N >= 4] with [N]
    keys and storing one more. *)
Lemma overflow_run N (l2 dttl : Z) reqs last :
  4 <= N ->
  List.length reqs = N ->
  NoDup (map set_key (reqs ++ [last])) ->
  (forall i j, i <= j -> (clock i <= clock j)%Z) ->
  unexpired_until clock dttl reqs (N + 2 * (N / 4)) ->
  (Z.of_nat (N / 4) <= l2)%Z ->
  exists c,
    run_ops clock (map set_op (reqs ++ [last])) (init (Z.of_nat N) l2 dttl)
    = Some (tt, c)
    /\ consistent c
    /\ keys (l1_cache c) = skipn (N / 4) (map set_key reqs) ++ [set_key last]
    /\ keys (l2_cache c) = firstn (N / 4) (map set_key reqs)
    /\ (forall k e, dict_get k (l2_cache c) = Some e ->
                    dict_get k (fill_entries clock dttl 0 reqs) = Some e)
    /\ clock_reads c = N + 1 + 2 * (N / 4).
Proof.
  intros HN Hfront Hnd Hmono Hlive Hl2.
  assert (Hq : N / 4 <= N) by (apply Nat.Div0.div_le_upper_bound; lia).
  assert (HqZ : (Z.of_nat N / 4 = Z.of_nat (N / 4))%Z)
    by (now rewrite Nat2Z.inj_div).
  set (q := N / 4) in *.
  rewrite map_app in Hnd. cbn [map] in Hnd. apply NoDup_remove in Hnd.
  rewrite app_nil_r in Hnd. destruct Hnd as (Hnd & Hlast).
  destruct (run_ops_consistent clock (map set_op (reqs ++ [last])) _
              (init_consistent (Z.of_nat N) l2 dttl)) as ([] & cf & Rf & Hcf).
  exists cf. split; [exact Rf|]. split; [exact Hcf|].
  revert Rf. rewrite (map_app set_op), run_ops_app.
  rewrite fill_run; cbn [init l1_cache l1_access_times l2_cache l2_access_times
                         l1_size l2_size default_ttl stats clock_reads
                         List.length app Nat.add];
    [|lia|exact Hnd|auto].
  cbn [map run_ops run_op set_op]. unfold bind at 1. rewrite set_unfold.
  set (E := fill_entries clock dttl 0 reqs).
  set (T := fill_times clock 0 reqs).
  assert (KE : keys E = map set_key reqs) by apply keys_fill_entries.
  assert (KT : keys T = map set_key reqs) by apply keys_fill_times.
  assert (LE : List.length E = N).
  { now rewrite <- length_keys, KE, length_map. }
  assert (LT : List.length T = N).
  { now rewrite <- length_keys, KT, length_map. }
  set (c0 := with_clock_reads (S N)
               (mkCache (Z.of_nat N) l2 dttl E T [] []
                        (mkStats 0 0 0 0 0 0) N)).
  destruct (_ensure_l1_space_overflow clock (firstn q T) (firstn q E)
              (skipn q E) (skipn q T) c0)
    as (c' & R & G1 & G2 & G3 & _ & _ & G6); subst c0; state_simpl.
  - lia.
  - rewrite HqZ. lia.
  - rewrite HqZ, Nat2Z.id. apply firstn_length_le. lia.
  - apply fill_times_nondecreasing. exact Hmono.
  - now rewrite !keys_firstn, KE, KT.
  - symmetry. apply firstn_skipn.
  - symmetry. apply firstn_skipn.
  - now rewrite KE.
  - now rewrite KT.
  - intros k _. cbn. tauto.
  - cbn [List.length Nat.add]. rewrite firstn_length_le by lia. exact Hl2.
  - intros k e i Hin Hi. apply In_firstn in Hin.
    destruct (fill_entries_expiry clock dttl 0 reqs k e Hin)
      as (r0 & j & Hr0 & ->).
    rewrite firstn_length_le in Hi by lia.
    assert (j < N) as Hj
      by (rewrite <- Hfront; apply nth_error_Some; congruence).
    apply (unexpired_until_before clock dttl reqs (N + 2 * q) j r0 i Hmono);
      [exact Hlive|exact Hr0|lia|lia].
  - rewrite Hfront. pose proof R as Rm.
    apply _ensure_l1_space_moves in Rm. rewrite R.
    cbv [bind ret]. intro Rf. injection Rf as <-. state_simpl.
    rewrite keys_dict_set, G1, G3, keys_skipn, keys_firstn, KE, KT.
    split; [|split; [reflexivity|split]].
    + apply key_set_absent. intro Hin. apply Hlast.
      eapply In_skipn. exact Hin.
    + intros k e He. destruct (Rm k e (or_intror He)) as [H|H];
        state_simpl; [exact H|discriminate H].
    + rewrite G6, firstn_length_le by lia. lia.
Qed.

End Demoted.

(** X10 (a demoted value is still served): on a fresh cache with hot
    capacity N >= 4 and warm capacity at least N // 4, under a clock that
    never runs backwards, after [set] calls on N+1 distinct keys whose
    entries have not expired (each is unexpired from its writing to the
    clock reading of the [get], reading N + 2 (N // 4) + 1), [get] on any
    of the first N // 4 keys, which were demoted to the warm tier, returns
    the value stored for that key and brings the key back into the hot
    tier. *)
Theorem demoted_value_is_served {V} (clock : nat -> Z) (N : nat) (l2 dttl : Z)
        (reqs : list (set_request V)) (r : set_request V) :
  4 <= N ->
  List.length reqs = N + 1 ->
  NoDup (map set_key reqs) ->
  (forall i j, i <= j -> (clock i <= clock j)%Z) ->
  unexpired_until clock dttl reqs (N + 2 * (N / 4) + 1) ->
  (Z.of_nat (N / 4) <= l2)%Z ->
  In r (firstn (N / 4) reqs) ->
  exists c c',
    run_ops clock (map set_op reqs) (init (Z.of_nat N) l2 dttl) = Some (tt, c)
    /\ ~ In (set_key r) (keys (l1_cache c))
    /\ In (set_key r) (keys (l2_cache c))
    /\ get clock (set_key r) c = Some (Some (snd (fst r)), c')
    /\ In (set_key r) (keys (l1_cache c')).
Proof.
  intros HN Hlen Hnd Hmono Hlive Hl2 Hr.
  assert (Hq : N / 4 <= N) by (apply Nat.Div0.div_le_upper_bound; lia).
  destruct (exists_last (l := reqs)) as (front & last & ->).
  { intros ->. cbn in Hlen. lia. }
  rewrite length_app in Hlen. cbn [List.length] in Hlen.
  assert (Hfront : List.length front = N) by lia.
  rewrite firstn_app, Hfront in Hr.
  replace (N / 4 - N) with 0 in Hr by lia. cbn [firstn] in Hr.
  rewrite app_nil_r in Hr.
  destruct (overflow_run clock N l2 dttl front last HN Hfront Hnd Hmono)
    as (c & R & Hc & K1 & K2 & Hent & Hreads); [|exact Hl2|].
  { apply unexpired_until_front in Hlive.
    intros j r' i Hr' Hi. apply (Hlive j r' i Hr'). lia. }
  assert (Hnd' : NoDup (map set_key front)).
  { rewrite map_app in Hnd. now apply NoDup_app_remove_r in Hnd. }
  assert (Hk2 : In (set_key r) (keys (l2_cache c))).
  { rewrite K2, firstn_map. now apply in_map. }
  assert (Hk1 : ~ In (set_key r) (keys (l1_cache c))).
  { rewrite K1. intro Hin. apply in_app_or in Hin.
    destruct Hin as [Hin|[Hin|[]]].
    - rewrite K2 in Hk2.
      rewrite <- (firstn_skipn (N / 4) (map set_key front)) in Hnd'.
      revert Hk2 Hin Hnd'. generalize (firstn (N / 4) (map set_key front)).
      generalize (skipn (N / 4) (map set_key front)).
      intros l1' l2' H2 H1 Hd. induction l2' as [|x l2' IHl]; [destruct H2|].
      cbn [app] in Hd. inversion Hd as [|? ? Hx Hd']; subst.
      destruct H2 as [->|H2]; [|now apply IHl].
      apply Hx. apply in_or_app. now right.
    - rewrite map_app in Hnd. cbn [map] in Hnd. apply NoDup_remove_2 in Hnd.
      rewrite app_nil_r in Hnd. apply Hnd. rewrite Hin.
      apply in_map. eapply In_firstn. exact Hr. }
  exists c.
  destruct (get_visible clock (set_key r) c Hc) as (c' & G & _ & Hpost).
  exists c'. split; [exact R|]. split; [exact Hk1|]. split; [exact Hk2|].
  assert (Hvis : visible (clock (clock_reads c)) c (set_key r)
                 = Some (snd (fst r))).
  { unfold visible.
    assert (live_value (clock (clock_reads c)) (l1_cache c) (set_key r) = None)
      as ->.
    { apply live_value_None. apply dict_get_None in Hk1. now rewrite Hk1. }
    apply dict_mem_In in Hk2. unfold dict_mem in Hk2.
    destruct (dict_get (set_key r) (l2_cache c)) as [e|] eqn:E;
      [|discriminate].
    apply live_value_Some. exists e. split; [exact E|].
    destruct (dict_get_fill_entries clock dttl front Hnd' 0 r e)
      as (Hv & j & Hj & He); [eapply In_firstn; exact Hr|now apply Hent|].
    split; [exact Hv|]. rewrite He, Hreads.
    assert (j < N) as HjN
      by (rewrite <- Hfront; apply nth_error_Some; congruence).
    replace (N + 1 + 2 * (N / 4)) with (N + 2 * (N / 4) + 1) by lia.
    apply unexpired_until_front in Hlive.
    apply (Hlive j r _ Hj). cbn [Nat.add]. lia. }
  rewrite Hvis in G, Hpost. split; [exact G|].
  destruct Hpost as (e & He & _). now apply dict_get_Some_In in He.
Qed.

Lemma demoted_value_is_served_witness :
  let clock := fun n => (100 * Z.of_nat n)%Z in
  let reqs : list (set_request nat) :=
    [("k1", 10, None); ("k2", 20, None); ("k3", 30, None); ("k4", 40, None);
     ("k5", 50, Some 350%Z)] in
  In ("k1", 10, None) (firstn (4 / 4) reqs)
  /\ unexpired_until clock 1000 reqs (4 + 2 * (4 / 4) + 1)
  /\ option_map fst
       (get clock "k1"
            (state_after clock (map set_op reqs) (init 4 4 1000)))
     = Some (Some 10).
Proof.
  intros clock reqs.
  assert (Hin : In ("k1", 10, @None Z) (firstn (4 / 4) reqs)) by (now left).
  assert (Hlive : unexpired_until clock 1000 reqs (4 + 2 * (4 / 4) + 1)).
  { intros j r i Hr Hi. change (4 + 2 * (4 / 4) + 1) with 7 in Hi.
    unfold clock.
    do 5 (destruct j as [|j];
          [injection Hr as <-; cbn [set_ttl snd py_or Z.eqb]; lia|]).
    destruct j; discriminate Hr. }
  split; [exact Hin|]. split; [exact Hlive|].
  destruct (demoted_value_is_served clock 4 4 1000 reqs
              ("k1", 10, None)) as (c & c' & R & _ & _ & G & _).
  - lia.
  - reflexivity.
  - repeat constructor; cbn; intuition discriminate.
  - intros i j Hij. unfold clock. lia.
  - exact Hlive.
  - vm_compute. discriminate.
  - exact Hin.
  - change (Z.of_nat 4) with 4%Z in R. unfold state_after. rewrite R.
    cbn [set_key fst snd] in G. rewrite G. reflexivity.
Defined.

(** * Properties of the object pool *)

Section PoolFacts.

Import ObjectPool.

Context {O : Type}.
Variable clock : nat -> Z.
Variable factory : nat -> O.
Variable reset_object : O -> O.
Variable py_eq : nat -> nat -> bool.
Implicit Types (p : ObjectPool.t O).

Lemma length_update n (f : O -> O) (l : list O) :
  List.length (update n f l) = List.length l.
Proof.
  revert n. induction l as [|o l IH]; intros [|n]; cbn; auto.
Qed.



Lemma In_set_add x y s : In y (set_add py_eq x s) -> y = x \/ In y s.
Proof.
  unfold set_add. destruct (set_mem py_eq x s); [tauto|].
  rewrite in_app_iff. cbn. intuition.
Qed.

Lemma set_mem_In x s :
  set_mem py_eq x s = true <-> exists a, In a s /\ py_eq a x = true.
Proof. unfold set_mem. apply existsb_exists. Qed.

Lemma popleft_times_spec n p :
  popleft_times n p = with_pool (skipn n (_pool p)) p.
Proof.
  revert p. induction n as [|n IH]; intro p.
  - now destruct p.
  - cbn [popleft_times]. rewrite IH. destruct (_pool p) as [|x q] eqn:E.
    + rewrite E. now rewrite skipn_nil.
    + reflexivity.
Qed.

(** What [_cleanup_expired_objects] does: it notes the time and, when the
    pool holds more than half its capacity, drops its older half. *)
Lemma _cleanup_expired_objects_spec p :
  _cleanup_expired_objects clock p
  = mk (max_size p) (cleanup_interval p)
       (if (Z.of_nat (List.length (_pool p)) >? max_size p / 2)%Z
        then skipn (List.length (_pool p) / 2) (_pool p) else _pool p)
       (_created_count p) (_reused_count p) (clock (clock_reads p))
       (_active_objects p) (objects p) (S (clock_reads p)).
Proof.
  unfold _cleanup_expired_objects, time_time, with_last_cleanup.
  cbn [_pool max_size]. destruct (_ >? _)%Z; [|reflexivity].
  now rewrite popleft_times_spec.
Qed.

(** [acquire] serves the oldest pooled object that the cleanup, when it is
    due, has left, reset; it makes a new object when none is left. *)
Lemma acquire_spec p :
  acquire clock factory reset_object py_eq p
  = let last := if cleanup_due clock p then clock (S (clock_reads p))
                else _last_cleanup p in
    let reads := if cleanup_due clock p then S (S (clock_reads p))
                 else S (clock_reads p) in
    match skipn (skipped clock p) (_pool p) with
    | obj :: q =>
        (obj,
         mk (max_size p) (cleanup_interval p) q (_created_count p)
            (_reused_count p + 1) last
            (set_add py_eq obj (_active_objects p))
            (update obj reset_object (objects p)) reads)
    | [] =>
        (List.length (objects p),
         mk (max_size p) (cleanup_interval p) [] (_created_count p + 1)
            (_reused_count p) last
            (set_add py_eq (List.length (objects p)) (_active_objects p))
            (objects p ++ [factory (List.length (objects p))]) reads)
    end.
Proof.
  unfold acquire, skipped, cleanup_due. unfold time_time at 1.
  cbn [_last_cleanup cleanup_interval].
  destruct (_ - _ >? _)%Z; cbn [andb]; cbv zeta.
  - rewrite _cleanup_expired_objects_spec.
    cbn [_pool max_size cleanup_interval clock_reads _created_count
         _reused_count _last_cleanup _active_objects objects].
    destruct (_ >? _)%Z; [|cbn [skipn]];
      match goal with |- context [match ?l with _ => _ end] => destruct l end;
      reflexivity.
  - cbn [skipn _pool max_size cleanup_interval clock_reads _created_count
         _reused_count _last_cleanup _active_objects objects].
    destruct (_pool p); reflexivity.
Qed.

Ltac pool_simpl :=
  cbn [max_size cleanup_interval _pool _created_count _reused_count
       _last_cleanup _active_objects objects clock_reads with_pool
       with_active_objects fst snd] in *.

Lemma deque_append_room (M : Z) x q :
  (Z.of_nat (List.length q) < M)%Z -> deque_append M x q = q ++ [x].
Proof.
  intro H. unfold deque_append.
  replace (List.length (q ++ [x]) - Z.to_nat M) with 0; [reflexivity|].
  rewrite length_app. cbn. lia.
Qed.

(** [release] pools the object when there is room and the object passes
    for a member of the weak set, and does nothing otherwise. *)
Lemma release_spec obj p :
  release py_eq obj p
  = if (Z.of_nat (List.length (_pool p)) <? max_size p)%Z
       && set_mem py_eq obj (_active_objects p)
    then with_pool (_pool p ++ [obj]) p else p.
Proof.
  unfold release. destruct (Z.ltb_spec (Z.of_nat (List.length (_pool p)))
                                       (max_size p)) as [Hlt|Hge];
    cbn [andb]; [|reflexivity].
  destruct (set_mem _ _ _); [|reflexivity].
  now rewrite deque_append_room.
Qed.



Lemma acquire_max_size p :
  max_size (snd (acquire clock factory reset_object py_eq p)) = max_size p.
Proof. rewrite acquire_spec. cbv zeta. now destruct (skipn _ _). Qed.

Lemma run_op_max_size o p :
  max_size (run_op clock factory reset_object py_eq o p) = max_size p.
Proof.
  destruct o as [|obj|obj s|obj]; cbn [run_op].
  - apply acquire_max_size.
  - rewrite release_spec. now destruct (_ && _).
  - reflexivity.
  - now destruct (existsb _ _).
Qed.

Lemma run_ops_max_size os p :
  max_size (run_ops clock factory reset_object py_eq os p) = max_size p.
Proof.
  revert p. unfold run_ops.
  induction os as [|o os IH]; intro p; cbn [fold_left]; [reflexivity|].
  rewrite IH. apply run_op_max_size.
Qed.

Lemma acquire_ok handed p :
  ok py_eq handed p ->
  ok py_eq (handed ++ [fst (acquire clock factory reset_object py_eq p)])
     (snd (acquire clock factory reset_object py_eq p)).
Proof.
  intros (H0 & Hlen & Hact & Hpool & Hcr). rewrite acquire_spec. cbv zeta.
  pose proof (fun x => In_skipn (skipped clock p) (_pool p) x) as Hin.
  pose proof (length_skipn (skipped clock p) (_pool p)) as Hl.
  assert (forall x y, In y (set_add py_eq x (_active_objects p)) ->
                      In y (handed ++ [x])) as Hadd.
  { intros x y Hy. apply in_or_app. apply In_set_add in Hy.
    destruct Hy as [->|Hy]; [right; now left|left; auto]. }
  destruct (skipn _ _) as [|obj q]; unfold ok; pool_simpl.
  - split; [exact H0|]. split; [cbn; lia|]. split; [apply Hadd|].
    split; [intros obj []|]. rewrite length_app. cbn. lia.
  - cbn [List.length] in Hl.
    split; [exact H0|]. split; [lia|]. split; [apply Hadd|].
    split; [|now rewrite length_update].
    intros x Hx. destruct (Hpool x) as (a & Ha & E); [apply Hin; now right|].
    exists a. split; [apply in_or_app; now left|exact E].
Qed.

Lemma release_ok handed obj p :
  ok py_eq handed p -> ok py_eq handed (release py_eq obj p).
Proof.
  intros (H0 & Hlen & Hact & Hpool & Hcr). rewrite release_spec.
  destruct (Z.ltb_spec (Z.of_nat (List.length (_pool p))) (max_size p))
    as [Hlt|Hge]; cbn [andb]; [|now repeat split].
  destruct (set_mem _ _ _) eqn:E; [|now repeat split].
  apply set_mem_In in E. destruct E as (a & Ha & E). unfold ok. pool_simpl.
  split; [exact H0|]. split; [rewrite length_app; cbn; lia|].
  split; [exact Hact|]. split; [|exact Hcr].
  intros x Hx. apply in_app_iff in Hx. destruct Hx as [Hx|[<-|[]]]; auto.
  exists a. auto.
Qed.

Lemma acquired_cons o os p :
  acquired clock factory reset_object py_eq (o :: os) p
  = acquired clock factory reset_object py_eq [o] p
    ++ acquired clock factory reset_object py_eq os
         (run_op clock factory reset_object py_eq o p).
Proof. now destruct o. Qed.

Lemma run_op_ok handed o p :
  ok py_eq handed p ->
  ok py_eq (handed ++ acquired clock factory reset_object py_eq [o] p)
     (run_op clock factory reset_object py_eq o p).
Proof.
  intro H. destruct o as [|obj|obj s|obj]; cbn [run_op acquired];
    rewrite ?app_nil_r.
  - now apply acquire_ok.
  - now apply release_ok.
  - destruct H as (H0 & Hlen & Hact & Hpool & Hcr). unfold ok. pool_simpl.
    rewrite length_update. now repeat split.
  - destruct (existsb _ _); [exact H|].
    destruct H as (H0 & Hlen & Hact & Hpool & Hcr). unfold ok. pool_simpl.
    split; [exact H0|]. split; [exact Hlen|]. split; [|now split].
    intros a Ha. apply filter_In in Ha. now apply Hact.
Qed.

Lemma run_ops_cons o os p :
  run_ops clock factory reset_object py_eq (o :: os) p
  = run_ops clock factory reset_object py_eq os
      (run_op clock factory reset_object py_eq o p).
Proof. reflexivity. Qed.

Lemma run_ops_ok os handed p :
  ok py_eq handed p ->
  ok py_eq (handed ++ acquired clock factory reset_object py_eq os p)
     (run_ops clock factory reset_object py_eq os p).
Proof.
  revert handed p. induction os as [|o os IH]; intros handed p H.
  - cbn. now rewrite app_nil_r.
  - rewrite run_ops_cons, acquired_cons, app_assoc. now apply IH, run_op_ok.
Qed.

(** when no two distinct objects are equal, [acquire] returns only objects
    that the factory made *)
Lemma run_op_made handed o p :
  (forall a b, py_eq a b = true -> a = b) ->
  ok py_eq handed p ->
  (forall a, In a handed -> a < List.length (objects p)) ->
  forall a,
    In a (handed ++ acquired clock factory reset_object py_eq [o] p) ->
    a < List.length (objects (run_op clock factory reset_object py_eq o p)).
Proof.
  intros Hid (H0 & Hlen & Hact & Hpool & Hcr) Hmade.
  destruct o as [|obj|obj s|obj]; cbn [run_op acquired];
    rewrite ?app_nil_r.
  - rewrite acquire_spec. cbv zeta.
    pose proof (fun x => In_skipn (skipped clock p) (_pool p) x) as Hin.
    destruct (skipn _ _) as [|obj q]; pool_simpl; intros a Ha;
      apply in_app_iff in Ha.
    + rewrite length_app. cbn.
      destruct Ha as [Ha|[<-|[]]]; [specialize (Hmade a Ha)|]; lia.
    + rewrite length_update. destruct Ha as [Ha|[<-|[]]]; [now apply Hmade|].
      destruct (Hpool obj) as (a & Ha & E); [apply Hin; now left|].
      apply Hid in E. subst a. now apply Hmade.
  - rewrite release_spec. destruct (_ && _); pool_simpl; exact Hmade.
  - pool_simpl. rewrite length_update. exact Hmade.
  - destruct (existsb _ _); pool_simpl; exact Hmade.
Qed.

Lemma run_ops_made os handed p :
  (forall a b, py_eq a b = true -> a = b) ->
  ok py_eq handed p ->
  (forall a, In a handed -> a < List.length (objects p)) ->
  forall a,
    In a (handed ++ acquired clock factory reset_object py_eq os p) ->
    a < List.length (objects (run_ops clock factory reset_object py_eq os p)).
Proof.
  intro Hid. revert handed p.
  induction os as [|o os IH]; intros handed p Hok Hmade.
  - cbn. now rewrite app_nil_r.
  - rewrite run_ops_cons, acquired_cons, app_assoc.
    apply IH; [now apply run_op_ok|now apply run_op_made].
Qed.

Lemma init_ok M I p0 :
  init clock M I = Some p0 ->
  ok py_eq [] p0 /\ max_size p0 = M /\ _pool p0 = []
  /\ _active_objects p0 = [] /\ _created_count p0 = 0
  /\ _reused_count p0 = 0 /\ objects p0 = [].
Proof.
  unfold init. destruct (Z.ltb_spec M 0) as [|Hge]; [discriminate|].
  intro E. injection E as <-. unfold ok. pool_simpl.
  repeat split; try (cbn; lia); intros obj [].
Qed.

(** X11: whatever happens to a pool (clients acquire, release any object,
    theirs or not, any number of times, change objects, and objects are
    collected), the pool never holds more than [max_size] objects, and
    every object in it has passed the membership test of [release]: it is
    equal to an object that an [acquire] of the run returned.  When no two
    distinct objects are equal, every object in the pool is itself one that
    [acquire] returned and that the factory made.  [_created_count] is the
    number of objects made. *)
Theorem pool_keeps_its_bound M I p0 os :
  init clock M I = Some p0 ->
  let p := run_ops clock factory reset_object py_eq os p0 in
  let handed := acquired clock factory reset_object py_eq os p0 in
  (Z.of_nat (List.length (_pool p)) <= M)%Z
  /\ (forall obj, In obj (_pool p) ->
        exists a, In a handed /\ py_eq a obj = true)
  /\ ((forall a b, py_eq a b = true -> a = b) ->
      forall obj, In obj (_pool p) ->
                  In obj handed /\ obj < _created_count p)
  /\ _created_count p = List.length (objects p).
Proof.
  intro Hinit. destruct (init_ok _ _ _ Hinit) as (Hok & HM & _).
  pose proof (run_ops_ok os [] p0 Hok) as (H0 & Hlen & Hact & Hpool & Hcr).
  pose proof (run_ops_max_size os p0) as Hmax. cbv zeta.
  cbn [app] in *. rewrite Hmax, HM in Hlen.
  split; [exact Hlen|]. split; [exact Hpool|]. split; [|exact Hcr].
  intros Hid obj Hobj. destruct (Hpool obj Hobj) as (a & Ha & E).
  apply Hid in E. subst a. split; [exact Ha|]. rewrite Hcr.
  apply (run_ops_made os [] p0 Hid Hok); [intros a []|exact Ha].
Qed.

Lemma acquire_counts p :
  let p' := snd (acquire clock factory reset_object py_eq p) in
  _created_count p' + _reused_count p'
  = _created_count p + _reused_count p + 1.
Proof.
  cbv zeta. rewrite acquire_spec. cbv zeta.
  destruct (skipn _ _); pool_simpl; lia.
Qed.

Lemma run_ops_counts os p :
  let p' := run_ops clock factory reset_object py_eq os p in
  _created_count p' + _reused_count p'
  = _created_count p + _reused_count p + count_acquires os.
Proof.
  cbv zeta. revert p. induction os as [|o os IH]; intro p.
  - cbn. lia.
  - rewrite run_ops_cons, IH. destruct o as [|obj|obj s|obj]; cbn [run_op].
    + rewrite acquire_counts. unfold count_acquires. cbn. lia.
    + rewrite release_spec. destruct (_ && _); pool_simpl; reflexivity.
    + reflexivity.
    + destruct (existsb _ _); pool_simpl; reflexivity.
Qed.









(** a pool of [max_size] 0 stays empty *)
Lemma run_op_no_room o p :
  max_size p = 0%Z -> _pool p = [] -> _reused_count p = 0 ->
  let p' := run_op clock factory reset_object py_eq o p in
  _pool p' = [] /\ _reused_count p' = 0.
Proof.
  intros HM Hpool Hr. cbv zeta.
  destruct o as [|obj|obj s|obj]; cbn [run_op].
  - rewrite acquire_spec. cbv zeta. rewrite Hpool, skipn_nil. pool_simpl.
    now split.
  - rewrite release_spec, Hpool, HM. cbn. now split.
  - pool_simpl. now split.
  - destruct (existsb _ _); pool_simpl; now split.
Qed.

(** X15: a pool of [max_size] 0 is accepted and never pools anything:
    every [release] is ignored, and every [acquire] makes a new object. *)
Theorem pool_without_room_never_reuses I p0 os :
  init clock 0 I = Some p0 ->
  let p := run_ops clock factory reset_object py_eq os p0 in
  _pool p = [] /\ _reused_count p = 0 /\ _created_count p = count_acquires os.
Proof.
  intro Hinit.
  destruct (init_ok _ _ _ Hinit) as (Hok & HM & Hpool & _ & Hc0 & Hr0 & _).
  cbv zeta. pose proof (run_ops_counts os p0) as Hcount. cbv zeta in Hcount.
  assert (_pool (run_ops clock factory reset_object py_eq os p0) = []
          /\ _reused_count (run_ops clock factory reset_object py_eq os p0)
             = 0)
    as [Hp Hr].
  { clear Hcount Hok Hinit Hc0. revert p0 HM Hpool Hr0.
    induction os as [|o os IH]; intros p0 HM Hpool Hr0; [now split|].
    rewrite run_ops_cons.
    destruct (run_op_no_room o p0 HM Hpool Hr0) as [Hp' Hr'].
    apply IH; auto. now rewrite run_op_max_size. }
  repeat split; auto. lia.
Qed.





End PoolFacts.

Lemma pool_keeps_its_bound_witness :
  let p0 := ObjectPool.mk 2 300 [] 0 0 (ticking_clock 0) [] [] 1 in
  let os := [ObjectPool.Acquire; ObjectPool.Acquire; ObjectPool.Acquire;
             ObjectPool.Release 0; ObjectPool.Release 7;
             ObjectPool.Release 0; ObjectPool.Collect 1;
             ObjectPool.Release 2; ObjectPool.Mutate 1 5;
             ObjectPool.Acquire] in
  let py_eq := fun a b => Nat.eqb a b || Nat.eqb b 7 in
  @ObjectPool.init nat ticking_clock 2 300 = Some p0
  /\ let p := ObjectPool.run_ops ticking_clock (fun n => n) (fun _ => 0)
                py_eq os p0 in
     let handed := ObjectPool.acquired ticking_clock (fun n => n)
                     (fun _ => 0) py_eq os p0 in
     (Z.of_nat (List.length (ObjectPool._pool p)) <= 2)%Z
     /\ (forall obj, In obj (ObjectPool._pool p) ->
           exists a, In a handed /\ py_eq a obj = true)
     /\ ((forall a b, py_eq a b = true -> a = b) ->
         forall obj, In obj (ObjectPool._pool p) ->
                     In obj handed /\ obj < ObjectPool._created_count p)
     /\ ObjectPool._created_count p = List.length (ObjectPool.objects p).
Proof.
  intros p0 os py_eq. split; [reflexivity|].
  exact (pool_keeps_its_bound ticking_clock (fun n => n) (fun _ => 0) py_eq
           2 300 p0 os eq_refl).
Defined.



Lemma pool_without_room_never_reuses_witness :
  let p0 := ObjectPool.mk 0 300 [] 0 0 (ticking_clock 0) [] [] 1 in
  let os := [ObjectPool.Acquire; ObjectPool.Release 0; ObjectPool.Acquire;
             ObjectPool.Release 1; ObjectPool.Release 0] in
  @ObjectPool.init nat ticking_clock 0 300 = Some p0
  /\ let p := ObjectPool.run_ops ticking_clock (fun n => n) (fun _ => 0)
                Nat.eqb os p0 in
     ObjectPool._pool p = [] /\ ObjectPool._reused_count p = 0
     /\ ObjectPool._created_count p = 2.
Proof.
  intros p0 os. split; [reflexivity|].
  exact (pool_without_room_never_reuses ticking_clock (fun n => n)
           (fun _ => 0) Nat.eqb 300 p0 os eq_refl).
Defined.


(** ** Responses from the pool *)





(** * Properties of the streams *)

Lemma append_nil_r (s : string) : (s ++ "")%string = s.
Proof. induction s as [|a s IH]; cbn; [reflexivity|now rewrite IH]. Qed.

Lemma append_assoc (s1 s2 s3 : string) :
  ((s1 ++ s2) ++ s3)%string = (s1 ++ (s2 ++ s3))%string.
Proof. induction s1 as [|a s1 IH]; cbn; [reflexivity|now rewrite IH]. Qed.

Section StreamFacts.

Import StreamingDataProcessor.

Lemma join_bytes_cons x xs :
  join_bytes (x :: xs) = (x ++ join_bytes xs)%string.
Proof.
  unfold join_bytes. destruct xs as [|y ys]; cbn.
  - now rewrite append_nil_r.
  - reflexivity.
Qed.

Lemma join_bytes_app l1 l2 :
  join_bytes (l1 ++ l2) = (join_bytes l1 ++ join_bytes l2)%string.
Proof.
  induction l1 as [|x l1 IH]; [reflexivity|].
  cbn [app]. now rewrite !join_bytes_cons, IH, append_assoc.
Qed.

Lemma concat_after_commas s ss :
  String.concat "," (s :: ss) = (s ++ after_commas ss)%string.
Proof.
  revert s. induction ss as [|s' ss IH]; intro s.
  - cbn. now rewrite append_nil_r.
  - change (String.concat "," (s :: s' :: ss))
      with (s ++ "," ++ String.concat "," (s' :: ss))%string.
    rewrite IH. unfold after_commas. cbn [map].
    now rewrite join_bytes_cons, append_assoc.
Qed.

Lemma lines_size_app l1 l2 :
  lines_size (l1 ++ l2) = (lines_size l1 + lines_size l2)%Z.
Proof.
  induction l1 as [|x l1 IH]; [reflexivity|].
  change (lines_size ((x :: l1) ++ l2))
    with (py_len x + lines_size (l1 ++ l2))%Z.
  change (lines_size (x :: l1)) with (py_len x + lines_size l1)%Z.
  rewrite IH. lia.
Qed.

Context {Val Item : Type}.
Variable self_chunk_size : Z.
Variable to_str : Val -> string.
Variable dumps : Item -> option string.
Variable metadata : string.

Lemma csv_loop_content headers rows buf size :
  join_bytes (csv_loop self_chunk_size to_str headers rows buf size)
  = (join_bytes buf ++ join_bytes (map (csv_bytes to_str headers) rows))%string.
Proof.
  revert buf size. induction rows as [|row rows IH]; intros buf size.
  - cbn [csv_loop map]. destruct buf; [reflexivity|].
    unfold join_bytes at 1. cbn [String.concat].
    now rewrite append_nil_r.
  - cbn [csv_loop map]. destruct (_ >=? _)%Z.
    + rewrite !join_bytes_cons, IH, join_bytes_app, append_assoc.
      reflexivity.
    + rewrite IH, join_bytes_app, append_assoc.
      now rewrite (join_bytes_cons _ (map _ rows)).
Qed.

(** X18: the chunks of [stream_csv_data] put together are the header line
    followed by the line of every row of the source, in order: chunking
    loses, repeats and reorders nothing. *)
Theorem csv_stream_carries_every_row rows headers :
  join_bytes (stream_csv_data self_chunk_size to_str rows headers)
  = (String.concat "," headers ++ newline
     ++ join_bytes (map (csv_bytes to_str headers) rows))%string.
Proof.
  unfold stream_csv_data. rewrite join_bytes_cons, csv_loop_content.
  now rewrite append_assoc.
Qed.

Lemma csv_loop_groups headers rows buf size :
  size = lines_size buf ->
  (buf <> [] -> (lines_size buf < self_chunk_size)%Z) ->
  exists groups,
    csv_loop self_chunk_size to_str headers rows buf size
    = map join_bytes groups
    /\ List.concat groups = buf ++ map (csv_bytes to_str headers) rows
    /\ Forall (fun g => g <> []) groups
    /\ Forall (fun g => (self_chunk_size <= lines_size g)%Z
                        /\ (removelast g <> [] ->
                            (lines_size (removelast g) < self_chunk_size)%Z))
              (removelast groups).
Proof.
  revert buf size. induction rows as [|row rows IH]; intros buf size Hsize Hbuf.
  - cbn [csv_loop map]. rewrite app_nil_r. destruct buf as [|b buf].
    + exists []. repeat split; constructor.
    + exists [b :: buf]. cbn [map List.concat removelast]. rewrite app_nil_r.
      repeat split; repeat constructor. discriminate.
  - cbn [csv_loop map].
    set (line := csv_bytes to_str headers row).
    assert ((size + py_len line)%Z = lines_size (buf ++ [line])) as Hsize'
      by (rewrite lines_size_app, Hsize; cbn; lia).
    destruct (Z.geb_spec (size + py_len line) self_chunk_size) as [Hge|Hlt].
    + destruct (IH [] 0%Z eq_refl ltac:(congruence))
        as (groups & E & Hcat & Hne & Hfull).
      exists ((buf ++ [line]) :: groups). cbn [map List.concat]. rewrite E, Hcat.
      repeat split.
      * now rewrite <- app_assoc.
      * constructor; [|exact Hne]. now destruct buf.
      * assert (removelast ((buf ++ [line]) :: groups)
                = match groups with
                  | [] => []
                  | _ => (buf ++ [line]) :: removelast groups
                  end) as -> by reflexivity.
        destruct groups as [|g groups]; [constructor|].
        constructor; [|exact Hfull]. rewrite removelast_last.
        split; [lia|exact Hbuf].
    + destruct (IH (buf ++ [line]) _ Hsize' ltac:(intros _; lia))
        as (groups & E & Hcat & Hne & Hfull).
      exists groups. rewrite E, Hcat, <- app_assoc. now repeat split.
Qed.

(** X19: the chunks of [stream_csv_data] after the header line break the
    source at row boundaries only: each is a run of one or more whole row
    lines, every chunk but the last holds at least [chunk_size] bytes, and
    none was held back once it did (without its last line it is below
    [chunk_size]). *)
Theorem csv_chunks_break_at_rows rows headers :
  exists groups,
    stream_csv_data self_chunk_size to_str rows headers
    = (String.concat "," headers ++ newline)%string :: map join_bytes groups
    /\ List.concat groups = map (csv_bytes to_str headers) rows
    /\ Forall (fun g => g <> []) groups
    /\ Forall (fun g => (self_chunk_size <= lines_size g)%Z
                        /\ (removelast g <> [] ->
                            (lines_size (removelast g) < self_chunk_size)%Z))
              (removelast groups).
Proof.
  destruct (csv_loop_groups headers rows [] 0%Z eq_refl ltac:(congruence))
    as (groups & E & Hcat & Hne & Hfull).
  exists groups. unfold stream_csv_data. rewrite E. now repeat split.
Qed.

Lemma after_commas_cons s ss :
  after_commas (s :: ss) = ("," ++ s ++ after_commas ss)%string.
Proof.
  unfold after_commas. cbn [map]. now rewrite join_bytes_cons, append_assoc.
Qed.

Lemma join_bytes_nil : join_bytes [] = "".
Proof. reflexivity. Qed.

Lemma append_nil_l (s : string) : ("" ++ s)%string = s.
Proof. reflexivity. Qed.

Ltac join_norm :=
  repeat (rewrite join_bytes_app || rewrite join_bytes_cons
          || rewrite join_bytes_nil || rewrite append_assoc
          || rewrite append_nil_r || rewrite append_nil_l).

Lemma dataset_loop_content tf im items ss buf size :
  map (fun item => dumps (transformed tf item)) items = map Some ss ->
  let s := dataset_loop self_chunk_size dumps metadata tf im items false
             buf size in
  snd s = true
  /\ join_bytes (fst s)
     = (join_bytes buf ++ after_commas ss ++ closing metadata im)%string.
Proof.
  cbv zeta. revert ss buf size.
  induction items as [|item items IH]; intros ss buf size Hss.
  - destruct ss; [|discriminate]. cbn [dataset_loop fst snd].
    split; [reflexivity|]. destruct buf as [|b buf]; [reflexivity|].
    unfold after_commas. cbn [map]. now join_norm.
  - destruct ss as [|s ss]; [discriminate|]. cbn [map] in Hss.
    injection Hss as Hs Hss. cbn [dataset_loop]. rewrite Hs.
    rewrite after_commas_cons.
    destruct (_ >=? _)%Z.
    + destruct (IH ss [] 0%Z Hss) as [Hfin Hcat].
      unfold yield. cbn [fst snd]. split; [exact Hfin|].
      rewrite join_bytes_cons, Hcat. now join_norm.
    + destruct (IH ss ((buf ++ [","]) ++ [s]) (size + py_len s)%Z Hss)
        as [Hfin Hcat].
      split; [exact Hfin|]. rewrite Hcat. now join_norm.
Qed.

(** X20: when every item of the source, transformed, can be serialized,
    [stream_large_dataset] runs to its end, and its chunks put together are
    the opening [["data":[], the serialized items in order with one comma
    between neighbours, and the closing (with the metadata when they are
    asked for), wherever the chunks break. *)
Theorem dataset_stream_carries_every_item items tf im ss :
  map (fun item => dumps (transformed tf item)) items = map Some ss ->
  let s := stream_large_dataset self_chunk_size dumps metadata items tf im in
  snd s = true
  /\ join_bytes (fst s)
     = (opening ++ String.concat "," ss ++ closing metadata im)%string.
Proof.
  intro Hss. cbv zeta. unfold stream_large_dataset, yield. cbn [fst snd].
  rewrite join_bytes_cons.
  destruct items as [|item items].
  - destruct ss; [|discriminate]. cbn [dataset_loop fst snd].
    split; reflexivity.
  - destruct ss as [|s ss]; [discriminate|]. cbn [map] in Hss.
    injection Hss as Hs Hss. cbn [dataset_loop]. rewrite Hs.
    rewrite concat_after_commas.
    destruct (_ >=? _)%Z.
    + destruct (dataset_loop_content tf im items ss [] 0%Z Hss)
        as [Hfin Hcat].
      unfold yield. cbn [fst snd]. split; [exact Hfin|].
      rewrite join_bytes_cons, Hcat. now join_norm.
    + destruct (dataset_loop_content tf im items ss ([] ++ [s])
                  (0 + py_len s)%Z Hss) as [Hfin Hcat].
      split; [exact Hfin|]. rewrite Hcat. now join_norm.
Qed.

Lemma after_commas_snoc b s :
  after_commas (b ++ [s]) = (after_commas b ++ "," ++ s)%string.
Proof.
  unfold after_commas. rewrite map_app, join_bytes_app. cbn [map].
  now join_norm.
Qed.

Lemma concat_snoc b s :
  b <> [] ->
  String.concat "," (b ++ [s]) = (String.concat "," b ++ "," ++ s)%string.
Proof.
  destruct b as [|x b]; [intro H; now elim H|]. intros _.
  cbn [app]. rewrite !concat_after_commas, after_commas_snoc.
  now rewrite append_assoc.
Qed.

(** the buffer after one more item *)
Lemma chunk_of_snoc fb b buf s :
  join_bytes buf = chunk_of fb b -> (b = [] -> buf = []) ->
  join_bytes ((if fb && match b with [] => true | _ => false end
               then buf else buf ++ [","]) ++ [s])
  = chunk_of fb (b ++ [s]).
Proof.
  intros Hbuf Hnil. destruct b as [|x b].
  - rewrite (Hnil eq_refl). rewrite andb_true_r. destruct fb; cbn [app].
    + reflexivity.
    + unfold chunk_of. rewrite after_commas_cons. now join_norm.
  - rewrite andb_false_r. rewrite !join_bytes_app, Hbuf.
    unfold chunk_of. destruct fb.
    + rewrite concat_snoc by discriminate. now join_norm.
    + rewrite after_commas_snoc. now join_norm.
Qed.

(** The loop of [stream_large_dataset] on a source with an item that cannot
    be serialized, from a buffer that holds the items [b]: it sends the
    groups of items that fill the buffer, and stops. *)
Lemma dataset_loop_stops tf im before bad after ss fb b buf size :
  map (fun item => dumps (transformed tf item)) before = map Some ss ->
  dumps (transformed tf bad) = None ->
  join_bytes buf = chunk_of fb b -> (b = [] -> buf = []) ->
  size = lines_size b ->
  (b <> [] -> (lines_size b < self_chunk_size)%Z) ->
  let s := dataset_loop self_chunk_size dumps metadata tf im
             (before ++ bad :: after)
             (fb && match b with [] => true | _ => false end) buf size in
  snd s = false
  /\ exists groups held,
       b ++ ss = List.concat groups ++ held
       /\ fst s = chunks_of fb groups
       /\ Forall (full_group self_chunk_size) groups
       /\ (held = [] \/ (lines_size held < self_chunk_size)%Z).
Proof.
  intros Hss Hbad. cbv zeta. revert ss fb b buf size Hss.
  induction before as [|item before IH];
    intros ss fb b buf size Hss Hbuf Hnil Hsize Hlow.
  - destruct ss; [|discriminate]. cbn [app dataset_loop]. rewrite Hbad.
    cbn [fst snd]. split; [reflexivity|].
    exists [], b. rewrite app_nil_r. cbn [List.concat app chunks_of].
    split; [reflexivity|]. split; [reflexivity|]. split; [constructor|].
    destruct b; [now left|right; apply Hlow; discriminate].
  - destruct ss as [|s ss]; [discriminate|]. cbn [map] in Hss.
    injection Hss as Hs Hss. cbn [app dataset_loop]. rewrite Hs.
    pose proof (chunk_of_snoc fb b buf s Hbuf Hnil) as Hbuf'.
    assert ((size + py_len s)%Z = lines_size (b ++ [s])) as Hsize'
      by (rewrite lines_size_app, Hsize; cbn; lia).
    assert (b ++ s :: ss = (b ++ [s]) ++ ss) as ->
      by (now rewrite <- app_assoc).
    destruct (Z.geb_spec (size + py_len s) self_chunk_size) as [Hge|Hlt].
    + destruct (IH ss false [] [] 0%Z Hss eq_refl (fun _ => eq_refl) eq_refl
                  ltac:(congruence))
        as [Hfin (groups & held & Hcat & Hsent & Hfull & Hheld)].
      cbn [andb] in Hfin, Hsent.
      unfold yield. cbn [fst snd]. split; [exact Hfin|].
      exists ((b ++ [s]) :: groups), held. cbn [List.concat chunks_of].
      cbn [app] in Hcat. rewrite Hcat, Hbuf', Hsent.
      split; [apply app_assoc|]. split; [reflexivity|].
      split; [|exact Hheld].
      constructor; [|exact Hfull]. split; [now destruct b|].
      split; [lia|]. now rewrite removelast_last.
    + assert (fb && match b ++ [s] with [] => true | _ => false end = false)
        as Hflag by (destruct b; apply andb_false_r).
      pose proof (IH ss fb (b ++ [s]) _ (size + py_len s)%Z Hss Hbuf'
                    ltac:(now destruct b) Hsize' ltac:(intros _; lia))
        as H.
      rewrite Hflag in H. exact H.
Qed.

(** X21: when an item cannot be serialized, [stream_large_dataset] stops
    there: it does not run to its end, so the closing is never sent.  What
    it has sent is the opening and one chunk for each group of items that
    filled the buffer before the failing item; the items [held] that were
    in the buffer at that moment, fewer than fill it, are not sent. *)
Theorem dataset_stream_stops_at_failing_item before bad after tf im ss :
  map (fun item => dumps (transformed tf item)) before = map Some ss ->
  dumps (transformed tf bad) = None ->
  let s := stream_large_dataset self_chunk_size dumps metadata
             (before ++ bad :: after) tf im in
  snd s = false
  /\ exists groups held,
       ss = List.concat groups ++ held
       /\ fst s = opening :: chunks_of true groups
       /\ Forall (full_group self_chunk_size) groups
       /\ (held = [] \/ (lines_size held < self_chunk_size)%Z).
Proof.
  intros Hss Hbad. cbv zeta. unfold stream_large_dataset, yield.
  cbn [fst snd].
  destruct (dataset_loop_stops tf im before bad after ss true [] [] 0%Z
              Hss Hbad eq_refl (fun _ => eq_refl) eq_refl ltac:(congruence))
    as [Hfin (groups & held & Hcat & Hsent & Hfull & Hheld)].
  cbn [andb] in Hfin, Hsent.
  split; [exact Hfin|]. exists groups, held. cbn [app] in Hcat.
  now rewrite Hsent.
Qed.

End StreamFacts.

Lemma dataset_stream_carries_every_item_witness :
  let dumps := fun n => if Nat.eqb n 13 then None
                        else Some (String (Ascii.ascii_of_nat (48 + n)) "") in
  map (fun item => dumps (StreamingDataProcessor.transformed (Some S) item))
      [1; 2; 3; 4]
  = map Some ["2"; "3"; "4"; "5"]
  /\ let s := StreamingDataProcessor.stream_large_dataset 2 dumps "{}"
                [1; 2; 3; 4] (Some S) false in
     snd s = true
     /\ StreamingDataProcessor.join_bytes (fst s)
        = (StreamingDataProcessor.opening
           ++ String.concat "," ["2"; "3"; "4"; "5"]
           ++ StreamingDataProcessor.closing "{}" false)%string.
Proof.
  intro dumps. split; [reflexivity|].
  exact (dataset_stream_carries_every_item 2 dumps "{}" [1; 2; 3; 4]
           (Some S) false ["2"; "3"; "4"; "5"] eq_refl).
Defined.

Lemma dataset_stream_stops_at_failing_item_witness :
  let dumps := fun n => if Nat.eqb n 13 then None
                        else Some (String (Ascii.ascii_of_nat (48 + n)) "") in
  map (fun item => dumps (StreamingDataProcessor.transformed None item))
      [1; 2; 3]
  = map Some ["1"; "2"; "3"]
  /\ dumps (StreamingDataProcessor.transformed None 13) = None
  /\ let s := StreamingDataProcessor.stream_large_dataset 2 dumps "{}"
                ([1; 2; 3] ++ 13 :: [4]) None true in
     snd s = false
     /\ fst s = [StreamingDataProcessor.opening; "1,2"]
     /\ exists groups held,
          ["1"; "2"; "3"] = List.concat groups ++ held
          /\ fst s = StreamingDataProcessor.opening
                     :: StreamingDataProcessor.chunks_of true groups
          /\ Forall (StreamingDataProcessor.full_group 2) groups
          /\ (held = []
              \/ (StreamingDataProcessor.lines_size held < 2)%Z).
Proof.
  intro dumps. split; [reflexivity|]. split; [reflexivity|].
  pose proof (dataset_stream_stops_at_failing_item 2 dumps "{}" [1; 2; 3]
                13 [4] None true ["1"; "2"; "3"] eq_refl eq_refl) as H.
  cbv zeta in H |- *. destruct H as [Hfin H].
  split; [exact Hfin|]. split; [reflexivity|exact H].
Defined.
